(** * The pairwise connection protocol of @localfirst/auth

    A shallow embedding of [packages/auth/src/connection/Connection.ts]: the
    connection driver (constructor, [start], [stop], [deliver], [send], the
    getters), the actions and guards it hands to the protocol machine, and the
    collaborators it calls.  Collaborators whose code is not part of
    [Connection.ts] are either external interfaces (team, cryptography),
    gathered in the class [Externals], or modelled from the specification and
    marked as such. *)

From stdpp Require Import gmap strings list.
From Stdlib Require Import ZArith Lia Ascii.

Open Scope Z_scope.

(** ** Data carried by messages and by the context *)

Inductive KeyType := MEMBER | DEVICE.

(** [invitee] and [identityClaim] are both [{ type, name }] objects. *)
Module Invitee.
Record t := make { type : KeyType; name : string }.
End Invitee.

Module ProofOfInvitation.
Record t := make { invitee : Invitee.t; signature : string }.
End ProofOfInvitation.

Module Challenge.
Record t := make { claim : option Invitee.t; nonce : string }.
End Challenge.

Module ErrorPayload.
Record t := make { message : string; details : option string }.
End ErrorPayload.

Module HelloPayload.
Record t := make {
  identityClaim : option Invitee.t;
  proofOfInvitation : option ProofOfInvitation.t }.
End HelloPayload.

(** The tagged union [ConnectionMessage] of [@/connection/message]. *)
Inductive ConnectionMessage :=
  | READY
  | HELLO (payload : HelloPayload.t)
  | ACCEPT_INVITATION (chain : string)
  | CHALLENGE_IDENTITY (challenge : Challenge.t)
  | PROVE_IDENTITY (challenge : Challenge.t) (proof : string)
  | ACCEPT_IDENTITY
  | UPDATE (root head : string) (hashes : list string)
  | MISSING_LINKS (head : string) (links : list string)
  | LOCAL_UPDATE (head : string)
  | SEED (encryptedSeed : string)
  | ENCRYPTED_MESSAGE (payload : string)
  | DISCONNECT
  | ERROR (payload : ErrorPayload.t)
  | RECONNECT.

(** [NumberedConnectionMessage]: [{ ...message, index }]. *)
Record NumberedConnectionMessage := numbered {
  index : Z;
  message : ConnectionMessage }.

(** ** Ordered delivery *)

(** Modelled from the spec: the function [orderedDelivery] of
    [@/connection/orderedDelivery], which [Connection.deliver] calls and whose
    file is not among the sources.  The spec (4.A): a mapping from integer
    index to pending inbound messages and a cursor [nextExpected] initialised
    to 0; a message below the cursor is dropped, a message above it is stored
    in the mapping, a message at the cursor is produced, the cursor advances
    and the contiguous stored messages are drained.  A pure function from
    (buffer, incoming) to (new buffer, ready list). *)
Record Buffer := {
  pending : gmap Z NumberedConnectionMessage;
  nextExpected : Z }.

Definition emptyQueue : Buffer := {| pending := ∅; nextExpected := 0 |}.

(** Draining removes one stored message per step, so the number of stored
    messages bounds the number of steps. *)
Fixpoint drain (steps : nat) (p : gmap Z NumberedConnectionMessage) (next : Z)
  : Buffer * list NumberedConnectionMessage :=
  match steps with
  | O => ({| pending := p; nextExpected := next |}, [])
  | S steps' =>
      match p !! next with
      | None => ({| pending := p; nextExpected := next |}, [])
      | Some m =>
          let r := drain steps' (delete next p) (next + 1) in
          (r.1, m :: r.2)
      end
  end.

Definition orderedDelivery (queue : Buffer) (incoming : NumberedConnectionMessage)
  : Buffer * list NumberedConnectionMessage :=
  let i := index incoming in
  if i <? nextExpected queue then (queue, [])
  else if nextExpected queue <? i then
    ({| pending := <[i := incoming]> (pending queue);
        nextExpected := nextExpected queue |}, [])
  else
    let r := drain (size (pending queue)) (pending queue) (nextExpected queue + 1) in
    (r.1, incoming :: r.2).

(** Feeding a whole arrival sequence through the buffer: the final buffer and
    everything released, in release order. *)
Fixpoint deliverAll (queue : Buffer) (arrivals : list NumberedConnectionMessage)
  : Buffer * list NumberedConnectionMessage :=
  match arrivals with
  | [] => (queue, [])
  | m :: rest =>
      let r := orderedDelivery queue m in
      let r' := deliverAll r.1 rest in
      (r'.1, r.2 ++ r'.2)
  end.

(** The buffer invariant: stored messages sit strictly above the cursor, under
    their own index. *)
Definition buffer_ok (b : Buffer) : Prop :=
  ∀ i m, pending b !! i = Some m → nextExpected b < i ∧ index m = i.

(** The invariant of a buffer that has seen the arrivals [seen]: every
    arrival is either below the cursor or stored, and everything stored has
    arrived. *)
Definition buffer_inv (seen : list NumberedConnectionMessage) (b : Buffer) : Prop :=
  buffer_ok b
  ∧ (∀ m, m ∈ seen → index m < nextExpected b ∨ is_Some (pending b !! index m))
  ∧ (∀ i x, pending b !! i = Some x → x ∈ seen).


(** ** Identities, keys and results of team lookups *)

Module KeyPair.
Record t := make { publicKey : string; secretKey : string }.
End KeyPair.

Module KeysetWithSecrets.
Record t := make { encryption : KeyPair.t; signature : KeyPair.t }.
End KeysetWithSecrets.

Module PublicKeyset.
Record t := make { encryption : string; signature : string }.
End PublicKeyset.

Module User.
Record t := make { userName : string; keys : KeysetWithSecrets.t }.
End User.

Module Device.
Record t := make { userName : string; deviceName : string; keys : KeysetWithSecrets.t }.
End Device.

Module Member.
Record t := make { userName : string; keys : PublicKeyset.t }.
End Member.

Inductive IdentityLookupResult :=
  | MEMBER_UNKNOWN | MEMBER_REMOVED | DEVICE_UNKNOWN | DEVICE_REMOVED | VALID_DEVICE.

Module ValidationResult.
Record t := make { isValid : bool; error : option ErrorPayload.t }.
End ValidationResult.

(** ** External collaborators

    What [Connection.ts] imports from outside the connection protocol: the
    team (signature chain), devices, invitations, identity proofs, key
    generation, the crypto primitives and [JSON.parse].  A call that can throw
    returns an [option], [None] standing for the exception.  The two sources
    of randomness, [randomKey] and the nonce of an identity challenge, draw
    from [randomKey n] with [n] the number of draws made so far. *)
Class Externals := {
  Team : Type;
  (* @/device *)
  getDeviceId : Device.t → string;
  parseDeviceId : string → string * string;
  (* @/invitation *)
  generateStarterKeys : Invitee.t → option string → KeysetWithSecrets.t;
  generateProof : string → Invitee.t → ProofOfInvitation.t;
  (* @/connection/identity *)
  identity_prove : Challenge.t → KeysetWithSecrets.t → string;
  (* @/keyset *)
  randomKey : nat → string;
  (* @herbcaudill/crypto *)
  asymmetric_encrypt : string → string → string → string;
  asymmetric_decrypt : string → string → string → option string;
  symmetric_encrypt : string → string → string;
  symmetric_decrypt : string → string → option string;
  hash : string → string;
  (* JSON *)
  JSON_parse : string → option NumberedConnectionMessage;
  (* @/team *)
  Team_new : string → option User.t → Device.t → Team;
  team_admit : Team → ProofOfInvitation.t → option Team;
  team_save : Team → string;
  team_join : Team → ProofOfInvitation.t → option string → Team * User.t * Device.t;
  team_validateInvitation : Team → ProofOfInvitation.t → ValidationResult.t;
  team_hasInvitation : Team → ProofOfInvitation.t → bool;
  team_lookupIdentity : Team → Invitee.t → IdentityLookupResult;
  team_verifyIdentityProof : Team → Challenge.t → string → bool;
  team_has : Team → string → bool;
  team_members : Team → string → Member.t;
  team_getMissingLinks : Team → string → string → list string → list string;
  team_receiveMissingLinks : Team → string → list string → Team;
  team_chain_root : Team → string;
  team_chain_head : Team → string;
  team_chain_hashes : Team → list string }.

(** ** Session key derivation *)

(** Modelled from the spec: the function [deriveSharedKey] of
    [@/connection/deriveSharedKey], which the action of the same name calls and
    whose file is not among the sources.  The spec (4.D): from two seeds derive
    the session key with a key-derivation function that is symmetric in its
    arguments, the hash of the sorted concatenation. *)
Definition deriveSharedKey `{Externals} (a b : string) : string :=
  hash (if String.leb a b then String.append a b else String.append b a).

(** ** The connection context *)

Module Context.
Section WithExternals.
Context `{Externals}.

Record t := make {
  user : option User.t;
  device : Device.t;
  team : option Team;
  invitee : option Invitee.t;
  invitationSeed : option string;
  theirIdentityClaim : option Invitee.t;
  theyHaveInvitation : option bool;
  theirProofOfInvitation : option ProofOfInvitation.t;
  peer : option Member.t;
  challenge : option Challenge.t;
  seed : option string;
  theirEncryptedSeed : option string;
  sessionKey : option string;
  theirHead : option string;
  error : option ErrorPayload.t }.

(** Field updates, one per field the connection writes. *)
Definition with_user (v : option User.t) (c : t) : t :=
  {| user := v; device := device c; team := team c; invitee := invitee c;
     invitationSeed := invitationSeed c; theirIdentityClaim := theirIdentityClaim c;
     theyHaveInvitation := theyHaveInvitation c;
     theirProofOfInvitation := theirProofOfInvitation c; peer := peer c;
     challenge := challenge c; seed := seed c; theirEncryptedSeed := theirEncryptedSeed c;
     sessionKey := sessionKey c; theirHead := theirHead c; error := error c |}.
Definition with_device (v : Device.t) (c : t) : t :=
  {| user := user c; device := v; team := team c; invitee := invitee c;
     invitationSeed := invitationSeed c; theirIdentityClaim := theirIdentityClaim c;
     theyHaveInvitation := theyHaveInvitation c;
     theirProofOfInvitation := theirProofOfInvitation c; peer := peer c;
     challenge := challenge c; seed := seed c; theirEncryptedSeed := theirEncryptedSeed c;
     sessionKey := sessionKey c; theirHead := theirHead c; error := error c |}.
Definition with_team (v : option Team) (c : t) : t :=
  {| user := user c; device := device c; team := v; invitee := invitee c;
     invitationSeed := invitationSeed c; theirIdentityClaim := theirIdentityClaim c;
     theyHaveInvitation := theyHaveInvitation c;
     theirProofOfInvitation := theirProofOfInvitation c; peer := peer c;
     challenge := challenge c; seed := seed c; theirEncryptedSeed := theirEncryptedSeed c;
     sessionKey := sessionKey c; theirHead := theirHead c; error := error c |}.
Definition with_theirIdentityClaim (v : option Invitee.t) (c : t) : t :=
  {| user := user c; device := device c; team := team c; invitee := invitee c;
     invitationSeed := invitationSeed c; theirIdentityClaim := v;
     theyHaveInvitation := theyHaveInvitation c;
     theirProofOfInvitation := theirProofOfInvitation c; peer := peer c;
     challenge := challenge c; seed := seed c; theirEncryptedSeed := theirEncryptedSeed c;
     sessionKey := sessionKey c; theirHead := theirHead c; error := error c |}.
Definition with_theyHaveInvitation (v : option bool) (c : t) : t :=
  {| user := user c; device := device c; team := team c; invitee := invitee c;
     invitationSeed := invitationSeed c; theirIdentityClaim := theirIdentityClaim c;
     theyHaveInvitation := v; theirProofOfInvitation := theirProofOfInvitation c;
     peer := peer c; challenge := challenge c; seed := seed c;
     theirEncryptedSeed := theirEncryptedSeed c; sessionKey := sessionKey c;
     theirHead := theirHead c; error := error c |}.
Definition with_theirProofOfInvitation (v : option ProofOfInvitation.t) (c : t) : t :=
  {| user := user c; device := device c; team := team c; invitee := invitee c;
     invitationSeed := invitationSeed c; theirIdentityClaim := theirIdentityClaim c;
     theyHaveInvitation := theyHaveInvitation c; theirProofOfInvitation := v;
     peer := peer c; challenge := challenge c; seed := seed c;
     theirEncryptedSeed := theirEncryptedSeed c; sessionKey := sessionKey c;
     theirHead := theirHead c; error := error c |}.
Definition with_peer (v : option Member.t) (c : t) : t :=
  {| user := user c; device := device c; team := team c; invitee := invitee c;
     invitationSeed := invitationSeed c; theirIdentityClaim := theirIdentityClaim c;
     theyHaveInvitation := theyHaveInvitation c;
     theirProofOfInvitation := theirProofOfInvitation c; peer := v;
     challenge := challenge c; seed := seed c; theirEncryptedSeed := theirEncryptedSeed c;
     sessionKey := sessionKey c; theirHead := theirHead c; error := error c |}.
Definition with_challenge (v : option Challenge.t) (c : t) : t :=
  {| user := user c; device := device c; team := team c; invitee := invitee c;
     invitationSeed := invitationSeed c; theirIdentityClaim := theirIdentityClaim c;
     theyHaveInvitation := theyHaveInvitation c;
     theirProofOfInvitation := theirProofOfInvitation c; peer := peer c; challenge := v;
     seed := seed c; theirEncryptedSeed := theirEncryptedSeed c;
     sessionKey := sessionKey c; theirHead := theirHead c; error := error c |}.
Definition with_seed (v : option string) (c : t) : t :=
  {| user := user c; device := device c; team := team c; invitee := invitee c;
     invitationSeed := invitationSeed c; theirIdentityClaim := theirIdentityClaim c;
     theyHaveInvitation := theyHaveInvitation c;
     theirProofOfInvitation := theirProofOfInvitation c; peer := peer c;
     challenge := challenge c; seed := v; theirEncryptedSeed := theirEncryptedSeed c;
     sessionKey := sessionKey c; theirHead := theirHead c; error := error c |}.
Definition with_theirEncryptedSeed (v : option string) (c : t) : t :=
  {| user := user c; device := device c; team := team c; invitee := invitee c;
     invitationSeed := invitationSeed c; theirIdentityClaim := theirIdentityClaim c;
     theyHaveInvitation := theyHaveInvitation c;
     theirProofOfInvitation := theirProofOfInvitation c; peer := peer c;
     challenge := challenge c; seed := seed c; theirEncryptedSeed := v;
     sessionKey := sessionKey c; theirHead := theirHead c; error := error c |}.
Definition with_sessionKey (v : option string) (c : t) : t :=
  {| user := user c; device := device c; team := team c; invitee := invitee c;
     invitationSeed := invitationSeed c; theirIdentityClaim := theirIdentityClaim c;
     theyHaveInvitation := theyHaveInvitation c;
     theirProofOfInvitation := theirProofOfInvitation c; peer := peer c;
     challenge := challenge c; seed := seed c; theirEncryptedSeed := theirEncryptedSeed c;
     sessionKey := v; theirHead := theirHead c; error := error c |}.
Definition with_theirHead (v : option string) (c : t) : t :=
  {| user := user c; device := device c; team := team c; invitee := invitee c;
     invitationSeed := invitationSeed c; theirIdentityClaim := theirIdentityClaim c;
     theyHaveInvitation := theyHaveInvitation c;
     theirProofOfInvitation := theirProofOfInvitation c; peer := peer c;
     challenge := challenge c; seed := seed c; theirEncryptedSeed := theirEncryptedSeed c;
     sessionKey := sessionKey c; theirHead := v; error := error c |}.
Definition with_error (v : option ErrorPayload.t) (c : t) : t :=
  {| user := user c; device := device c; team := team c; invitee := invitee c;
     invitationSeed := invitationSeed c; theirIdentityClaim := theirIdentityClaim c;
     theyHaveInvitation := theyHaveInvitation c;
     theirProofOfInvitation := theirProofOfInvitation c; peer := peer c;
     challenge := challenge c; seed := seed c; theirEncryptedSeed := theirEncryptedSeed c;
     sessionKey := sessionKey c; theirHead := theirHead c; error := v |}.
End WithExternals.
End Context.

(** [InitialContext]: what the caller of the constructor supplies.  The
    fields the protocol fills in later are not part of this type. *)
Module InitialContext.
Section WithExternals.
Context `{Externals}.

Record t := make {
  user : option User.t;
  device : Device.t;
  team : option Team;
  invitee : option Invitee.t;
  invitationSeed : option string }.

Definition toContext (i : t) : Context.t :=
  {| Context.user := user i; Context.device := device i; Context.team := team i;
     Context.invitee := invitee i; Context.invitationSeed := invitationSeed i;
     Context.theirIdentityClaim := None; Context.theyHaveInvitation := None;
     Context.theirProofOfInvitation := None; Context.peer := None;
     Context.challenge := None; Context.seed := None;
     Context.theirEncryptedSeed := None; Context.sessionKey := None;
     Context.theirHead := None; Context.error := None |}.

Definition ofContext (c : Context.t) : t :=
  {| user := Context.user c; device := Context.device c; team := Context.team c;
     invitee := Context.invitee c; invitationSeed := Context.invitationSeed c |}.
End WithExternals.
End InitialContext.

(** ** The protocol machine: states and events *)

(** Modelled from the spec: the state space of [protocolMachine], whose file
    is not among the sources (4.E).  [connecting] is a parallel state with the
    regions [invitation] and [authenticating].  The spec gives the state
    [challengingIdentity] two handlers that progress independently
    (CHALLENGE_IDENTITY leads to [awaitingIdentityAcceptance], PROVE_IDENTITY
    to [accepted]) and leaves [connecting] "when both sides accepted"; the
    region therefore records, next to each other, how far the proof of our
    identity and the proof of their identity have come.  The spec lists
    [disconnected] twice, as the initial state that waits for READY and as a
    terminal state; the flag tells the two apart. *)
Inductive InvitationState := initializing | waiting | validating | doingNothing | success.

Inductive OurIdentity := unchallenged | awaitingIdentityAcceptance | acceptedByPeer.

Inductive TheirIdentity := unproved | accepted.

Inductive AuthenticatingState :=
  | claimingIdentity
  | challengingIdentity (ours : OurIdentity) (theirs : TheirIdentity).

Inductive ProtocolState :=
  | disconnected (terminal : bool)
  | connecting (invitation : InvitationState) (authenticating : AuthenticatingState)
  | synchronizing
  | negotiating
  | connected
  | failure.

Definition isFinal (s : ProtocolState) : bool :=
  match s with
  | failure | disconnected true => true
  | _ => false
  end.

(** The state value as the [state] getter shows it: a string for an atomic
    state, an object keyed by region for the parallel one. *)
Inductive StateValue :=
  | atomic (name : string)
  | regions (invitation : InvitationState) (authenticating : AuthenticatingState).

Definition stateValue (s : ProtocolState) : StateValue :=
  match s with
  | disconnected _ => atomic "disconnected"
  | connecting i a => regions i a
  | synchronizing => atomic "synchronizing"
  | negotiating => atomic "negotiating"
  | connected => atomic "connected"
  | failure => atomic "failure"
  end.

(** What [machine.send] is given: a numbered message handed over by [deliver],
    an unnumbered message the connection sends to its own machine (DISCONNECT,
    ERROR, LOCAL_UPDATE, RECONNECT), or the expiry of a delay, the one event
    that is not a message. *)
Inductive Event :=
  | fromPeer (m : NumberedConnectionMessage)
  | fromSelf (m : ConnectionMessage)
  | delay.

Definition eventMessage (e : Event) : option ConnectionMessage :=
  match e with
  | fromPeer m => Some (message m)
  | fromSelf m => Some m
  | delay => None
  end.

(** XState's [State]: the state value, the context and the [done] flag. *)
Module State.
Section WithExternals.
Context `{Externals}.
Record t := make { value : ProtocolState; context : Context.t; done : bool }.
End WithExternals.
End State.

(** XState's [Interpreter]: its status, its current state, and the events
    scheduled while it is busy with another one. *)
Inductive InterpreterStatus := NotStarted | Running | Stopped.

Module Interpreter.
Section WithExternals.
Context `{Externals}.
Record t := make { status : InterpreterStatus; state : State.t; queue : list Event }.
End WithExternals.
End Interpreter.

(** ** The connection *)

(** A method, getter or action either returns or throws. *)
Inductive Result (A : Type) :=
  | Returned (a : A)
  | Threw (e : string).
Arguments Returned {A} a.
Arguments Threw {A} e.

Section Connection.
Context `{Externals}.

(** What the connection hands to its listeners through [emit]. *)
Inductive Emission :=
  | emit_connected
  | emit_joined (team : option Team)
  | emit_updated
  | emit_disconnected (event : Event)
  | emit_message (payload : string).

(** The fields of the class, then the part of the world the connection
    writes to: the messages passed to the host's [sendMessage] ([sent]), the
    calls of [emit] ([emitted]), the number of listeners attached to the
    connection and to the team, the events handed to [machine.send]
    ([machineEvents], oldest first) and the number of random draws made.
    Logging and the [change] notification of [onTransition] are left out. *)
Record Connection := {
  peerUserName : option string;
  machine : Interpreter.t;
  incomingMessageQueue : Buffer;
  outgoingMessageIndex : Z;
  started : bool;
  sent : list NumberedConnectionMessage;
  emitted : list Emission;
  listeners : nat;
  machineEvents : list Event;
  teamListeners : nat;
  randomDraws : nat }.

Definition set_peerUserName (v : option string) (c : Connection) : Connection :=
  {| peerUserName := v; machine := machine c; incomingMessageQueue := incomingMessageQueue c;
     outgoingMessageIndex := outgoingMessageIndex c; started := started c; sent := sent c;
     emitted := emitted c; listeners := listeners c; machineEvents := machineEvents c;
     teamListeners := teamListeners c; randomDraws := randomDraws c |}.
Definition set_machine (v : Interpreter.t) (c : Connection) : Connection :=
  {| peerUserName := peerUserName c; machine := v;
     incomingMessageQueue := incomingMessageQueue c;
     outgoingMessageIndex := outgoingMessageIndex c; started := started c; sent := sent c;
     emitted := emitted c; listeners := listeners c; machineEvents := machineEvents c;
     teamListeners := teamListeners c; randomDraws := randomDraws c |}.
Definition set_incomingMessageQueue (v : Buffer) (c : Connection) : Connection :=
  {| peerUserName := peerUserName c; machine := machine c; incomingMessageQueue := v;
     outgoingMessageIndex := outgoingMessageIndex c; started := started c; sent := sent c;
     emitted := emitted c; listeners := listeners c; machineEvents := machineEvents c;
     teamListeners := teamListeners c; randomDraws := randomDraws c |}.
Definition set_outgoingMessageIndex (v : Z) (c : Connection) : Connection :=
  {| peerUserName := peerUserName c; machine := machine c;
     incomingMessageQueue := incomingMessageQueue c; outgoingMessageIndex := v;
     started := started c; sent := sent c; emitted := emitted c; listeners := listeners c;
     machineEvents := machineEvents c; teamListeners := teamListeners c;
     randomDraws := randomDraws c |}.
Definition set_started (v : bool) (c : Connection) : Connection :=
  {| peerUserName := peerUserName c; machine := machine c;
     incomingMessageQueue := incomingMessageQueue c;
     outgoingMessageIndex := outgoingMessageIndex c; started := v; sent := sent c;
     emitted := emitted c; listeners := listeners c; machineEvents := machineEvents c;
     teamListeners := teamListeners c; randomDraws := randomDraws c |}.
Definition set_sent (v : list NumberedConnectionMessage) (c : Connection) : Connection :=
  {| peerUserName := peerUserName c; machine := machine c;
     incomingMessageQueue := incomingMessageQueue c;
     outgoingMessageIndex := outgoingMessageIndex c; started := started c; sent := v;
     emitted := emitted c; listeners := listeners c; machineEvents := machineEvents c;
     teamListeners := teamListeners c; randomDraws := randomDraws c |}.
Definition set_emitted (v : list Emission) (c : Connection) : Connection :=
  {| peerUserName := peerUserName c; machine := machine c;
     incomingMessageQueue := incomingMessageQueue c;
     outgoingMessageIndex := outgoingMessageIndex c; started := started c; sent := sent c;
     emitted := v; listeners := listeners c; machineEvents := machineEvents c;
     teamListeners := teamListeners c; randomDraws := randomDraws c |}.
Definition set_listeners (v : nat) (c : Connection) : Connection :=
  {| peerUserName := peerUserName c; machine := machine c;
     incomingMessageQueue := incomingMessageQueue c;
     outgoingMessageIndex := outgoingMessageIndex c; started := started c; sent := sent c;
     emitted := emitted c; listeners := v; machineEvents := machineEvents c;
     teamListeners := teamListeners c; randomDraws := randomDraws c |}.
Definition set_machineEvents (v : list Event) (c : Connection) : Connection :=
  {| peerUserName := peerUserName c; machine := machine c;
     incomingMessageQueue := incomingMessageQueue c;
     outgoingMessageIndex := outgoingMessageIndex c; started := started c; sent := sent c;
     emitted := emitted c; listeners := listeners c; machineEvents := v;
     teamListeners := teamListeners c; randomDraws := randomDraws c |}.
Definition set_teamListeners (v : nat) (c : Connection) : Connection :=
  {| peerUserName := peerUserName c; machine := machine c;
     incomingMessageQueue := incomingMessageQueue c;
     outgoingMessageIndex := outgoingMessageIndex c; started := started c; sent := sent c;
     emitted := emitted c; listeners := listeners c; machineEvents := machineEvents c;
     teamListeners := v; randomDraws := randomDraws c |}.
Definition set_randomDraws (v : nat) (c : Connection) : Connection :=
  {| peerUserName := peerUserName c; machine := machine c;
     incomingMessageQueue := incomingMessageQueue c;
     outgoingMessageIndex := outgoingMessageIndex c; started := started c; sent := sent c;
     emitted := emitted c; listeners := listeners c; machineEvents := machineEvents c;
     teamListeners := teamListeners c; randomDraws := v |}.

Definition set_state (s : State.t) (c : Connection) : Connection :=
  set_machine {| Interpreter.status := Interpreter.status (machine c);
                 Interpreter.state := s;
                 Interpreter.queue := Interpreter.queue (machine c) |} c.

Definition set_status (s : InterpreterStatus) (c : Connection) : Connection :=
  set_machine {| Interpreter.status := s;
                 Interpreter.state := Interpreter.state (machine c);
                 Interpreter.queue := Interpreter.queue (machine c) |} c.

Definition set_queue (q : list Event) (c : Connection) : Connection :=
  set_machine {| Interpreter.status := Interpreter.status (machine c);
                 Interpreter.state := Interpreter.state (machine c);
                 Interpreter.queue := q |} c.

Definition machineState (c : Connection) : State.t := Interpreter.state (machine c).

Definition set_context (ctx : Context.t) (c : Connection) : Connection :=
  set_state {| State.value := State.value (machineState c);
               State.context := ctx;
               State.done := State.done (machineState c) |} c.

Definition set_value (v : ProtocolState) (c : Connection) : Connection :=
  set_state {| State.value := v;
               State.context := State.context (machineState c);
               State.done := State.done (machineState c) |} c.

Definition set_done (d : bool) (c : Connection) : Connection :=
  set_state {| State.value := State.value (machineState c);
               State.context := State.context (machineState c);
               State.done := d |} c.

(** *** Computations on a connection

    A method or action runs on the connection, may change it, and either
    returns or throws; what it changed before throwing stays changed. *)
Definition M (A : Type) : Type := Connection → Result A * Connection.

Definition ret {A} (a : A) : M A := λ c, (Returned a, c).

Definition bind {A B} (m : M A) (k : A → M B) : M B :=
  λ c, match m c with
       | (Returned a, c') => k a c'
       | (Threw e, c') => (Threw e, c')
       end.

Definition throw {A} (e : string) : M A := λ c, (Threw e, c).

Definition gets {A} (f : Connection → A) : M A := λ c, (Returned (f c), c).

Definition modify (f : Connection → Connection) : M unit := λ c, (Returned tt, f c).

(** [try { m } catch { }]: the exception is dropped. *)
Definition ignoreThrow (m : M unit) : M unit :=
  λ c, (Returned tt, (m c).2).
End Connection.

Declare Scope conn_scope.
Delimit Scope conn_scope with conn.
Notation "x ← m ; k" := (bind m (λ x, k))
  (at level 20, m at level 100, k at level 200, only parsing) : conn_scope.
Notation "m ;; k" := (bind m (λ _, k))
  (at level 100, k at level 200, only parsing, right associativity) : conn_scope.
Open Scope conn_scope.

(** The names under which the machine configuration refers to the actions. *)
Module Action.
Inductive t :=
  | sendHello | receiveHello
  | acceptInvitation | joinTeam
  | confirmIdentityExists | challengeIdentity | proveIdentity | storePeer | acceptIdentity
  | sendUpdate | recordTheirHead | sendMissingLinks | receiveMissingLinks
  | listenForTeamUpdates
  | generateSeed | sendSeed | receiveSeed | deriveSharedKey
  | receiveEncryptedMessage
  | receiveError | rejectIdentityProof | failNeitherIsMember | rejectInvitation
  | rejectTeam | failPeerWasRemoved | failTimeout
  | onConnected | onJoined | onUpdated | onDisconnected.

#[export] Instance eq_dec : EqDecision t.
Proof. solve_decision. Defined.
End Action.

Section Helpers.
Context `{Externals}.

(** Modelled from the spec: the type guard [hasInvitee] of
    [@/connection/types], not among the sources.  The spec (3): [invitee] is
    present iff this side is joining via invitation. *)
Definition hasInvitee (context : Context.t) : bool :=
  match Context.invitee context with Some _ => true | None => false end.

Definition isMember (context : Context.t) : bool :=
  match Context.team context with Some _ => true | None => false end.

(** Modelled from the spec: [challenge] of [@/connection/identity], not among
    the sources.  The spec (4.C): [challenge(claim)] is [{claim, nonce}] with
    a random nonce. *)
Definition identity_challenge (claim : option Invitee.t) (nonce : string) : Challenge.t :=
  Challenge.make claim nonce.
End Helpers.

(** ** The class [Connection] *)

Module Connection.

Section Members.
Context `{Externals}.

(** The context object the machine holds, as actions and guards receive it. *)
Definition getContext : M Context.t := gets (λ c, State.context (machineState c)).

Definition modifyContext (f : Context.t → Context.t) : M unit :=
  modify (λ c, set_context (f (State.context (machineState c))) c).

Definition assert {A} (o : option A) : M A :=
  match o with
  | Some a => ret a
  | None => throw "Assertion failed"
  end.

Definition emit (e : Emission) : M unit := modify (λ c, set_emitted (emitted c ++ [e]) c).

Definition drawRandomKey : M string :=
  n ← gets randomDraws;
  modify (set_randomDraws (S n));;
  ret (randomKey n).

(** *** Getters *)

Definition context : M Context.t :=
  started ← gets started;
  if negb started then throw "Can't get context; machine not started"
  else gets (λ c, State.context (machineState c)).

Definition userName : M string :=
  started ← gets started;
  if negb started then ret "(not started)"
  else
    context ← context;
    match Context.user context with
    | Some user => ret (User.userName user)
    | None =>
        match Context.invitee context with
        | Some invitee => ret (Invitee.name invitee)
        | None => ret "unknown"
        end
    end.

Definition state : M StateValue :=
  started ← gets started;
  if negb started then ret (atomic "disconnected")
  else gets (λ c, stateValue (State.value (machineState c))).

Definition user : M (option User.t) := context ← context; ret (Context.user context).

Definition error : M (option ErrorPayload.t) := context ← context; ret (Context.error context).

Definition team : M (option Team) := context ← context; ret (Context.team context).

Definition sessionKey : M (option string) := context ← context; ret (Context.sessionKey context).

Definition peerName : M string :=
  started ← gets started;
  if negb started then ret "(not started)"
  else
    peerUserName ← gets peerUserName;
    match peerUserName with
    | Some name => ret name
    | None =>
        context ← context;
        match Context.peer context with
        | Some peer => ret (Member.userName peer)
        | None =>
            match Context.theirIdentityClaim context with
            | Some claim => ret (Invitee.name claim)
            | None =>
                match Context.theirProofOfInvitation context with
                | Some proof => ret (Invitee.name (ProofOfInvitation.invitee proof))
                | None => ret "?"
                end
            end
        end
    end.

(** *** Sending *)

(** [this.sendMessage]: number the message and pass it to the host. *)
Definition sendMessage (message : ConnectionMessage) : M unit :=
  index ← gets outgoingMessageIndex;
  modify (set_outgoingMessageIndex (index + 1));;
  modify (λ c, set_sent (sent c ++ [numbered index message]) c).

(** [this.machine.send] called from inside an action: the interpreter is busy
    with the current event, so the new one is scheduled behind it. *)
Definition scheduleEvent (e : Event) : M unit :=
  modify (λ c, set_machineEvents (machineEvents c ++ [e]) c);;
  modify (λ c, set_queue (Interpreter.queue (machine c) ++ [e]) c).

Definition createError (message : M string) (details : option string) : M ErrorPayload.t :=
  text ← message;
  let errorPayload := ErrorPayload.make text details in
  let errorMessage := ERROR errorPayload in
  scheduleEvent (fromSelf errorMessage);;
  sendMessage errorMessage;;
  ret errorPayload.

(** An action is either an [assign], which XState evaluates while it
    computes the next state, or a function it executes once that state is in
    place. *)
Inductive StateMachineAction :=
  | assign (update : Event → M unit)
  | exec (run : Event → M unit).

Definition fail (message : M string) (details : option string) : StateMachineAction :=
  assign (λ _,
    error ← createError message details;
    modifyContext (Context.with_error (Some error))).

(** *** Helpers *)

Definition myProofOfInvitation (context : Context.t) : M ProofOfInvitation.t :=
  invitationSeed ← assert (Context.invitationSeed context);
  invitee ← assert (Context.invitee context);
  ret (generateProof invitationSeed invitee).

(** [(event as AcceptInvitationMessage).payload.chain] and its like: reading
    the payload of an event that has none throws. *)
Definition chainOf (event : Event) : M string :=
  match eventMessage event with
  | Some (ACCEPT_INVITATION chain) => ret chain
  | _ => throw "TypeError"
  end.

Definition helloPayload (event : Event) : M HelloPayload.t :=
  match eventMessage event with
  | Some (HELLO payload) => ret payload
  | _ => throw "TypeError"
  end.

Definition rehydrateTeam (context : Context.t) (event : Event) : M Team :=
  chain ← chainOf event;
  ret (Team_new chain (Context.user context) (Context.device context)).
End Members.

(** ** Guards

    [this.guards]; a guard reads the context the machine holds, and may throw
    (a failed [assert]) or write to the context ([invitationProofIsValid]). *)
Module guards.
Section WithExternals.
Context `{Externals}.

Definition iHaveInvitation (event : Event) : M bool :=
  context ← getContext;
  ret (hasInvitee context && negb (isMember context)).

Definition theyHaveInvitation (event : Event) : M bool :=
  context ← getContext;
  ret (match Context.theyHaveInvitation context with Some true => true | _ => false end).

Definition bothHaveInvitation (event : Event) : M bool :=
  mine ← iHaveInvitation event;
  if mine then theyHaveInvitation event else ret false.

Definition invitationProofIsValid (event : Event) : M bool :=
  context ← getContext;
  team ← assert (Context.team context);
  proof ← assert (Context.theirProofOfInvitation context);
  let validation := team_validateInvitation team proof in
  if ValidationResult.isValid validation then ret true
  else
    _ ← Connection.context;
    modifyContext (Context.with_error (ValidationResult.error validation));;
    ret false.

Definition joinedTheRightTeam (event : Event) : M bool :=
  context ← getContext;
  team ← rehydrateTeam context event;
  proof ← myProofOfInvitation context;
  ret (team_hasInvitation team proof).

Definition peerWasRemoved (event : Event) : M bool :=
  context ← getContext;
  team ← assert (Context.team context);
  peer ← assert (Context.peer context);
  ret (negb (team_has team (Member.userName peer))).

Definition identityProofIsValid (event : Event) : M bool :=
  context ← getContext;
  team ← assert (Context.team context);
  match eventMessage event with
  | Some (PROVE_IDENTITY challenge proof) =>
      ret (team_verifyIdentityProof team challenge proof)
  | _ => throw "TypeError"
  end.

Definition headsAreEqual (event : Event) : M bool :=
  context ← getContext;
  team ← assert (Context.team context);
  let theirHead :=
    match eventMessage event with
    | Some (UPDATE _ head _) => Some head
    | Some (MISSING_LINKS head _) => Some head
    | _ => Context.theirHead context
    end in
  let ourHead := team_chain_head team in
  ret (bool_decide (Some ourHead = theirHead)).

Definition headsAreDifferent (event : Event) : M bool :=
  equal ← headsAreEqual event;
  ret (negb equal).

Definition dontHaveSessionkey (event : Event) : M bool :=
  context ← getContext;
  ret (match Context.sessionKey context with None => true | Some _ => false end).
End WithExternals.
End guards.

(** ** Actions

    [this.actions], in the order of the source. *)
Module actions.
Section WithExternals.
Context `{Externals}.

(* initializing *)

(** [sendHello] is an [async] function: what it throws rejects the promise
    it returns, which nobody awaits. *)
Definition sendHello : StateMachineAction :=
  exec (λ _, ignoreThrow (
    context ← getContext;
    proofOfInvitation ←
      (if hasInvitee context then
         team ← Connection.team;
         match team with
         | None => proof ← myProofOfInvitation context; ret (Some proof)
         | Some _ => ret None
         end
       else ret None);
    sendMessage (HELLO {|
      HelloPayload.identityClaim :=
        Some (Invitee.make DEVICE (getDeviceId (Context.device context)));
      HelloPayload.proofOfInvitation := proofOfInvitation |}))).

Definition receiveHello : StateMachineAction :=
  assign (λ event,
    payload ← helloPayload event;
    let theirIdentityClaim := HelloPayload.identityClaim payload in
    let theyHaveInvitation :=
      match HelloPayload.proofOfInvitation payload with
      | Some _ => true
      | None => false
      end in
    let theirProofOfInvitation := HelloPayload.proofOfInvitation payload in
    modifyContext (λ context,
      Context.with_theirProofOfInvitation theirProofOfInvitation
        (Context.with_theyHaveInvitation (Some theyHaveInvitation)
           (Context.with_theirIdentityClaim theirIdentityClaim context)))).

(* handling invitations *)

Definition acceptInvitation : StateMachineAction :=
  exec (λ _,
    context ← getContext;
    team ← assert (Context.team context);
    proof ← assert (Context.theirProofOfInvitation context);
    match team_admit team proof with
    | None => throw "admit"
    | Some team =>
        modifyContext (Context.with_team (Some team));;
        sendMessage (ACCEPT_INVITATION (team_save team))
    end).

Definition joinTeam : StateMachineAction :=
  exec (λ event,
    context ← getContext;
    team ← rehydrateTeam context event;
    proof ← myProofOfInvitation context;
    this_context ← Connection.context;
    let '(team, user, device) :=
      team_join team proof (Context.invitationSeed this_context) in
    modifyContext (Context.with_user (Some user));;
    modifyContext (Context.with_device device);;
    modifyContext (Context.with_team (Some team))).

(* authenticating *)

Definition confirmIdentityExists : StateMachineAction :=
  exec (λ event,
    context ← getContext;
    match Context.team context with
    | None => ret tt
    | Some team =>
        payload ← helloPayload event;
        match HelloPayload.identityClaim payload with
        | None => ret tt
        | Some identityClaim =>
            let deviceId := Invitee.name identityClaim in
            let '(userName, deviceName) := parseDeviceId deviceId in
            let fail (msg : string) : M unit :=
              error ← createError (ret msg) None;
              modifyContext (Context.with_error (Some error)) in
            match team_lookupIdentity team identityClaim with
            | MEMBER_UNKNOWN => fail (userName +:+ " is not a member of this team.")
            | MEMBER_REMOVED => fail (userName +:+ " was removed from this team.")
            | DEVICE_UNKNOWN =>
                fail (userName +:+ " does not have a device '" +:+ deviceName +:+ "'.")
            | DEVICE_REMOVED =>
                fail (userName +:+ "'s device '" +:+ deviceName +:+ "' was removed.")
            | VALID_DEVICE => ret tt
            end
        end
    end).

Definition challengeIdentity : StateMachineAction :=
  assign (λ _,
    context ← getContext;
    let identityClaim := Context.theirIdentityClaim context in
    nonce ← drawRandomKey;
    let challenge := identity_challenge identityClaim nonce in
    sendMessage (CHALLENGE_IDENTITY challenge);;
    modifyContext (Context.with_challenge (Some challenge))).

Definition proveIdentity : StateMachineAction :=
  exec (λ event,
    context ← getContext;
    _ ← assert (Context.user context);
    match eventMessage event with
    | Some (CHALLENGE_IDENTITY challenge) =>
        let proof := identity_prove challenge (Device.keys (Context.device context)) in
        sendMessage (PROVE_IDENTITY challenge proof)
    | _ => throw "TypeError"
    end).

Definition storePeer : StateMachineAction :=
  assign (λ _,
    context ← getContext;
    team ← assert (Context.team context);
    theirIdentityClaim ← assert (Context.theirIdentityClaim context);
    let deviceId := Invitee.name theirIdentityClaim in
    let userName := (parseDeviceId deviceId).1 in
    modifyContext (Context.with_peer
      (if team_has team userName then Some (team_members team userName) else None))).

Definition acceptIdentity : StateMachineAction :=
  exec (λ _,
    context ← getContext;
    _ ← assert (Context.user context);
    sendMessage ACCEPT_IDENTITY).

(* updating *)

Definition sendUpdate : StateMachineAction :=
  exec (λ _,
    context ← getContext;
    team ← assert (Context.team context);
    sendMessage (UPDATE (team_chain_root team) (team_chain_head team) (team_chain_hashes team))).

Definition recordTheirHead : StateMachineAction :=
  assign (λ event,
    match eventMessage event with
    | Some (UPDATE _ head _) => modifyContext (Context.with_theirHead (Some head))
    | Some (MISSING_LINKS head _) => modifyContext (Context.with_theirHead (Some head))
    | _ => throw "TypeError"
    end).

Definition sendMissingLinks : StateMachineAction :=
  exec (λ event,
    context ← getContext;
    team ← assert (Context.team context);
    match eventMessage event with
    | Some (UPDATE root head hashes) =>
        let links := team_getMissingLinks team root head hashes in
        match links with
        | [] => ret tt
        | _ :: _ => sendMessage (MISSING_LINKS (team_chain_head team) links)
        end
    | _ => throw "TypeError"
    end).

Definition receiveMissingLinks : StateMachineAction :=
  assign (λ event,
    context ← getContext;
    team ← assert (Context.team context);
    match eventMessage event with
    | Some (MISSING_LINKS head links) =>
        modifyContext (Context.with_team (Some (team_receiveMissingLinks team head links)))
    | _ => throw "TypeError"
    end).

Definition listenForTeamUpdates : StateMachineAction :=
  exec (λ _,
    context ← getContext;
    _ ← assert (Context.team context);
    modify (λ c, set_teamListeners (S (teamListeners c)) c)).

(* negotiating *)

Definition generateSeed : StateMachineAction :=
  assign (λ _,
    seed ← drawRandomKey;
    modifyContext (Context.with_seed (Some seed))).

Definition sendSeed : StateMachineAction :=
  exec (λ _,
    context ← getContext;
    user ← assert (Context.user context);
    peer ← assert (Context.peer context);
    seed ← assert (Context.seed context);
    let recipientPublicKey := PublicKeyset.encryption (Member.keys peer) in
    let senderSecretKey :=
      KeyPair.secretKey (KeysetWithSecrets.encryption (User.keys user)) in
    let encryptedSeed := asymmetric_encrypt seed recipientPublicKey senderSecretKey in
    sendMessage (SEED encryptedSeed)).

Definition receiveSeed : StateMachineAction :=
  assign (λ event,
    match eventMessage event with
    | Some (SEED encryptedSeed) =>
        modifyContext (Context.with_theirEncryptedSeed (Some encryptedSeed))
    | _ => throw "TypeError"
    end).

Definition deriveSharedKey : StateMachineAction :=
  assign (λ _,
    context ← getContext;
    user ← assert (Context.user context);
    theirEncryptedSeed ← assert (Context.theirEncryptedSeed context);
    ourSeed ← assert (Context.seed context);
    peer ← assert (Context.peer context);
    let senderPublicKey := PublicKeyset.encryption (Member.keys peer) in
    let recipientSecretKey :=
      KeyPair.secretKey (KeysetWithSecrets.encryption (User.keys user)) in
    match asymmetric_decrypt theirEncryptedSeed senderPublicKey recipientSecretKey with
    | Some theirSeed =>
        modifyContext
          (Context.with_sessionKey (Some (deriveSharedKey ourSeed theirSeed)))
    | None => throw "decryption failed"
    end).

(* communicating *)

Definition receiveEncryptedMessage : StateMachineAction :=
  exec (λ event,
    context ← getContext;
    sessionKey ← assert (Context.sessionKey context);
    match eventMessage event with
    | Some (ENCRYPTED_MESSAGE encryptedMessage) =>
        match symmetric_decrypt encryptedMessage sessionKey with
        | Some decryptedMessage => emit (emit_message decryptedMessage)
        | None => throw "decryption failed"
        end
    | _ => throw "TypeError"
    end).

(* failure *)

Definition receiveError : StateMachineAction :=
  assign (λ event,
    match eventMessage event with
    | Some (ERROR payload) => modifyContext (Context.with_error (Some payload))
    | _ => throw "TypeError"
    end).

Definition rejectIdentityProof : StateMachineAction :=
  fail (userName ← userName; peerName ← peerName;
        ret (userName +:+ " can't verify " +:+ peerName +:+ "'s proof of identity."))
       None.

Definition failNeitherIsMember : StateMachineAction :=
  fail (userName ← userName; peerName ← peerName;
        ret (userName +:+ " can't connect with " +:+ peerName
             +:+ " because neither one is a member."))
       None.

Definition rejectInvitation : StateMachineAction :=
  fail (peerName ← peerName; context ← Connection.context;
        let reason :=
          match Context.error context with
          | Some error => ErrorPayload.message error
          | None => "undefined"
          end in
        ret (peerName +:+ "'s invitation didn't work. " +:+ reason))
       None.

Definition rejectTeam : StateMachineAction :=
  fail (userName ← userName; peerName ← peerName; userName' ← Connection.userName;
        ret (userName +:+ " was admitted to a team by " +:+ peerName
             +:+ ", but it isn't the team " +:+ userName' +:+ " was invited to."))
       None.

Definition failPeerWasRemoved : StateMachineAction :=
  fail (peerName ← peerName; ret (peerName +:+ " was removed from the team.")) None.

Definition failTimeout : StateMachineAction :=
  fail (userName ← userName; peerName ← peerName;
        ret (userName +:+ "'s connection to " +:+ peerName +:+ " timed out."))
       None.

(* events for external listeners *)

Definition onConnected : StateMachineAction := exec (λ _, emit emit_connected).

Definition onJoined : StateMachineAction := exec (λ _, team ← team; emit (emit_joined team)).

Definition onUpdated : StateMachineAction := exec (λ _, emit emit_updated).

Definition onDisconnected : StateMachineAction :=
  exec (λ event, emit (emit_disconnected event)).
End WithExternals.
End actions.

(** ** The protocol machine

    Modelled from the spec: the configuration [protocolMachine], whose file is
    not among the sources.  The rows follow the table of the spec (4.E): the
    event, the guard in brackets, the actions, the target; actions are
    referred to by name.  Where the table is silent the model does the least:
    ACCEPT_IDENTITY, which the table does not list, records that the peer has
    accepted our proof (the exit of [connecting] is "when both sides
    accepted"); [challengeIdentity], which the table does not place, runs on
    entering [challengingIdentity]; RECONNECT, [onJoined] and [onUpdated]
    appear in no row.  The guard [dontHaveSessionkey] "gates re-entering
    negotiating": when it fails, the exit of [synchronizing] leads to
    [connected] instead.  A timeout ends each of the handshake phases
    [connecting], [synchronizing] and [negotiating]. *)
Module protocolMachine.
Section WithExternals.
Context `{Externals}.

(** Entry actions. *)
Definition entry (s : ProtocolState) : list Action.t :=
  match s with
  | connecting _ claimingIdentity => [Action.sendHello]
  | synchronizing => [Action.listenForTeamUpdates; Action.sendUpdate]
  | negotiating => [Action.generateSeed; Action.sendSeed]
  | connected => [Action.onConnected]
  | failure => [Action.onDisconnected]
  | disconnected true => [Action.onDisconnected]
  | _ => []
  end.

Definition Transition : Type := ProtocolState * list Action.t.

Definition to (s : ProtocolState) (actions : list Action.t) : Transition :=
  (s, actions ++ entry s).

(** What a region of [connecting] does with an event: nothing, a
    transition inside the region, or a transition to the terminal state
    [failure]. *)
Inductive RegionStep (S : Type) :=
  | stay
  | goto (s : S) (actions : list Action.t)
  | abort (actions : list Action.t).
Arguments stay {S}.
Arguments goto {S} s actions.
Arguments abort {S} actions.

Definition invitation_on (i : InvitationState) (event : Event)
  : M (RegionStep InvitationState) :=
  match i, eventMessage event with
  | waiting, Some (ACCEPT_INVITATION _) =>
      right ← guards.joinedTheRightTeam event;
      if right then ret (goto success [Action.joinTeam])
      else ret (abort [Action.rejectTeam])
  | (waiting | doingNothing), Some (HELLO payload) =>
      match HelloPayload.proofOfInvitation payload with
      | Some _ => ret (goto validating [])
      | None => ret stay
      end
  | _, _ => ret stay
  end.

Definition invitation_always (i : InvitationState) (event : Event)
  : M (RegionStep InvitationState) :=
  match i with
  | initializing =>
      mine ← guards.iHaveInvitation event;
      if mine then ret (goto waiting []) else ret (goto doingNothing [])
  | validating =>
      both ← guards.bothHaveInvitation event;
      if both then ret (abort [Action.failNeitherIsMember])
      else
        valid ← guards.invitationProofIsValid event;
        if valid then ret (goto success [Action.acceptInvitation])
        else ret (abort [Action.rejectInvitation])
  | _ => ret stay
  end.

Definition authenticating_on (a : AuthenticatingState) (event : Event)
  : M (RegionStep AuthenticatingState) :=
  match a, eventMessage event with
  | claimingIdentity, Some (HELLO _) =>
      ret (goto (challengingIdentity unchallenged unproved)
             [Action.receiveHello; Action.confirmIdentityExists;
              Action.challengeIdentity])
  | challengingIdentity unchallenged theirs, Some (CHALLENGE_IDENTITY _) =>
      ret (goto (challengingIdentity awaitingIdentityAcceptance theirs)
             [Action.proveIdentity])
  | challengingIdentity ours unproved, Some (PROVE_IDENTITY _ _) =>
      valid ← guards.identityProofIsValid event;
      if valid then
        ret (goto (challengingIdentity ours accepted)
               [Action.acceptIdentity; Action.storePeer])
      else ret (abort [Action.rejectIdentityProof])
  | challengingIdentity awaitingIdentityAcceptance theirs, Some ACCEPT_IDENTITY =>
      ret (goto (challengingIdentity acceptedByPeer theirs) [])
  | _, _ => ret stay
  end.

(** The two regions of [connecting] take the event together; the
    invitation region comes first in document order. *)
Definition connecting_on (i : InvitationState) (a : AuthenticatingState) (event : Event)
  : M (option Transition) :=
  ri ← invitation_on i event;
  ra ← authenticating_on a event;
  match ri, ra with
  | stay, stay => ret None
  | abort acts, stay => ret (Some (to failure acts))
  | abort acts, goto _ acts' => ret (Some (to failure (acts ++ acts')))
  | abort acts, abort acts' => ret (Some (to failure (acts ++ acts')))
  | stay, abort acts' => ret (Some (to failure acts'))
  | goto _ acts, abort acts' => ret (Some (to failure (acts ++ acts')))
  | goto i' acts, stay => ret (Some (connecting i' a, acts))
  | stay, goto a' acts' => ret (Some (connecting i a', acts'))
  | goto i' acts, goto a' acts' => ret (Some (connecting i' a', acts ++ acts'))
  end.

(** The transition an event selects in a state, if any.  A handler of the
    state itself comes before the global ERROR handler. *)
Definition on (s : ProtocolState) (event : Event) : M (option Transition) :=
  selected ←
    match s, eventMessage event with
    | disconnected false, Some READY =>
        ret (Some (to (connecting initializing claimingIdentity) []))
    | connecting i a, None => ret (Some (to failure [Action.failTimeout]))
    | connecting i a, Some _ => connecting_on i a event
    | synchronizing, None => ret (Some (to failure [Action.failTimeout]))
    | synchronizing, Some (UPDATE _ _ _) =>
        ret (Some (synchronizing, [Action.recordTheirHead; Action.sendMissingLinks]))
    | synchronizing, Some (MISSING_LINKS _ _) =>
        ret (Some (synchronizing, [Action.receiveMissingLinks; Action.sendUpdate]))
    | synchronizing, Some (LOCAL_UPDATE _) =>
        ret (Some (synchronizing, [Action.sendUpdate]))
    | negotiating, None => ret (Some (to failure [Action.failTimeout]))
    | negotiating, Some (SEED _) =>
        ret (Some (to connected [Action.receiveSeed; Action.deriveSharedKey]))
    | connected, Some (ENCRYPTED_MESSAGE _) =>
        ret (Some (connected, [Action.receiveEncryptedMessage]))
    | connected, Some (UPDATE _ _ _) => ret (Some (to synchronizing []))
    | connected, Some (LOCAL_UPDATE _) => ret (Some (to synchronizing []))
    | connected, Some DISCONNECT => ret (Some (to (disconnected true) []))
    | _, _ => ret None
    end;
  match selected, eventMessage event with
  | Some t, _ => ret (Some t)
  | None, Some (ERROR _) =>
      if isFinal s then ret None else ret (Some (to failure [Action.receiveError]))
  | None, _ => ret None
  end.

(** The eventless transitions of [synchronizing]. *)
Definition synchronizing_always (event : Event) : M (option Transition) :=
  equal ← guards.headsAreEqual event;
  removed ← guards.peerWasRemoved event;
  if equal && negb removed then
    fresh ← guards.dontHaveSessionkey event;
    if fresh then ret (Some (to negotiating [])) else ret (Some (to connected []))
  else if removed then ret (Some (to failure [Action.failPeerWasRemoved]))
  else ret None.
End WithExternals.

Arguments stay {S}.
Arguments goto {S} s actions.
Arguments abort {S} actions.
End protocolMachine.

(** ** The interpreter

    XState's [interpret(machine)], as far as the connection uses it.  An
    event is taken by a running interpreter only.  The next state is computed
    first, its assignments with it; if that throws, the interpreter keeps the
    state it had.  Then the new state is put in place and the remaining
    actions are executed; a final state stops the interpreter.  Events
    scheduled meanwhile are taken afterwards, unless the interpreter has
    stopped; stopping, like an exception, clears the schedule.  Every event an
    action schedules is an ERROR (through [createError]), and ERROR ends in the
    final state [failure], so one pass over the schedule exhausts it. *)
Section Interpreter.
Context `{Externals}.

(** [{ actions: this.actions, guards: this.guards }]: the actions behind
    the names. *)
Definition implementation (name : Action.t) : StateMachineAction :=
  match name with
  | Action.sendHello => actions.sendHello
  | Action.receiveHello => actions.receiveHello
  | Action.acceptInvitation => actions.acceptInvitation
  | Action.joinTeam => actions.joinTeam
  | Action.confirmIdentityExists => actions.confirmIdentityExists
  | Action.challengeIdentity => actions.challengeIdentity
  | Action.proveIdentity => actions.proveIdentity
  | Action.storePeer => actions.storePeer
  | Action.acceptIdentity => actions.acceptIdentity
  | Action.sendUpdate => actions.sendUpdate
  | Action.recordTheirHead => actions.recordTheirHead
  | Action.sendMissingLinks => actions.sendMissingLinks
  | Action.receiveMissingLinks => actions.receiveMissingLinks
  | Action.listenForTeamUpdates => actions.listenForTeamUpdates
  | Action.generateSeed => actions.generateSeed
  | Action.sendSeed => actions.sendSeed
  | Action.receiveSeed => actions.receiveSeed
  | Action.deriveSharedKey => actions.deriveSharedKey
  | Action.receiveEncryptedMessage => actions.receiveEncryptedMessage
  | Action.receiveError => actions.receiveError
  | Action.rejectIdentityProof => actions.rejectIdentityProof
  | Action.failNeitherIsMember => actions.failNeitherIsMember
  | Action.rejectInvitation => actions.rejectInvitation
  | Action.rejectTeam => actions.rejectTeam
  | Action.failPeerWasRemoved => actions.failPeerWasRemoved
  | Action.failTimeout => actions.failTimeout
  | Action.onConnected => actions.onConnected
  | Action.onJoined => actions.onJoined
  | Action.onUpdated => actions.onUpdated
  | Action.onDisconnected => actions.onDisconnected
  end.

Fixpoint forEach {A} (l : list A) (f : A → M unit) : M unit :=
  match l with
  | [] => ret tt
  | x :: rest => f x;; forEach rest f
  end.

(** The actions of a transition: the assignments are evaluated now, in
    order; the names of the other actions are kept for later. *)
Fixpoint perform (acts : list Action.t) (event : Event) : M (list Action.t) :=
  match acts with
  | [] => ret []
  | name :: rest =>
      match implementation name with
      | assign update => update event;; perform rest event
      | exec _ => later ← perform rest event; ret (name :: later)
      end
  end.

Definition execute (name : Action.t) (event : Event) : M unit :=
  match implementation name with
  | assign _ => ret tt
  | exec run => run event
  end.

Definition settle_synchronizing (event : Event) : M (ProtocolState * list Action.t) :=
  next ← protocolMachine.synchronizing_always event;
  match next with
  | None => ret (synchronizing, [])
  | Some (target, acts) => later ← perform acts event; ret (target, later)
  end.

(** The eventless transitions taken once a transition has been made: those
    of the invitation region, the exit of [connecting] when both sides have
    accepted, those of [synchronizing]. *)
Definition settle (s : ProtocolState) (event : Event) : M (ProtocolState * list Action.t) :=
  match s with
  | connecting i a =>
      ri ← protocolMachine.invitation_always i event;
      match ri with
      | protocolMachine.abort acts =>
          later ← perform (acts ++ protocolMachine.entry failure) event;
          ret (failure, later)
      | _ =>
          let i' := match ri with protocolMachine.goto i' _ => i' | _ => i end in
          let acts := match ri with protocolMachine.goto _ acts => acts | _ => [] end in
          later ← perform acts event;
          match a with
          | challengingIdentity acceptedByPeer accepted =>
              later' ← perform (protocolMachine.entry synchronizing) event;
              r ← settle_synchronizing event;
              ret (r.1, later ++ later' ++ r.2)
          | _ => ret (connecting i' a, later)
          end
      end
  | synchronizing => settle_synchronizing event
  | _ => ret (s, [])
  end.

(** A macrostep: the state it ends in and the actions still to execute. *)
Definition resolve (s : ProtocolState) (event : Event) : M (ProtocolState * list Action.t) :=
  selected ← protocolMachine.on s event;
  match selected with
  | None => ret (s, [])
  | Some (target, acts) =>
      later ← perform acts event;
      r ← settle target event;
      ret (r.1, later ++ r.2)
  end.

Definition initialState (context : Context.t) : State.t :=
  {| State.value := disconnected false; State.context := context; State.done := false |}.

Definition interpret (context : Context.t) : Interpreter.t :=
  {| Interpreter.status := NotStarted;
     Interpreter.state := initialState context;
     Interpreter.queue := [] |}.

Definition machine_start : M unit :=
  modify (λ c, set_state (initialState (State.context (machineState c))) c);;
  modify (set_status Running).

Definition machine_stop : M unit :=
  modify (set_status Stopped);;
  modify (set_queue []).

Definition commit (target : ProtocolState) : M unit :=
  modify (set_value target);;
  modify (set_done (isFinal target)).

Definition process (event : Event) : M unit :=
  λ c,
    let before := machineState c in
    match resolve (State.value before) event c with
    | (Threw e, c') => (Threw e, set_queue [] (set_state before c'))
    | (Returned (target, later), c') =>
        match (commit target;; forEach later (λ name, execute name event)) c' with
        | (Threw e, c'') => (Threw e, set_queue [] c'')
        | (Returned _, c'') =>
            if isFinal target then machine_stop c'' else (Returned tt, c'')
        end
    end.

(** A scheduled event is taken if the interpreter is still running. *)
Definition take (event : Event) : M unit :=
  status ← gets (λ c, Interpreter.status (machine c));
  match status with
  | Running => process event
  | _ => ret tt
  end.

Definition flush : M unit :=
  scheduled ← gets (λ c, Interpreter.queue (machine c));
  modify (set_queue []);;
  forEach scheduled take.

(** [this.machine.send(event)] called from a method of the connection. *)
Definition machine_send (event : Event) : M unit :=
  modify (λ c, set_machineEvents (machineEvents c ++ [event]) c);;
  status ← gets (λ c, Interpreter.status (machine c));
  match status with
  | Running => process event;; flush
  | _ => ret tt
  end.
End Interpreter.

(** ** Constructor and methods *)

Record ConnectionParams `{Externals} := {
  params_context : InitialContext.t;
  params_peerUserName : option string }.

Section Methods.
Context `{Externals}.

(** The fields of a connection that has just been constructed. *)
Definition fresh (peerUserName : option string) (context : Context.t) : Connection :=
  {| peerUserName := peerUserName;
     machine := interpret context;
     incomingMessageQueue := emptyQueue;
     outgoingMessageIndex := 0;
     started := false;
     sent := [];
     emitted := [];
     listeners := 0;
     machineEvents := [];
     teamListeners := 0;
     randomDraws := 0 |}.

(** The function behind an action. *)
Definition body (action : StateMachineAction) : Event → M unit :=
  match action with
  | assign update => update
  | exec run => run
  end.

(** The constructor.  The caller's context object is the very object the
    machine is given, so the context of the new connection is the caller's
    object as the constructor leaves it.  Reading [context.user.userName] of
    a context with neither invitee nor user throws. *)
Definition new (params : ConnectionParams) : Result Connection :=
  let context := InitialContext.toContext (params_context params) in
  let name :=
    match Context.invitee context, Context.user context with
    | Some invitee, _ => Some (Invitee.name invitee)
    | None, Some user => Some (User.userName user)
    | None, None => None
    end in
  match name with
  | None => Threw "TypeError"
  | Some _ =>
      let context :=
        if negb (isMember context) && hasInvitee context then
          match Context.invitee context, Context.user context with
          | Some invitee, Some user =>
              let starterKeys := generateStarterKeys invitee (Context.invitationSeed context) in
              Context.with_user (Some (User.make (User.userName user) starterKeys)) context
          | _, _ => context
          end
        else context in
      Returned (fresh (params_peerUserName params) context)
  end.

(** [on(event, listener)] of [EventEmitter]. *)
Definition addListener : M unit := modify (λ c, set_listeners (S (listeners c)) c).

Definition removeAllListeners : M unit := modify (set_listeners 0%nat).

Definition running : M bool :=
  started ← gets started;
  done ← gets (λ c, State.done (machineState c));
  ret (started && negb done).

(** [deliver] is an [async] method: what it throws rejects the promise it
    returns. *)
Definition deliver (incomingMessage : NumberedConnectionMessage) : M unit :=
  queue ← gets incomingMessageQueue;
  let r := orderedDelivery queue incomingMessage in
  modify (set_incomingMessageQueue r.1);;
  forEach r.2 (λ m,
    running ← running;
    if running then machine_send (fromPeer m) else ret tt).

Definition start (storedMessages : list string) : M unit :=
  started ← gets started;
  if negb started then
    machine_start;;
    modify (set_started true);;
    sendMessage READY;;
    forEach storedMessages (λ m,
      match JSON_parse m with
      | Some parsed => ignoreThrow (deliver parsed)
      | None => throw "SyntaxError"
      end)
  else machine_send (fromSelf RECONNECT).

Definition stop : M unit :=
  running ← running;
  (if running then
     sendMessage DISCONNECT;;
     machine_send (fromSelf DISCONNECT)
   else ret tt);;
  removeAllListeners;;
  machine_stop;;
  modify (set_done true).

Definition send (message : string) : M unit :=
  context ← context;
  sessionKey ← assert (Context.sessionKey context);
  let encryptedMessage := symmetric_encrypt message sessionKey in
  sendMessage (ENCRYPTED_MESSAGE encryptedMessage).

(** The listener that [listenForTeamUpdates] attaches to the team, called by
    the team with its new head. *)
Definition teamUpdated (head : string) : M unit :=
  done ← gets (λ c, State.done (machineState c));
  if negb done then machine_send (fromSelf (LOCAL_UPDATE head)) else ret tt.

(** The expiry of the delay of the current handshake phase. *)
Definition timeout : M unit := machine_send delay.
End Methods.

End Connection.

(** ** The summary of a state

    [stateSummary], by which the listener of [onTransition] turns
    [state.value] into the string it emits with 'change'.  A state value is
    the name of a state, or an object from the names of regions to their
    state values; [Object.keys] lists the names in insertion order. *)
#[local] Unset Elimination Schemes.
Inductive StateTree :=
  | stateName (name : string)
  | stateObject (children : list (string * StateTree)).
#[local] Set Elimination Schemes.

(** [array.join(',')]. *)
Fixpoint join (separator : string) (l : list string) : string :=
  match l with
  | [] => EmptyString
  | [s] => s
  | s :: rest => String.append s (String.append separator (join separator rest))
  end.

Fixpoint stateSummary (state : StateTree) : string :=
  match state with
  | stateName name => if String.eqb name "done" then EmptyString else name
  | stateObject children =>
      join ","
        (List.filter (λ s, negb (Nat.eqb (String.length s) 0))
           (List.map (λ child, String.append child.1
                                 (String.append ":" (stateSummary child.2)))
              children))
  end.

(** The default of the parameter: [state: any = 'disconnected']. *)
Definition stateSummaryOf (state : option StateTree) : string :=
  stateSummary (default (stateName "disconnected") state).

(** ** Calls from the host *)

Inductive Call :=
  | call_start (storedMessages : list string)
  | call_stop
  | call_deliver (incomingMessage : NumberedConnectionMessage)
  | call_send (message : string)
  | call_on
  | team_updated (head : string)
  | delay_expired.

Section Reachable.
Context `{Externals}.

(** What the host, the team and the clock can do to a connection.  The team
    calls back only if a listener has been attached to it. *)
Definition run (call : Call) : M unit :=
  match call with
  | call_start storedMessages => Connection.start storedMessages
  | call_stop => Connection.stop
  | call_deliver incomingMessage => Connection.deliver incomingMessage
  | call_send message => Connection.send message
  | call_on => Connection.addListener
  | team_updated head =>
      attached ← gets teamListeners;
      match attached with
      | O => ret tt
      | S _ => Connection.teamUpdated head
      end
  | delay_expired => Connection.timeout
  end.

Definition after (calls : list Call) (c : Connection) : Connection :=
  fold_left (λ c call, (run call c).2) calls c.

(** The connections that exist: a constructed one, and what calls make of it. *)
Inductive reachable : Connection → Prop :=
  | reachable_new params c :
      Connection.new params = Returned c → reachable c
  | reachable_call c call :
      reachable c → reachable (run call c).2.
End Reachable.

(** ** A small instance of the collaborators

    Used to run the model on concrete inputs.  A team is its head, the names
    it has removed and the invitation signatures it knows; a device id is its
    user's name; a box is the secret behind a tag; a hash fits its input into
    32 characters. *)
Module Toy.
Record team := { head : string; removed : list string; invitations : list string }.

Definition knows (t : team) (p : ProofOfInvitation.t) : bool :=
  bool_decide (ProofOfInvitation.signature p ∈ invitations t).

Definition unbox (cipher : string) : option string :=
  match cipher with
  | String "b"%char (String "o"%char (String "x"%char (String ":"%char secret))) =>
      Some secret
  | _ => None
  end.

Fixpoint fit (n : nat) (s : string) : string :=
  match n with
  | O => EmptyString
  | S n' =>
      match s with
      | EmptyString => String "0"%char (fit n' EmptyString)
      | String a rest => String a (fit n' rest)
      end
  end.

Definition parse (s : string) : option NumberedConnectionMessage :=
  match s with
  | EmptyString => None
  | String digit rest =>
      Some (numbered (Z.of_nat (nat_of_ascii digit) - 48)
              (if String.eqb rest "READY" then READY else ENCRYPTED_MESSAGE rest))
  end.

Definition keys (name : string) : KeysetWithSecrets.t :=
  KeysetWithSecrets.make (KeyPair.make name name) (KeyPair.make name name).

#[export] Instance externals : Externals := {|
  Team := team;
  getDeviceId := Device.userName;
  parseDeviceId := λ id, (id, "laptop"%string);
  generateStarterKeys := λ invitee seed, keys (default "undefined"%string seed);
  generateProof := λ seed invitee, ProofOfInvitation.make invitee seed;
  identity_prove := λ challenge keys, KeyPair.secretKey (KeysetWithSecrets.signature keys);
  randomKey := λ n, String (ascii_of_nat (65 + n)) EmptyString;
  asymmetric_encrypt := λ secret _ _, ("box:" +:+ secret)%string;
  asymmetric_decrypt := λ cipher _ _, unbox cipher;
  symmetric_encrypt := λ message _, ("box:" +:+ message)%string;
  symmetric_decrypt := λ cipher _, unbox cipher;
  hash := fit 32;
  JSON_parse := parse;
  Team_new := λ chain _ _, {| head := chain; removed := []; invitations := [chain] |};
  team_admit := λ t p, if knows t p then Some t else None;
  team_save := head;
  team_join := λ t p seed,
    (t, User.make (Invitee.name (ProofOfInvitation.invitee p)) (keys "joined"),
     Device.make (Invitee.name (ProofOfInvitation.invitee p)) "laptop" (keys "joined"));
  team_validateInvitation := λ t p,
    if knows t p then ValidationResult.make true None
    else ValidationResult.make false (Some (ErrorPayload.make "unknown invitation" None));
  team_hasInvitation := knows;
  team_lookupIdentity := λ t claim,
    if bool_decide (Invitee.name claim ∈ removed t) then MEMBER_REMOVED else VALID_DEVICE;
  team_verifyIdentityProof := λ t challenge proof,
    match Challenge.claim challenge with
    | Some claim => String.eqb proof (Invitee.name claim)
    | None => false
    end;
  team_has := λ t name, bool_decide (name ∉ removed t);
  team_members := λ t name, Member.make name (PublicKeyset.make name name);
  team_getMissingLinks := λ t root head hashes, [];
  team_receiveMissingLinks := λ t head links, {| head := head; removed := removed t;
                                                 invitations := invitations t |};
  team_chain_root := λ t, "root"%string;
  team_chain_head := head;
  team_chain_hashes := λ t, [head t] |}.

Definition alice : User.t := User.make "alice" (keys "alice").
Definition laptop : Device.t := Device.make "alice" "laptop" (keys "alice").
Definition theTeam : team := {| head := "h1"; removed := ["eve"%string]; invitations := ["passw0rd"%string] |}.

(** Alice, a member, about to connect with Bob. *)
Definition aliceParams : Connection.ConnectionParams := {|
  Connection.params_context :=
    {| InitialContext.user := Some alice; InitialContext.device := laptop;
       InitialContext.team := Some theTeam; InitialContext.invitee := None;
       InitialContext.invitationSeed := None |};
  Connection.params_peerUserName := None |}.

Definition aliceContext : Context.t :=
  InitialContext.toContext (Connection.params_context aliceParams).

Definition aliceConnection : Connection := Connection.fresh None aliceContext.

(** Bob, invited with the seed "passw0rd", not yet on the team. *)
Definition bob : User.t := User.make "bob" (keys "bob").
Definition phone : Device.t := Device.make "bob" "phone" (keys "bob").

Definition bobParams : Connection.ConnectionParams := {|
  Connection.params_context :=
    {| InitialContext.user := Some bob; InitialContext.device := phone;
       InitialContext.team := None;
       InitialContext.invitee := Some (Invitee.make MEMBER "bob");
       InitialContext.invitationSeed := Some "passw0rd"%string |};
  Connection.params_peerUserName := None |}.


(** Bob's connection as the constructor leaves it. *)
Definition bobConnection : Connection :=
  match Connection.new bobParams with
  | Returned c => c
  | Threw _ => aliceConnection
  end.

(** Alice starts, and receives what a member Bob sends during a handshake:
    his READY and HELLO, his challenge, his proof, his acceptance, the head
    of his copy of the team, his seed. *)
Definition bobClaim : Invitee.t := Invitee.make DEVICE "bob".

Definition handshake : list Call := [
  call_start [];
  call_deliver (numbered 0 READY);
  call_deliver (numbered 1 (HELLO (HelloPayload.make (Some bobClaim) None)));
  call_deliver (numbered 2 (CHALLENGE_IDENTITY
                              (Challenge.make (Some (Invitee.make DEVICE "alice")) "n")));
  call_deliver (numbered 3 (PROVE_IDENTITY (Challenge.make (Some bobClaim) "A") "bob"));
  call_deliver (numbered 4 ACCEPT_IDENTITY);
  call_deliver (numbered 5 (UPDATE "root" "h1" ["h1"%string]));
  call_deliver (numbered 6 (SEED "box:Z")) ].

(** Alice before Bob's seed arrives, and after. *)
Definition negotiatingAlice : Connection := after (take 7 handshake) aliceConnection.
Definition connectedAlice : Connection := after handshake aliceConnection.
End Toy.

(** ** What is observed of a connection *)

Section Observations.
Context `{Externals}.

(** The interpreter's status, the machine's state value and [done] flag, the
    events scheduled. *)
Definition statusOf (c : Connection) : InterpreterStatus := Interpreter.status (machine c).
Definition valueOf (c : Connection) : ProtocolState := State.value (machineState c).
Definition doneOf (c : Connection) : bool := State.done (machineState c).
Definition queueOf (c : Connection) : list Event := Interpreter.queue (machine c).

Definition errorEvents (errors : list ErrorPayload.t) : list Event :=
  (λ p, fromSelf (ERROR p)) <$> errors.

(** [context.sessionKey]. *)
Definition keyOf (c : Connection) : option string :=
  Context.sessionKey (State.context (machineState c)).


(** The gate of [deliver]: [this.started && !this.machine.state.done]. *)
Definition runningOf (c : Connection) : bool := started c && negb (doneOf c).

(** The numbered messages that [deliver] has handed to the machine. *)
Definition forwarded (c : Connection) : list NumberedConnectionMessage :=
  omap (λ e, match e with fromPeer m => Some m | _ => None end) (machineEvents c).

(** A HELLO with a proof of invitation. *)
Definition carriesProof (m : ConnectionMessage) : bool :=
  match m with
  | HELLO payload =>
      match HelloPayload.proofOfInvitation payload with Some _ => true | None => false end
  | _ => false
  end.

(** The messages sent so far that carry a proof of invitation. *)
Definition proofsSent (c : Connection) : list NumberedConnectionMessage :=
  filter (λ m, carriesProof (message m) = true) (sent c).

(** Every call returns. *)
Fixpoint allReturn (calls : list Call) (c : Connection) : Prop :=
  match calls with
  | [] => True
  | call :: rest => (run call c).1 = Returned tt ∧ allReturn rest (run call c).2
  end.
End Observations.

(** The six actions that report a failure of our own. *)
Definition isFail (name : Action.t) : bool :=
  match name with
  | Action.rejectIdentityProof | Action.failNeitherIsMember | Action.rejectInvitation
  | Action.rejectTeam | Action.failPeerWasRemoved | Action.failTimeout => true
  | _ => false
  end.

(** An ERROR, from the peer or from the connection itself. *)
Definition isError (event : Event) : bool :=
  match eventMessage event with Some (ERROR _) => true | _ => false end.

(** Inside [connecting]. *)
Definition inHandshake (s : ProtocolState) : bool :=
  match s with connecting _ _ => true | _ => false end.

(** * Properties *)

(** ** Ordered delivery *)

Section OrderedDeliveryFacts.

Lemma drain_spec steps : ∀ p next,
  (size p ≤ steps)%nat →
  (∀ i m, p !! i = Some m → next ≤ i ∧ index m = i) →
  let r := drain steps p next in
  next ≤ nextExpected r.1
  ∧ index <$> r.2 = seqZ next (nextExpected r.1 - next)
  ∧ pending r.1 !! nextExpected r.1 = None
  ∧ (∀ i, nextExpected r.1 ≤ i → pending r.1 !! i = p !! i)
  ∧ (∀ i, next ≤ i < nextExpected r.1 → ∃ m, p !! i = Some m ∧ m ∈ r.2)
  ∧ (∀ m, m ∈ r.2 → p !! index m = Some m)
  ∧ (∀ i m, pending r.1 !! i = Some m → p !! i = Some m)
  ∧ (∀ i, next ≤ i < nextExpected r.1 → pending r.1 !! i = None).
Proof.
  induction steps as [|steps IH]; intros p next Hsize Hok; simpl.
  - assert (p = ∅) as -> by (apply map_size_empty_iff; lia).
    rewrite Z.sub_diag. simpl.
    split_and!; try done; try (intros; lia).
    intros m Hm. by apply elem_of_nil in Hm.
  - destruct (p !! next) as [m|] eqn:Hm; simpl.
    + destruct (IH (delete next p) (next + 1)) as (Hle & Hidx & Hnone & Hkeep & Hall & Hout & Hsub & Hgone).
      { rewrite map_size_delete, Hm. lia. }
      { intros i m' Hi. apply lookup_delete_Some in Hi as [Hne Hi].
        destruct (Hok _ _ Hi). split; [lia | done]. }
      set (r := drain steps (delete next p) (next + 1)) in *.
      split_and!.
      * lia.
      * change (list_fmap _ _ index r.2) with (index <$> r.2). rewrite Hidx. destruct (Hok _ _ Hm) as [_ ->].
        replace (nextExpected r.1 - next) with (Z.succ (nextExpected r.1 - (next + 1))) by lia.
        rewrite (seqZ_cons next) by lia. f_equal. f_equal; lia.
      * done.
      * intros i Hi. rewrite Hkeep by done. apply lookup_delete_ne. lia.
      * intros i Hi. destruct (decide (i = next)) as [->|Hne].
        -- exists m. split; [done | apply elem_of_cons; by left].
        -- destruct (Hall i) as (m' & Hm' & Hin); [lia|].
           apply lookup_delete_Some in Hm' as [_ Hm'].
           exists m'. split; [done | apply elem_of_cons; by right].
      * intros m' Hin. apply elem_of_cons in Hin as [->|Hin].
        -- destruct (Hok _ _ Hm) as [_ ->]. done.
        -- apply Hout in Hin. by apply lookup_delete_Some in Hin as [_ ?].
      * intros i m' Hi. apply Hsub in Hi. by apply lookup_delete_Some in Hi as [_ ?].
      * intros i Hi. destruct (decide (i = next)) as [->|Hne]; [|apply Hgone; lia].
        destruct (pending r.1 !! next) as [x|] eqn:Hx; [|done].
        apply Hsub in Hx. by rewrite lookup_delete_eq in Hx.
    + rewrite Z.sub_diag. simpl. split_and!; try done; try (intros; lia).
      intros m Hin. by apply elem_of_nil in Hin.
Qed.

Lemma buffer_ok_cursor_free b : buffer_ok b → pending b !! nextExpected b = None.
Proof.
  intros Hok. destruct (pending b !! nextExpected b) as [m|] eqn:Hm; [|done].
  destruct (Hok _ _ Hm). lia.
Qed.

(** What one call does to the buffer and what it releases. *)
Lemma orderedDelivery_spec b m :
  buffer_ok b →
  let r := orderedDelivery b m in
  buffer_ok r.1
  ∧ nextExpected b ≤ nextExpected r.1
  ∧ index <$> r.2 = seqZ (nextExpected b) (nextExpected r.1 - nextExpected b)
  ∧ (∀ x, x ∈ r.2 → x = m ∨ ∃ i, pending b !! i = Some x)
  ∧ (∀ i x, pending r.1 !! i = Some x → x = m ∨ pending b !! i = Some x)
  ∧ (index m < nextExpected r.1 ∨ is_Some (pending r.1 !! index m))
  ∧ (∀ i, is_Some (pending b !! i) → i < nextExpected r.1 ∨ is_Some (pending r.1 !! i)).
Proof.
  intros Hok. unfold orderedDelivery.
  destruct (Z.ltb_spec (index m) (nextExpected b)) as [Hlt|Hge]; simpl.
  - rewrite Z.sub_diag. split_and!; try done; try lia.
    + intros x Hx. by apply elem_of_nil in Hx.
    + intros i x Hx. by right.
    + intros i Hi. by right.
  - destruct (Z.ltb_spec (nextExpected b) (index m)) as [Hgt|Hle]; simpl.
    + rewrite Z.sub_diag. split_and!; try done; try lia.
      * intros i x Hx. simpl in Hx. apply lookup_insert_Some in Hx as [[<- <-]|[Hne Hx]].
        -- simpl. split; [lia | done].
        -- simpl. by apply Hok.
      * intros x Hx. by apply elem_of_nil in Hx.
      * intros i x Hx. apply lookup_insert_Some in Hx as [[_ <-]|[_ Hx]]; [by left | by right].
      * right. rewrite lookup_insert_eq. by eexists.
      * intros i Hi. right. destruct (decide (index m = i)) as [->|Hne].
        -- rewrite lookup_insert_eq. by eexists.
        -- by rewrite lookup_insert_ne.
    + assert (index m = nextExpected b) as Heq by lia.
      destruct (drain_spec (size (pending b)) (pending b) (nextExpected b + 1))
        as (Hle' & Hidx & Hnone & Hkeep & Hall & Hout & Hsub & Hgone); [done | |].
      { intros i x Hx. destruct (Hok _ _ Hx). split; [lia | done]. }
      set (r := drain (size (pending b)) (pending b) (nextExpected b + 1)) in *.
      split_and!.
      * intros i x Hx. pose proof (Hsub _ _ Hx) as Hx'. destruct (Hok _ _ Hx') as [Hi ?].
        split; [|done].
        destruct (decide (nextExpected r.1 < i)) as [|Hn]; [done|].
        destruct (decide (i = nextExpected r.1)) as [->|Hne]; [congruence|].
        rewrite Hgone in Hx by lia. done.
      * lia.
      * change (index m :: (index <$> r.2) = seqZ (nextExpected b) (nextExpected r.1 - nextExpected b)).
        rewrite Hidx, Heq.
        replace (nextExpected r.1 - nextExpected b)
          with (Z.succ (nextExpected r.1 - (nextExpected b + 1))) by lia.
        rewrite (seqZ_cons (nextExpected b)) by lia. f_equal. f_equal; lia.
      * intros x Hx. apply elem_of_cons in Hx as [->|Hx]; [by left|].
        right. exists (index x). by apply Hout.
      * intros i x Hx. right. by apply Hsub.
      * left. lia.
      * intros i Hi. destruct (decide (i < nextExpected r.1)) as [|Hn]; [by left|].
        right. rewrite Hkeep by lia. done.
Qed.

Lemma buffer_inv_empty : buffer_inv [] emptyQueue.
Proof.
  split_and!.
  - intros i m Hm. simpl in Hm. by rewrite lookup_empty in Hm.
  - intros m Hm. by apply elem_of_nil in Hm.
  - intros i x Hx. simpl in Hx. by rewrite lookup_empty in Hx.
Qed.

Lemma deliverAll_spec arrivals : ∀ b seen,
  buffer_inv seen b →
  let r := deliverAll b arrivals in
  buffer_inv (seen ++ arrivals) r.1
  ∧ nextExpected b ≤ nextExpected r.1
  ∧ index <$> r.2 = seqZ (nextExpected b) (nextExpected r.1 - nextExpected b)
  ∧ (∀ x, x ∈ r.2 → x ∈ seen ++ arrivals).
Proof.
  induction arrivals as [|m rest IH]; intros b seen (Hok & Hseen & Hstored); simpl.
  - rewrite Z.sub_diag, app_nil_r. split_and!; try done.
    intros x Hx. by apply elem_of_nil in Hx.
  - destruct (orderedDelivery_spec b m Hok)
      as (Hok1 & Hle1 & Hidx1 & Hout1 & Hsub1 & Hm1 & Hkeep1).
    set (r1 := orderedDelivery b m) in *.
    destruct (IH r1.1 (seen ++ [m])) as ((Hok2 & Hseen2 & Hstored2) & Hle2 & Hidx2 & Hout2).
    { split_and!; [done | |].
      - intros x Hx. apply elem_of_app in Hx as [Hx|Hx].
        + destruct (Hseen _ Hx) as [Hlt|Hst]; [left; lia|]. by apply Hkeep1.
        + apply list_elem_of_singleton in Hx as ->. done.
      - intros i x Hx. apply elem_of_app.
        destruct (Hsub1 _ _ Hx) as [->|Hx']; [right; by apply list_elem_of_singleton|].
        left. by eapply Hstored. }
    set (r2 := deliverAll r1.1 rest) in *.
    rewrite <- (assoc_L (++)) in Hseen2, Hstored2, Hout2. simpl in Hseen2, Hstored2, Hout2.
    split_and!; try done.
    + lia.
    + rewrite fmap_app, Hidx1, Hidx2.
      replace (nextExpected r2.1 - nextExpected b)
        with ((nextExpected r1.1 - nextExpected b) + (nextExpected r2.1 - nextExpected r1.1)) by lia.
      rewrite seqZ_app by lia. do 2 f_equal. lia.
    + intros x Hx. apply elem_of_app in Hx as [Hx|Hx]; [|by apply Hout2].
      apply elem_of_app. destruct (Hout1 _ Hx) as [->|[i Hi]].
      * right. apply elem_of_cons. by left.
      * left. by eapply Hstored.
Qed.

(** The released sequence of a fresh buffer: its indices are 0, 1, ...,
    k-1 for the final cursor k, each released message is one that arrived,
    every index below k has arrived and k itself never has. *)
Lemma deliverAll_fresh arrivals :
  let r := deliverAll emptyQueue arrivals in
  index <$> r.2 = seqZ 0 (nextExpected r.1)
  ∧ (∀ x, x ∈ r.2 → x ∈ arrivals)
  ∧ 0 ≤ nextExpected r.1
  ∧ (∀ m, m ∈ arrivals → index m ≠ nextExpected r.1).
Proof.
  destruct (deliverAll_spec arrivals emptyQueue [] buffer_inv_empty)
    as ((Hok & Hseen & _) & Hle & Hidx & Hout).
  simpl in *. rewrite Z.sub_0_r in Hidx. split_and!; try done.
  intros m Hm Heq. destruct (Hseen _ Hm) as [Hlt|[x Hx]]; [lia|].
  rewrite Heq, buffer_ok_cursor_free in Hx; done.
Qed.

(** Two boundary runs named by the specification. *)
Example deliver_1_then_0 (a b : ConnectionMessage) :
  (deliverAll emptyQueue [numbered 1 a; numbered 0 b]).2 = [numbered 0 b; numbered 1 a].
Proof. reflexivity. Qed.

Example deliver_duplicate (a b : ConnectionMessage) :
  (deliverAll emptyQueue [numbered 0 a; numbered 0 b]).2 = [numbered 0 a].
Proof. reflexivity. Qed.

End OrderedDeliveryFacts.

(** ** Getters before the machine has started *)

(** C10.  While [started] is false (that is, before [start()] has been
    called) the [state] getter returns ['disconnected'] and the [userName] and
    [peerName] getters return ['(not started)'], whereas the [context] getter
    throws, and with it the [team], [sessionKey], [user] and [error] getters,
    which read [this.context]. *)
Theorem getters_before_start `{Externals} (c : Connection) :
  started c = false →
  (Connection.state c).1 = Returned (atomic "disconnected")
  ∧ (Connection.userName c).1 = Returned "(not started)"%string
  ∧ (Connection.peerName c).1 = Returned "(not started)"%string
  ∧ (Connection.context c).1 = Threw "Can't get context; machine not started"
  ∧ (Connection.team c).1 = Threw "Can't get context; machine not started"
  ∧ (Connection.sessionKey c).1 = Threw "Can't get context; machine not started"
  ∧ (Connection.user c).1 = Threw "Can't get context; machine not started"
  ∧ (Connection.error c).1 = Threw "Can't get context; machine not started".
Proof.
  intros Hstarted.
  unfold Connection.state, Connection.userName, Connection.peerName, Connection.team,
    Connection.sessionKey, Connection.user, Connection.error, Connection.context,
    bind, gets, ret, throw.
  rewrite Hstarted. simpl. by repeat split.
Qed.

Lemma getters_before_start_witness :
  ∃ c, Connection.new Toy.aliceParams = Returned c
    ∧ started c = false
    ∧ (Connection.state c).1 = Returned (atomic "disconnected")
    ∧ (Connection.context c).1 = Threw "Can't get context; machine not started".
Proof.
  exists Toy.aliceConnection. split; [reflexivity|]. split; [reflexivity|].
  pose proof (getters_before_start Toy.aliceConnection eq_refl) as (Hs & _ & _ & Hc & _).
  by split.
Defined.

(** ** The constructor *)

(** C9.  For an initial context without a team, with an invitee, an
    invitation seed and a user, the constructor returns a connection that has
    not started, and the context it leaves behind is the supplied one in which
    the keys of the user are the starter keys generated from the invitee and
    the seed: the user's name, the device, the (absent) team, the invitee and
    the seed are as supplied. *)
Theorem constructor_installs_starter_keys `{Externals}
    (params : Connection.ConnectionParams) (invitee : Invitee.t) (seed : string)
    (user : User.t) :
  InitialContext.team (Connection.params_context params) = None →
  InitialContext.invitee (Connection.params_context params) = Some invitee →
  InitialContext.invitationSeed (Connection.params_context params) = Some seed →
  InitialContext.user (Connection.params_context params) = Some user →
  ∃ c, Connection.new params = Returned c
    ∧ started c = false
    ∧ Interpreter.status (machine c) = NotStarted
    ∧ State.context (machineState c) =
        InitialContext.toContext
          {| InitialContext.user :=
               Some (User.make (User.userName user) (generateStarterKeys invitee (Some seed)));
             InitialContext.device := InitialContext.device (Connection.params_context params);
             InitialContext.team := InitialContext.team (Connection.params_context params);
             InitialContext.invitee :=
               InitialContext.invitee (Connection.params_context params);
             InitialContext.invitationSeed :=
               InitialContext.invitationSeed (Connection.params_context params) |}.
Proof.
  intros Hteam Hinvitee Hseed Huser.
  destruct params as [[u d t i s] peer]. simpl in *. subst.
  eexists. split; [reflexivity|]. by repeat split.
Qed.

Lemma constructor_installs_starter_keys_witness :
  ∃ c, Connection.new Toy.bobParams = Returned c
    ∧ Context.user (State.context (machineState c)) =
        Some (User.make "bob" (Toy.keys "passw0rd")).
Proof.
  destruct (constructor_installs_starter_keys Toy.bobParams
              (Invitee.make MEMBER "bob") "passw0rd" Toy.bob
              eq_refl eq_refl eq_refl eq_refl) as (c & Hnew & _ & _ & Hctx).
  exists c. split; [exact Hnew|]. rewrite Hctx. reflexivity.
Defined.

(** Otherwise the constructor leaves the supplied context as it is. *)
Lemma constructor_keeps_other_contexts `{Externals}
    (params : Connection.ConnectionParams) (c : Connection) :
  Connection.new params = Returned c →
  (is_Some (InitialContext.team (Connection.params_context params))
   ∨ InitialContext.invitee (Connection.params_context params) = None
   ∨ InitialContext.user (Connection.params_context params) = None) →
  State.context (machineState c) = InitialContext.toContext (Connection.params_context params).
Proof.
  destruct params as [[u d t i s] peer]. unfold Connection.new. simpl.
  intros Hnew Hcases.
  destruct t, i, u; simpl in *; inversion Hnew; subst; try reflexivity.
  exfalso. destruct Hcases as [[? ?]|[?|?]]; done.
Qed.

(** ** The session key *)




(** ** Reasoning about computations on a connection *)

Section Logic.
Context `{Externals}.

(** [m] relates every connection to the one it leaves, whether it returns or
    throws. *)
Definition keeps {A} (R : relation Connection) (m : M A) : Prop :=
  ∀ c, R c (m c).2.

(** [m] does not change the connection. *)
Definition pure {A} (m : M A) : Prop := ∀ c, (m c).2 = c.

Lemma keeps_ret {A} R `{!PreOrder R} (a : A) : keeps R (ret a).
Proof. intros c. reflexivity. Qed.

Lemma keeps_throw {A} R `{!PreOrder R} (e : string) : keeps R (throw (A := A) e).
Proof. intros c. reflexivity. Qed.

Lemma keeps_gets {A} R `{!PreOrder R} (f : Connection → A) : keeps R (gets f).
Proof. intros c. reflexivity. Qed.

Lemma keeps_modify R (f : Connection → Connection) : (∀ c, R c (f c)) → keeps R (modify f).
Proof. intros Hf c. apply Hf. Qed.

Lemma keeps_bind {A B} R `{!PreOrder R} (m : M A) (k : A → M B) :
  keeps R m → (∀ a, keeps R (k a)) → keeps R (bind m k).
Proof.
  intros Hm Hk c. unfold bind. specialize (Hm c).
  destruct (m c) as [[a|e] c']; simpl in *; [|done].
  etrans; [exact Hm | apply Hk].
Qed.

Lemma keeps_ignoreThrow R (m : M unit) : keeps R m → keeps R (ignoreThrow m).
Proof. intros Hm c. apply Hm. Qed.

Lemma keeps_pure {A} R `{!PreOrder R} (m : M A) : pure m → keeps R m.
Proof. intros Hm c. by rewrite Hm. Qed.

Lemma keeps_assert {A} R `{!PreOrder R} (o : option A) : keeps R (Connection.assert o).
Proof. unfold Connection.assert. destruct o; [apply keeps_ret | apply keeps_throw]; exact _. Qed.

Lemma keeps_forEach {A} R `{!PreOrder R} (l : list A) (f : A → M unit) :
  (∀ x, keeps R (f x)) → keeps R (Connection.forEach l f).
Proof.
  intros Hf. induction l as [|x l IH]; simpl.
  - apply keeps_ret; exact _.
  - apply keeps_bind; [exact _ | apply Hf | done].
Qed.

Lemma pure_context : pure Connection.context.
Proof. intros c. unfold Connection.context, bind, gets, throw. by destruct (started c). Qed.

Lemma pure_userName : pure Connection.userName.
Proof.
  intros c. unfold Connection.userName, Connection.context, bind, gets, throw, ret.
  repeat (case_match; simpl in *; simplify_eq); done.
Qed.

Lemma pure_peerName : pure Connection.peerName.
Proof.
  intros c. unfold Connection.peerName, Connection.context, bind, gets, throw, ret.
  repeat (case_match; simpl in *; simplify_eq); done.
Qed.

Lemma pure_team : pure Connection.team.
Proof.
  intros c. unfold Connection.team, Connection.context, bind, gets, throw, ret.
  by destruct (started c).
Qed.

(** A relation that the building blocks of the actions keep, given that it
    tolerates the context updates in [frame_context] and the sending of the
    messages in [frame_message]. *)
Class Frame (R : relation Connection) := {
  frame_preorder :: PreOrder R;
  frame_context : Context.t → Context.t → Prop;
  frame_message : ConnectionMessage → Prop;
  frame_modifyContext f :
    (∀ context, frame_context context (f context)) → keeps R (Connection.modifyContext f);
  frame_message_error payload : frame_message (ERROR payload);
  frame_sendMessage m : frame_message m → keeps R (Connection.sendMessage m);
  frame_schedule payload : keeps R (Connection.scheduleEvent (fromSelf (ERROR payload)));
  frame_emit e : keeps R (Connection.emit e);
  frame_randomDraws n c : R c (set_randomDraws n c);
  frame_teamListeners n c : R c (set_teamListeners n c) }.

Lemma keeps_drawRandomKey R `{!Frame R} : keeps R Connection.drawRandomKey.
Proof.
  unfold Connection.drawRandomKey.
  apply keeps_bind; [exact _ | apply keeps_gets; exact _ |]. intros n.
  apply keeps_bind; [exact _ | | apply keeps_ret; exact _].
  apply keeps_modify. apply frame_randomDraws.
Qed.

Lemma keeps_createError R `{!Frame R} (message : M string) details :
  keeps R message → keeps R (Connection.createError message details).
Proof.
  intros Hmessage. unfold Connection.createError.
  apply keeps_bind; [exact _ | done |]. intros text.
  apply keeps_bind; [exact _ | apply frame_schedule |]. intros _.
  apply keeps_bind; [exact _ | apply frame_sendMessage, frame_message_error |]. intros _.
  apply keeps_ret; exact _.
Qed.


(** From a connection in [I], [m] keeps [R], and what it returns is in [K]. *)
Definition yields {A} (I : Connection → Prop) (R : relation Connection) (m : M A)
    (K : A → Prop) : Prop :=
  ∀ c, I c → R c (m c).2 ∧ ∀ a, (m c).1 = Returned a → K a.

(** [R] does not lead out of [I]. *)
Class Stable (I : Connection → Prop) (R : relation Connection) : Prop :=
  stable : ∀ c c', I c → R c c' → I c'.

#[global] Instance stable_True R : Stable (λ _, True) R.
Proof. by intros c c' _ _. Qed.

Lemma yields_ret {A} I R `{!PreOrder R} (a : A) (K : A → Prop) : K a → yields I R (ret a) K.
Proof. intros Ha c _. split; [reflexivity|]. simpl. by intros ? [= <-]. Qed.

Lemma yields_throw {A} I R `{!PreOrder R} e (K : A → Prop) : yields I R (throw e) K.
Proof. intros c _. split; [reflexivity|]. simpl. by intros ? [=]. Qed.

Lemma yields_keeps {A} I R (m : M A) : keeps R m → yields I R m (λ _, True).
Proof. intros Hm c _. by split. Qed.

Lemma yields_bind {A B} I R `{!PreOrder R} (m : M A) (k : A → M B) K1 K2 :
  Stable I R → yields I R m K1 → (∀ a, K1 a → yields I R (k a) K2) →
  yields I R (bind m k) K2.
Proof.
  intros Hstable Hm Hk c Hc. unfold bind. destruct (Hm c Hc) as [HR Ha].
  destruct (m c) as [[a|e] c']; simpl in *.
  - destruct (Hk a (Ha a eq_refl) c' (Hstable _ _ Hc HR)) as [HR' Hb].
    split; [by etrans | done].
  - split; [done | by intros ? [=]].
Qed.

Lemma yields_bind_keeps {A B} I R `{!PreOrder R} (m : M A) (k : A → M B) K :
  Stable I R → keeps R m → (∀ a, yields I R (k a) K) → yields I R (bind m k) K.
Proof.
  intros Hstable Hm Hk.
  apply (yields_bind I R m k (λ _, True) K Hstable (yields_keeps I R m Hm)).
  by intros a _.
Qed.

Lemma yields_bind_ret {A B} I R (a : A) (k : A → M B) K :
  yields I R (k a) K → yields I R (bind (ret a) k) K.
Proof. intros Hk c Hc. apply (Hk c Hc). Qed.

Lemma yields_bind_throw {A B} I R `{!PreOrder R} e (k : A → M B) K :
  yields I R (bind (throw e) k) K.
Proof. intros c _. split; [reflexivity|]. simpl. by intros ? [=]. Qed.

Lemma yields_bind_assoc {A B C} I R (m : M A) (f : A → M B) (g : B → M C) K :
  yields I R (bind m (λ x, bind (f x) g)) K → yields I R (bind (bind m f) g) K.
Proof.
  intros Hm c Hc. specialize (Hm c Hc). unfold bind in *.
  by destruct (m c) as [[a|e] c'].
Qed.

(** *** What the actions leave alone *)

(** The fields the machine never writes, the messages forwarded to it, and
    the messages sent so far. *)
Record outside (c c' : Connection) : Prop := {
  outside_peerUserName : peerUserName c' = peerUserName c;
  outside_started : started c' = started c;
  outside_queue : incomingMessageQueue c' = incomingMessageQueue c;
  outside_listeners : listeners c' = listeners c;
  outside_forwarded : forwarded c' = forwarded c;
  outside_sent : sent c `prefix_of` sent c' }.

(** The interpreter's own fields, which only the interpreter writes, and its
    schedule, to which an action adds nothing but ERROR events. *)
Record inside (c c' : Connection) : Prop := {
  inside_status : Interpreter.status (machine c') = Interpreter.status (machine c);
  inside_value : State.value (machineState c') = State.value (machineState c);
  inside_done : State.done (machineState c') = State.done (machineState c);
  inside_schedule :
    ∃ errors, Interpreter.queue (machine c') =
              Interpreter.queue (machine c) ++ ((λ p, fromSelf (ERROR p)) <$> errors) }.

Definition sameKey (c c' : Connection) : Prop := keyOf c' = keyOf c.

Definition sameProofs (c c' : Connection) : Prop := proofsSent c' = proofsSent c.

#[global] Instance outside_preorder : PreOrder outside.
Proof.
  split.
  - intros c. by split.
  - intros c1 c2 c3 [] []. split; try congruence. by etrans.
Qed.

#[global] Instance inside_preorder : PreOrder inside.
Proof.
  split.
  - intros c. split; try done. exists []. by rewrite app_nil_r.
  - intros c1 c2 c3 [? ? ? [e1 He1]] [? ? ? [e2 He2]]. split; try congruence.
    exists (e1 ++ e2). by rewrite He2, He1, fmap_app, (assoc_L (++)).
Qed.

#[global] Instance sameKey_preorder : PreOrder sameKey.
Proof. split; [by intros c | intros c1 c2 c3; unfold sameKey; congruence]. Qed.

#[global] Instance sameProofs_preorder : PreOrder sameProofs.
Proof. split; [by intros c | intros c1 c2 c3; unfold sameProofs; congruence]. Qed.

Lemma forwarded_app c events :
  forwarded (set_machineEvents (machineEvents c ++ events) c)
  = forwarded c ++ omap (λ e, match e with fromPeer m => Some m | _ => None end) events.
Proof. unfold forwarded. simpl. apply omap_app. Qed.

#[global] Instance outside_frame : Frame outside.
Proof.
  refine {| frame_context := λ _ _, True;
            frame_message := λ _, True |}.
  - intros f _ c. by split.
  - done.
  - intros m _ c. split; try done. simpl. by apply prefix_app_r.
  - intros payload c. split; try done.
    unfold Connection.scheduleEvent, bind, modify. simpl.
    change (forwarded (set_machineEvents (machineEvents c ++ [fromSelf (ERROR payload)]) c)
            = forwarded c).
    rewrite forwarded_app. simpl. by rewrite app_nil_r.
  - intros e c. by split.
  - intros n c. by split.
  - intros n c. by split.
Defined.

#[global] Instance inside_frame : Frame inside.
Proof.
  refine {| frame_context := λ _ _, True;
            frame_message := λ _, True |}.
  - intros f _ c. split; try done. exists []. simpl. by rewrite app_nil_r.
  - done.
  - intros m _ c. split; try done. exists []. simpl. by rewrite app_nil_r.
  - intros payload c. split; try done. by exists [payload].
  - intros e c. split; try done. exists []. simpl. by rewrite app_nil_r.
  - intros n c. split; try done. exists []. simpl. by rewrite app_nil_r.
  - intros n c. split; try done. exists []. simpl. by rewrite app_nil_r.
Defined.

#[global] Instance sameKey_frame : Frame sameKey.
Proof.
  refine {| frame_context :=
              λ context context', Context.sessionKey context' = Context.sessionKey context;
            frame_message := λ _, True |}.
  - intros f Hf c. apply Hf.
  - done.
  - by intros m _ c.
  - by intros payload c.
  - by intros e c.
  - by intros n c.
  - by intros n c.
Defined.

#[global] Instance sameProofs_frame : Frame sameProofs.
Proof.
  refine {| frame_context := λ _ _, True;
            frame_message := λ m, carriesProof m = false |}.
  - by intros f _ c.
  - done.
  - intros m Hm c. unfold sameProofs, proofsSent. simpl.
    rewrite filter_app, filter_cons_False, filter_nil, app_nil_r; [done|].
    simpl. by rewrite Hm.
  - by intros payload c.
  - by intros e c.
  - by intros n c.
  - by intros n c.
Defined.

(** Two frames at once. *)
Definition both (R1 R2 : relation Connection) : relation Connection :=
  λ c c', R1 c c' ∧ R2 c c'.

#[global] Instance both_preorder R1 R2 `{!PreOrder R1} `{!PreOrder R2} : PreOrder (both R1 R2).
Proof.
  split.
  - intros c. by split.
  - intros c1 c2 c3 [] []. split; by etrans.
Qed.

Lemma keeps_both {A} R1 R2 (m : M A) : keeps R1 m → keeps R2 m → keeps (both R1 R2) m.
Proof. intros H1 H2 c. by split. Qed.

#[global] Instance both_frame R1 R2 `{!Frame R1} `{!Frame R2} : Frame (both R1 R2).
Proof.
  refine {| frame_context := λ context context',
              frame_context (R := R1) context context'
              ∧ frame_context (R := R2) context context';
            frame_message := λ m, frame_message (R := R1) m ∧ frame_message (R := R2) m |}.
  - intros f Hf. apply keeps_both; apply frame_modifyContext; intros context; apply Hf.
  - intros payload. split; apply frame_message_error.
  - intros m [H1 H2]. apply keeps_both; by apply frame_sendMessage.
  - intros payload. apply keeps_both; apply frame_schedule.
  - intros e. apply keeps_both; apply frame_emit.
  - intros n c. split; apply frame_randomDraws.
  - intros n c. split; apply frame_teamListeners.
Defined.

(** What no guard and no assignment other than [deriveSharedKey] changes. *)
Definition untouched : relation Connection :=
  both outside (both inside (both sameKey sameProofs)).

(** The session key is [k]. *)
Definition keyIs (k : option string) (c : Connection) : Prop := keyOf c = k.

#[global] Instance keyIs_stable k : Stable (keyIs k) untouched.
Proof. intros c c' Hc (_ & _ & Hkey & _). unfold keyIs, sameKey in *. congruence. Qed.

End Logic.

(** *** Every action and every guard keeps a frame *)

Ltac head_of t :=
  lazymatch t with
  | ?f _ => head_of f
  | _ => t
  end.

Ltac frame_side := first [ done | by simpl | by apply frame_teamListeners ].

(** One step through the code of an action or guard. *)
Ltac frame_step :=
  cbv beta zeta;
  lazymatch goal with
  | |- keeps _ (bind _ _) => apply keeps_bind; [exact _ | | intros ?]
  | |- keeps _ (ret _) => apply keeps_ret; exact _
  | |- keeps _ (throw _) => apply keeps_throw; exact _
  | |- keeps _ (gets _) => apply keeps_gets; exact _
  | |- keeps _ (ignoreThrow _) => apply keeps_ignoreThrow
  | |- keeps _ (Connection.assert _) => apply keeps_assert; exact _
  | |- keeps _ (Connection.sendMessage _) => apply frame_sendMessage; frame_side
  | |- keeps _ (Connection.modifyContext _) =>
      apply frame_modifyContext; intros ?; frame_side
  | |- keeps _ (Connection.createError _ _) => apply keeps_createError; [exact _ |]
  | |- keeps _ (Connection.emit _) => apply frame_emit
  | |- keeps _ Connection.drawRandomKey => apply keeps_drawRandomKey; exact _
  | |- keeps _ Connection.context => apply keeps_pure; [exact _ | apply pure_context]
  | |- keeps _ Connection.userName => apply keeps_pure; [exact _ | apply pure_userName]
  | |- keeps _ Connection.peerName => apply keeps_pure; [exact _ | apply pure_peerName]
  | |- keeps _ Connection.team => apply keeps_pure; [exact _ | apply pure_team]
  | |- keeps _ (modify _) => apply keeps_modify; intros ?; frame_side
  | |- keeps _ (match ?x with _ => _ end) => destruct x
  | |- keeps _ (Connection.body ?a _) =>
      first [ progress cbn [Connection.body] | let h := head_of a in unfold h ]
  | |- keeps _ ?m => let h := head_of m in unfold h
  end.

Ltac frame := repeat frame_step.

(** The names of the actions that are plain functions rather than
    assignments: the ones [perform] keeps for later. *)
Definition isPlain (name : Action.t) : bool :=
  match name with
  | Action.sendHello | Action.acceptInvitation | Action.joinTeam
  | Action.confirmIdentityExists | Action.proveIdentity | Action.acceptIdentity
  | Action.sendUpdate | Action.sendMissingLinks | Action.listenForTeamUpdates
  | Action.sendSeed | Action.receiveEncryptedMessage
  | Action.onConnected | Action.onJoined | Action.onUpdated | Action.onDisconnected => true
  | _ => false
  end.

Fixpoint plainOf (acts : list Action.t) : list Action.t :=
  match acts with
  | [] => []
  | name :: rest => if isPlain name then name :: plainOf rest else plainOf rest
  end.

Section Frames.
Context `{Externals}.

Lemma actions_keep_outside name event :
  keeps outside (Connection.body (Connection.implementation name) event).
Proof. destruct name; cbn [Connection.implementation]; frame. Qed.

Lemma actions_keep_inside name event :
  keeps inside (Connection.body (Connection.implementation name) event).
Proof. destruct name; cbn [Connection.implementation]; frame. Qed.

Lemma actions_keep_sameKey name event :
  name ≠ Action.deriveSharedKey →
  keeps sameKey (Connection.body (Connection.implementation name) event).
Proof. intros Hname. destruct name; try done; cbn [Connection.implementation]; frame. Qed.

Lemma actions_keep_sameProofs name event :
  name ≠ Action.sendHello →
  keeps sameProofs (Connection.body (Connection.implementation name) event).
Proof. intros Hname. destruct name; try done; cbn [Connection.implementation]; frame. Qed.

Lemma implementation_kind name :
  match Connection.implementation name with
  | Connection.assign _ => isPlain name = false
  | Connection.exec _ => isPlain name = true
  end.
Proof. by destruct name. Qed.

(** [perform] evaluates the assignments and returns the plain actions. *)
Lemma perform_keeps R `{!PreOrder R} acts event :
  Forall (λ name, isPlain name = false →
                  keeps R (Connection.body (Connection.implementation name) event)) acts →
  keeps R (Connection.perform acts event).
Proof.
  induction 1 as [|name acts Hname _ IH]; simpl.
  - apply keeps_ret; exact _.
  - pose proof (implementation_kind name) as Hkind.
    destruct (Connection.implementation name) as [update|run]; simpl in *.
    + apply keeps_bind; [exact _ | by apply Hname | done].
    + apply keeps_bind; [exact _ | done |]. intros later. apply keeps_ret; exact _.
Qed.

Lemma perform_returns acts event c later c' :
  Connection.perform acts event c = (Returned later, c') → later = plainOf acts.
Proof.
  revert c later. induction acts as [|name acts IH]; intros c later; simpl.
  - by intros [= <- <-].
  - pose proof (implementation_kind name) as Hkind.
    destruct (Connection.implementation name) as [update|run]; rewrite Hkind; unfold bind.
    + destruct (update event c) as [[[]|e] c1]; [|done]. apply IH.
    + destruct (Connection.perform acts event c) as [[later'|e] c1] eqn:Hrest; [|done].
      simpl. intros [= <- <-]. f_equal. by eapply IH.
Qed.

Lemma yields_bind_perform {B} I R `{!PreOrder R} `{!Stable I R} acts event
    (k : list Action.t → M B) K :
  Forall (λ name, isPlain name = false →
                  keeps R (Connection.body (Connection.implementation name) event)) acts →
  yields I R (k (plainOf acts)) K →
  yields I R (bind (Connection.perform acts event) k) K.
Proof.
  intros Hacts Hk.
  apply (yields_bind I R _ _ (λ later, later = plainOf acts)); [done | |].
  - intros c _. split; [by apply perform_keeps|]. intros later Hlater.
    destruct (Connection.perform acts event c) as [r c'] eqn:Hperform. simpl in Hlater.
    subst r. by eapply perform_returns.
  - by intros later ->.
Qed.

Lemma execute_keeps R `{!PreOrder R} name event :
  (isPlain name = true → keeps R (Connection.body (Connection.implementation name) event)) →
  keeps R (Connection.execute name event).
Proof.
  intros Hname. unfold Connection.execute. pose proof (implementation_kind name) as Hkind.
  destruct (Connection.implementation name); [apply keeps_ret; exact _ | by apply Hname].
Qed.

End Frames.

(** *** The rows of the machine *)

(** What can be said of the transition [(t, acts)] that [event] selects in
    state [s]. *)
Record Row (s : ProtocolState) (event : Event) (t : ProtocolState) (acts : list Action.t)
    : Prop := {
  row_hello :
    In Action.sendHello acts →
    s = disconnected false ∧ t = connecting initializing claimingIdentity
    ∧ acts = [Action.sendHello];
  row_derive : In Action.deriveSharedKey acts → s = negotiating ∧ t = connected;
  row_connected :
    s = negotiating → t = connected →
    acts = [Action.receiveSeed; Action.deriveSharedKey; Action.onConnected];
  row_fail : ∀ name, isFail name = true → In name acts → t = failure;
  row_error : isError event = true → t = failure;
  row_source : isFinal s = false;
  row_target :
    match t with
    | disconnected false => False
    | disconnected true => s = connected ∧ acts = [Action.onDisconnected]
    | connecting _ _ => s = disconnected false ∨ inHandshake s = true
    | synchronizing => s = synchronizing ∨ s = connected
    | negotiating => False
    | connected => s = negotiating ∨ s = connected
    | failure => last acts = Some Action.onDisconnected
    end }.

(** What can be said of the state and the deferred actions [r] that the
    eventless transitions lead to from [t], when the session key is [k]. *)
Record Settled (k : option string) (t : ProtocolState) (r : ProtocolState * list Action.t)
    : Prop := {
  settled_hello : ¬ In Action.sendHello r.2;
  settled_claiming : t = connecting initializing claimingIdentity → r.2 = [];
  settled_target :
    match r.1 with
    | disconnected b => t = disconnected b ∧ r.2 = []
    | connecting _ _ => inHandshake t = true
    | synchronizing => t = synchronizing ∨ inHandshake t = true
    | negotiating =>
        (t = negotiating ∧ r.2 = []) ∨ (k = None ∧ (t = synchronizing ∨ inHandshake t = true))
    | connected =>
        (t = connected ∧ r.2 = []) ∨ (k ≠ None ∧ (t = synchronizing ∨ inHandshake t = true))
    | failure =>
        (t = failure ∧ r.2 = [])
        ∨ (last r.2 = Some Action.onDisconnected ∧ (t = synchronizing ∨ inHandshake t = true))
    end }.

Section Untouched.
Context `{Externals}.

#[global] Instance untouched_preorder : PreOrder untouched.
Proof. unfold untouched. exact _. Qed.

#[global] Instance untouched_frame : Frame untouched.
Proof. unfold untouched. exact _. Defined.

Lemma assignments_keep_untouched name event :
  name ≠ Action.deriveSharedKey → isPlain name = false →
  keeps untouched (Connection.body (Connection.implementation name) event).
Proof.
  intros Hname Hplain. repeat apply keeps_both.
  - apply actions_keep_outside.
  - apply actions_keep_inside.
  - by apply actions_keep_sameKey.
  - apply actions_keep_sameProofs. by intros ->.
Qed.

Lemma dontHaveSessionkey_yields k event :
  yields (keyIs k) untouched (Connection.guards.dontHaveSessionkey event)
    (λ fresh, fresh = match k with None => true | Some _ => false end).
Proof.
  intros c Hc. split; [reflexivity|]. unfold keyIs, keyOf in Hc.
  unfold Connection.guards.dontHaveSessionkey, Connection.getContext, bind, gets, ret. simpl.
  intros fresh [= <-]. by rewrite Hc.
Qed.

End Untouched.

(** Symbolic execution of the machine: transitions are followed case by
    case; guards and actions are framed as a whole. *)
Ltac opaque_step :=
  apply yields_bind_keeps;
  [exact _ | exact _ | solve [frame | repeat apply keeps_both; frame] | intros ?].

Ltac run_step perform_side :=
  cbv beta zeta;
  cbn [Connection.protocolMachine.to Connection.protocolMachine.entry app eventMessage
       message plainOf isPlain isFinal fst snd];
  lazymatch goal with
  | |- yields _ _ (ret _) _ => apply yields_ret; [exact _ |]
  | |- yields _ _ (throw _) _ => apply yields_throw; exact _
  | |- yields _ _ (bind (ret _) _) _ => apply yields_bind_ret
  | |- yields _ _ (bind (throw _) _) _ => apply yields_bind_throw; exact _
  | |- yields _ _ (bind (bind _ _) _) _ => apply yields_bind_assoc
  | |- yields _ _ (bind (match ?x with _ => _ end) _) _ => destruct x
  | |- yields _ _ (bind (Connection.perform _ _) _) _ =>
      apply yields_bind_perform; [exact _ | exact _ | perform_side |]
  | |- yields (keyIs ?k) _ (bind (Connection.guards.dontHaveSessionkey ?e) _) _ =>
      eapply yields_bind;
      [exact _ | exact _ | apply (dontHaveSessionkey_yields k e) | intros ? ->; destruct k]
  | |- yields _ _ (bind ?m _) _ =>
      let h := head_of m in
      lazymatch h with
      | @Connection.protocolMachine.on => unfold h
      | @Connection.protocolMachine.connecting_on => unfold h
      | @Connection.protocolMachine.invitation_on => unfold h
      | @Connection.protocolMachine.invitation_always => unfold h
      | @Connection.protocolMachine.authenticating_on => unfold h
      | @Connection.protocolMachine.synchronizing_always => unfold h
      | @Connection.settle => unfold h
      | @Connection.settle_synchronizing => unfold h
      | _ => opaque_step
      end
  | |- yields _ _ (match ?x with _ => _ end) _ => destruct x
  | |- yields _ _ ?m _ => let h := head_of m in unfold h
  end.

Ltac run perform_side := repeat (run_step perform_side).

(** The facts about a concrete row. *)
Ltac row_facts :=
  simpl; try done; split; simpl; try done; unfold not; intros;
  repeat match goal with
         | H : _ ∨ _ |- _ => destruct H
         | H : _ ∧ _ |- _ => destruct H
         | H : False |- _ => destruct H
         end;
  subst; simpl in *; try done; try congruence; intuition (done || congruence).

Ltac assignments_side :=
  repeat (constructor; [intros; by apply assignments_keep_untouched |]); by constructor.

Section Machine.
Context `{Externals}.

(** The transition an event selects. *)
Lemma on_rows s event :
  yields (λ _, True) untouched (Connection.protocolMachine.on s event)
    (λ selected,
       match selected with
       | Some (t, acts) => Row s event t acts
       | None => isError event = true → isFinal s = true
       end).
Proof.
  destruct event as [[idx msg]|msg|].
  all: run assignments_side.
  all: row_facts.
Qed.

(** The eventless transitions that follow. *)
Lemma settle_rows k t event :
  yields (keyIs k) untouched (Connection.settle t event) (Settled k t).
Proof.
  run assignments_side.
  all: row_facts.
Qed.

Lemma plainOf_In name acts : In name (plainOf acts) → In name acts.
Proof.
  induction acts as [|a acts IH]; simpl; [done|].
  destruct (isPlain a); simpl; intuition.
Qed.

(** The assignments of a transition keep what every assignment keeps. *)
Lemma perform_keeps_rest acts event :
  keeps (both outside (both inside sameProofs)) (Connection.perform acts event).
Proof.
  apply perform_keeps; [exact _|]. apply Forall_forall. intros name _ Hplain.
  repeat apply keeps_both.
  - apply actions_keep_outside.
  - apply actions_keep_inside.
  - apply actions_keep_sameProofs. by intros ->.
Qed.

Lemma perform_keeps_key acts event :
  ¬ In Action.deriveSharedKey acts → keeps sameKey (Connection.perform acts event).
Proof.
  intros Hacts. apply perform_keeps; [exact _|]. apply Forall_forall.
  intros name Hname%list_elem_of_In _. apply actions_keep_sameKey. by intros ->.
Qed.

End Machine.

(** What can be said of a macrostep from [s] that ends in [t] with the
    actions [later] still to execute; the session key was [k0] before and is
    [k] then. *)
Record Resolved (s : ProtocolState) (event : Event) (k0 k : option string)
    (t : ProtocolState) (later : list Action.t) : Prop := {
  resolved_hello :
    In Action.sendHello later →
    s = disconnected false ∧ t ≠ disconnected false ∧ later = [Action.sendHello];
  resolved_error : isError event = true → isFinal t = true;
  resolved_key : s ≠ negotiating ∨ t ≠ connected → k = k0;
  resolved_target :
    match t with
    | disconnected false => s = disconnected false
    | connecting _ _ => s = disconnected false ∨ inHandshake s = true
    | negotiating => s = negotiating ∨ k = None
    | connected => s = connected ∨ k ≠ None
    | _ => True
    end }.

Section Macrostep.
Context `{Externals}.

(** The two assignments on the way from [negotiating] to [connected] leave
    a session key. *)
Lemma perform_deriveSharedKey event c later c' :
  Connection.perform [Action.receiveSeed; Action.deriveSharedKey; Action.onConnected] event c
  = (Returned later, c') →
  keyOf c' ≠ None.
Proof.
  simpl. unfold bind, Connection.getContext, Connection.modifyContext, Connection.assert,
    gets, modify, ret, throw.
  intros Hperform. repeat (case_match; simplify_eq; simpl in * ); try done.
Qed.

Lemma resolve_spec s event c :
  let r := Connection.resolve s event c in
  outside c r.2 ∧ inside c r.2 ∧ sameProofs c r.2
  ∧ ∀ t later, r.1 = Returned (t, later) → Resolved s event (keyOf c) (keyOf r.2) t later.
Proof.
  unfold Connection.resolve, bind.
  destruct (on_rows s event c I) as [(Ho1 & Hi1 & Hk1 & Hp1) Hrow].
  destruct (Connection.protocolMachine.on s event c) as [[selected|e] c1]; simpl in *;
    [|by split_and!].
  specialize (Hrow _ eq_refl). destruct selected as [[t0 acts]|]; simpl.
  - destruct (perform_keeps_rest acts event c1) as (Ho2 & Hi2 & Hp2).
    pose proof (perform_returns acts event c1) as Hlater.
    pose proof (λ Hn, perform_keeps_key acts event Hn c1) as Hk2.
    assert (acts = [Action.receiveSeed; Action.deriveSharedKey; Action.onConnected] →
            ∀ later c', Connection.perform acts event c1 = (Returned later, c') →
                        keyOf c' ≠ None) as Hderive
      by (intros ->; apply perform_deriveSharedKey).
    destruct (Connection.perform acts event c1) as [[later|e] c2]; simpl in *.
    + specialize (Hlater _ _ eq_refl). subst later.
      destruct (settle_rows (keyOf c2) t0 event c2 eq_refl) as [(Ho3 & Hi3 & Hk3 & Hp3) Hsettled].
      destruct (Connection.settle t0 event c2) as [[r|e] c3]; simpl in *.
      * specialize (Hsettled _ eq_refl). split_and!.
        -- by do 2 (etrans; [eassumption|]).
        -- by do 2 (etrans; [eassumption|]).
        -- by do 2 (etrans; [eassumption|]).
        -- intros t later [= <- <-].
           destruct Hrow as [Hhello Hrowderive Hconnected _ Herror _ Htarget],
             Hsettled as [Hnone Hclaim Hsettled].
           rewrite Hk3. split.
           ++ intros [Hin|Hin]%in_app_or; [|done].
              apply plainOf_In in Hin. destruct (Hhello Hin) as (-> & -> & ->).
              split; [done|]. simpl. rewrite Hclaim; [|done]. split; [|done].
              intros Hr. rewrite Hr in Hsettled. by destruct Hsettled.
           ++ intros Hev. specialize (Herror Hev). subst t0.
              destruct r.1 as [[]|? ?| | | |]; simpl in *; intuition (done || congruence).
           ++ intros Hkey. rewrite <- Hk1. apply Hk2. intros [-> ->]%Hrowderive.
              destruct r.1 as [[]|? ?| | | |]; simpl in *; intuition (done || congruence).
           ++ destruct r.1 as [[]|? ?| | | |] eqn:Hr, t0 as [[]|? ?| | | |];
                simpl in *; try (intuition (done || congruence)).
              destruct Htarget as [->| ->]; [|by left].
              right. by eapply Hderive; [apply Hconnected|].
      * split_and!; try (by do 2 (etrans; [eassumption|])); done.
    + split_and!; try (by etrans; [eassumption|]); done.
  - split_and!; try done. intros t later [= <- <-]. split.
    + done.
    + done.
    + by rewrite Hk1.
    + destruct s as [[]|? ?| | | |]; simpl; try (intuition (done || congruence)).
Qed.

End Macrostep.

(** *** The invariant of a connection *)

Section Invariant.
Context `{Externals}.

(** What holds of a connection between two calls ([strict]), and of a
    connection whose interpreter has taken an event and not yet the events
    scheduled meanwhile. *)
Record Inv (strict : bool) (c : Connection) : Prop := {
  inv_queue : ∃ errors, queueOf c = errorEvents errors ∧ (strict = true → errors = []);
  inv_running : statusOf c = Running → started c = true ∧ doneOf c = isFinal (valueOf c);
  inv_final : isFinal (valueOf c) = true → doneOf c = true;
  inv_unstarted :
    started c = false → valueOf c = disconnected false ∧ keyOf c = None ∧ sent c = [];
  inv_key :
    match valueOf c with
    | disconnected false | connecting _ _ | negotiating => keyOf c = None
    | connected => keyOf c ≠ None
    | _ => True
    end;
  inv_proofs :
    (length (proofsSent c) ≤ 1)%nat ∧ (valueOf c = disconnected false → proofsSent c = []) }.
End Invariant.

Ltac fields := unfold statusOf, valueOf, doneOf, queueOf, keyOf, proofsSent in *.

Section Execution.
Context `{Externals}.

Lemma execute_keeps_rest later event :
  keeps (both outside (both inside sameKey))
    (Connection.forEach later (λ name, Connection.execute name event)).
Proof.
  apply keeps_forEach; [exact _|]. intros name.
  apply execute_keeps; [exact _|]. intros Hplain. repeat apply keeps_both.
  - apply actions_keep_outside.
  - apply actions_keep_inside.
  - apply actions_keep_sameKey. by intros ->.
Qed.

Lemma execute_keeps_proofs later event :
  ¬ In Action.sendHello later →
  keeps sameProofs (Connection.forEach later (λ name, Connection.execute name event)).
Proof.
  induction later as [|name later IH]; simpl; intros Hlater.
  - apply keeps_ret; exact _.
  - apply keeps_bind; [exact _ | | intros _; apply IH; tauto].
    apply execute_keeps; [exact _|]. intros _. apply actions_keep_sameProofs.
    intros ->. tauto.
Qed.

Lemma proofsSent_sendMessage m c :
  proofsSent (Connection.sendMessage m c).2
  = proofsSent c ++ (if carriesProof m then [numbered (outgoingMessageIndex c) m] else []).
Proof.
  unfold proofsSent. simpl. rewrite filter_app. f_equal.
  destruct (carriesProof m) eqn:Hm.
  - by rewrite filter_cons_True.
  - rewrite filter_cons_False; [done|]. simpl. by rewrite Hm.
Qed.

(** What [sendHello] does: nothing, or send one HELLO, with a proof of
    invitation exactly when the context has an invitee and no team. *)
Lemma sendHello_spec event c :
  let context := State.context (machineState c) in
  let c' := (Connection.execute Action.sendHello event c).2 in
  c' = c
  ∨ ∃ proof,
      c' = (Connection.sendMessage (HELLO {|
              HelloPayload.identityClaim :=
                Some (Invitee.make DEVICE (getDeviceId (Context.device context)));
              HelloPayload.proofOfInvitation := proof |}) c).2
      ∧ (proof ≠ None ↔ hasInvitee context = true ∧ Context.team context = None).
Proof.
  simpl. cbv [ignoreThrow bind Connection.getContext Connection.team Connection.context
    Connection.myProofOfInvitation Connection.assert gets ret throw]. simpl.
  destruct (hasInvitee _) eqn:Hinvitee; simpl.
  - destruct (started c); simpl; [|by left].
    destruct (Context.team _) eqn:Hteam; simpl.
    + right. exists None. split; [done|]. split; [done|]. by intros [_ [=]].
    + destruct (Context.invitationSeed _); simpl; [|by left].
      destruct (Context.invitee _); simpl; [|by left].
      right. eexists (Some _). by split.
  - right. exists None. split; [done|]. split; [done|]. by intros [[=] _].
Qed.

Lemma execute_sendHello event c :
  let c' := (Connection.forEach [Action.sendHello]
               (λ name, Connection.execute name event) c).2 in
  proofsSent c' = proofsSent c ∨ ∃ m, proofsSent c' = proofsSent c ++ [m].
Proof.
  intros c'.
  assert (c' = (Connection.execute Action.sendHello event c).2) as ->.
  { subst c'. cbn [Connection.forEach]. unfold bind.
    by destruct (Connection.execute Action.sendHello event c) as [[[]|e] c1]. }
  destruct (sendHello_spec event c) as [->|(proof & -> & _)]; [by left|].
  rewrite proofsSent_sendMessage.
  destruct (carriesProof _); [right; by eexists | left; by rewrite app_nil_r].
Qed.

End Execution.

Section Process.
Context `{Externals}.

(** The interpreter takes an event. *)
Lemma process_Inv event c :
  Inv true c → statusOf c = Running →
  let c' := (Connection.process event c).2 in
  Inv (isError event) c' ∧ outside c c' ∧ statusOf c' ≠ NotStarted
  ∧ ∀ k, keyOf c = Some k → keyOf c' = Some k.
Proof.
  intros [(errors & Hqueue & Hstrict) Hrunning Hfinal _ Hkey Hproofs] Hstatus.
  rewrite (Hstrict eq_refl) in Hqueue. clear Hstrict errors.
  destruct (Hrunning Hstatus) as [Hstarted Hdone].
  unfold Connection.process.
  destruct (resolve_spec (valueOf c) event c) as (Ho1 & Hi1 & Hp1 & Hres).
  change (State.value (machineState c)) with (valueOf c).
  destruct (Connection.resolve (valueOf c) event c) as [[[t later]|e] c1]; simpl in *.
  - specialize (Hres _ _ eq_refl).
    set (cm := set_done (isFinal t) (set_value t c1)).
    change (bind (Connection.commit t)
              (λ _, Connection.forEach later (λ name, Connection.execute name event)) c1)
      with (Connection.forEach later (λ name, Connection.execute name event) cm).
    destruct (execute_keeps_rest later event cm) as (Ho2 & Hi2 & Hk2).
    pose proof (λ Hn, execute_keeps_proofs later event Hn cm) as Hp2.
    assert (later = [Action.sendHello] →
            let c2 := (Connection.forEach later (λ name, Connection.execute name event) cm).2 in
            proofsSent c2 = proofsSent cm ∨ ∃ m, proofsSent c2 = proofsSent cm ++ [m]) as Hhello
      by (intros ->; apply execute_sendHello).
    cbv zeta in Hhello.
    assert (outside c cm) as Ho by (by destruct Ho1).
    destruct Hi1 as [Hs1 Hv1 Hd1 [errors1 Hq1]], Hi2 as [Hs2 Hv2 Hd2 [errors2 Hq2]].
    destruct Hres as [Hsent Herror Hsame Htarget].
    unfold sameProofs, sameKey in *.
    destruct (Connection.forEach later _ cm) as [r2 c2]. cbn [snd] in *.
    assert (outside c c2) as Hoc by (by etrans).
    assert (started c2 = true) as Hstarted2 by (destruct Hoc; congruence).
    assert (valueOf c2 = t) as Hvalue2 by (by fields; rewrite Hv2).
    assert (doneOf c2 = isFinal t) as Hdone2 by (by fields; rewrite Hd2).
    assert (statusOf c2 = Running) as Hstatus2 by (fields; simpl in *; congruence).
    assert (queueOf c2 = errorEvents (errors1 ++ errors2)) as Hqueue2.
    { fields. simpl in *. rewrite Hq2, Hq1, Hqueue. unfold errorEvents. by rewrite fmap_app. }
    assert (keyOf c2 = keyOf c1) as Hkey2 by (by rewrite Hk2).
    assert (match t with
            | disconnected false | connecting _ _ | negotiating => keyOf c2 = None
            | connected => keyOf c2 ≠ None
            | _ => True
            end) as HkeyOk.
    { rewrite Hkey2. destruct t as [[]|? ?| | | |]; try done.
      - rewrite Hsame by (by right). by rewrite Htarget in Hkey.
      - rewrite Hsame by (by right).
        destruct Htarget as [Hs|Hs]; [by rewrite Hs in Hkey|].
        by destruct (valueOf c) as [[]|? ?| | | |].
      - destruct Htarget as [Hs|Hs]; [|done]. rewrite Hsame by (by right). by rewrite Hs in Hkey.
      - destruct Htarget as [Hs|Hs]; [|done]. rewrite Hsame; [|left; by rewrite Hs].
        by rewrite Hs in Hkey. }
    assert ((length (proofsSent c2) ≤ 1)%nat
            ∧ (t = disconnected false → proofsSent c2 = [])) as HproofsOk.
    { change (proofsSent cm) with (proofsSent c1) in *. rewrite Hp1 in *.
      destruct (in_dec Action.eq_dec Action.sendHello later) as [Hin|Hin].
      - destruct (Hsent Hin) as (Hs & Ht & Hlater).
        destruct Hproofs as [_ Hnone]. rewrite (Hnone Hs) in Hhello.
        destruct (Hhello Hlater) as [->|[m ->]]; simpl; split; (lia || done).
      - rewrite Hp2 by done.
        split; [apply Hproofs|]. intros ->. destruct Htarget. by apply Hproofs. }
    assert (∀ k, keyOf c = Some k → keyOf c2 = Some k) as Himmutable.
    { intros k Hk. rewrite Hkey2, Hsame; [done|]. left. intros Hs. rewrite Hs in Hkey. congruence. }
    assert (∀ c', c' = c2 ∧ isFinal t = false
                  ∨ c' = set_queue [] c2 ∨ c' = set_queue [] (set_status Stopped c2) →
                  Inv (isError event) c' ∧ outside c c' ∧ statusOf c' ≠ NotStarted
                  ∧ ∀ k, keyOf c = Some k → keyOf c' = Some k) as Hfinish.
    { intros c' Hc'.
      assert (started c' = started c2 ∧ valueOf c' = valueOf c2 ∧ doneOf c' = doneOf c2
              ∧ keyOf c' = keyOf c2 ∧ proofsSent c' = proofsSent c2 ∧ outside c2 c'
              ∧ (statusOf c' = Running ∨ statusOf c' = Stopped)
              ∧ (queueOf c' = [] ∨ isFinal t = false ∧ queueOf c' = queueOf c2))
        as (Hst & Hva & Hdo & Hke & Hpr & Hou & Hsta & Hqu).
      { destruct Hc' as [[-> ?]|[->| ->]]; split_and!; try done; fields; simpl; auto. }
      split_and!.
      - split.
        + destruct Hqu as [->|[Hfin ->]]; [exists []; by destruct (isError event)|].
          exists (errors1 ++ errors2). split; [done|]. intros Hev. rewrite Herror in Hfin; done.
        + intros _. rewrite Hst, Hva, Hdo, Hvalue2. done.
        + rewrite Hva, Hdo, Hvalue2, Hdone2. done.
        + rewrite Hst, Hstarted2. done.
        + rewrite Hva, Hke, Hvalue2. done.
        + rewrite Hva, Hpr, Hvalue2. done.
      - by etrans.
      - destruct Hsta as [->| ->]; done.
      - intros k Hk. rewrite Hke. by apply Himmutable. }
    destruct r2 as [[]|e]; [destruct (isFinal t) eqn:Hfin|]; apply Hfinish; auto.
  - destruct Ho1, Hi1 as [? ? ? [errors1 Herrors1]]. unfold sameProofs in Hp1.
    split_and!.
    + split; simpl.
      * exists []. by destruct (isError event).
      * intros _. fields. simpl. split; [congruence|done].
      * fields. simpl. done.
      * congruence.
      * fields. simpl. done.
      * fields. simpl in *. rewrite Hp1. done.
    + by split.
    + unfold statusOf in *. simpl. congruence.
    + intros k. unfold keyOf. simpl. done.
Qed.

Lemma process_throws event c e :
  (Connection.process event c).1 = Threw e → queueOf (Connection.process event c).2 = [].
Proof.
  unfold Connection.process.
  destruct (Connection.resolve _ event c) as [[[t later]|e1] c1]; [|done].
  destruct (bind _ _ c1) as [[[]|e2] c2]; [|done].
  by destruct (isFinal t).
Qed.

Lemma Inv_strict strict c : Inv strict c → queueOf c = [] → Inv true c.
Proof. intros [] Hqueue. split; try done. by exists []. Qed.

(** The connection after a step: still well-formed, started if it was, and
    with the session key it had, if it had one. *)
Definition evolves (c c' : Connection) : Prop :=
  Inv true c' ∧ (started c = true → started c' = true)
  ∧ ∀ k, keyOf c = Some k → keyOf c' = Some k.

Definition sound {A} (m : M A) : Prop := ∀ c, Inv true c → evolves c (m c).2.

Lemma evolves_refl c : Inv true c → evolves c c.
Proof. by split. Qed.

Lemma evolves_trans c1 c2 c3 : evolves c1 c2 → evolves c2 c3 → evolves c1 c3.
Proof. intros (? & ? & ?) (? & ? & ?). split_and!; auto. Qed.

Lemma sound_ret {A} (a : A) : sound (ret a).
Proof. intros c Hc. by apply evolves_refl. Qed.

Lemma sound_throw {A} e : sound (throw (A := A) e).
Proof. intros c Hc. by apply evolves_refl. Qed.

Lemma sound_gets {A} (f : Connection → A) : sound (gets f).
Proof. intros c Hc. by apply evolves_refl. Qed.

Lemma sound_bind {A B} (m : M A) (k : A → M B) : sound m → (∀ a, sound (k a)) → sound (bind m k).
Proof.
  intros Hm Hk c Hc. unfold bind. specialize (Hm c Hc).
  destruct (m c) as [[a|e] c1]; simpl in *; [|done].
  eapply evolves_trans; [done|]. apply Hk, Hm.
Qed.

Lemma sound_ignoreThrow (m : M unit) : sound m → sound (ignoreThrow m).
Proof. intros Hm c Hc. apply Hm, Hc. Qed.

Lemma sound_forEach {A} (l : list A) (f : A → M unit) :
  (∀ x, sound (f x)) → sound (Connection.forEach l f).
Proof.
  intros Hf. induction l as [|x l IH]; simpl; [apply sound_ret|].
  apply sound_bind; [apply Hf | done].
Qed.

(** Taking the events scheduled meanwhile: each is an ERROR, which ends in a
    final state, so the schedule is empty afterwards. *)
Lemma take_error p c :
  Inv true c →
  let c' := (Connection.take (fromSelf (ERROR p)) c).2 in
  evolves c c' ∧ outside c c'.
Proof.
  intros Hc. unfold Connection.take, bind, gets. simpl.
  destruct (Interpreter.status (machine c)) eqn:Hstatus; simpl.
  1, 3: by split; [apply evolves_refl|].
  destruct (process_Inv (fromSelf (ERROR p)) c Hc Hstatus) as (Hinv & Hout & _ & Hkey).
  split; [|done]. split_and!; [done | | done]. destruct Hout. congruence.
Qed.

Lemma flush_loop errors c :
  Inv true c →
  let c' := (Connection.forEach (errorEvents errors) Connection.take c).2 in
  evolves c c' ∧ outside c c'.
Proof.
  revert c. induction errors as [|p errors IH]; intros c Hc; simpl;
    [by split; [apply evolves_refl|]|].
  destruct (take_error p c Hc) as [Hstep Hout]. unfold bind.
  destruct (Connection.take (fromSelf (ERROR p)) c) as [[[]|e] c1]; simpl in *; [|done].
  destruct (IH c1) as [Hrest Hout']; [apply Hstep|].
  split; [by eapply evolves_trans | by etrans].
Qed.

Lemma flush_Inv c :
  Inv false c →
  let c' := (Connection.flush c).2 in
  Inv true c' ∧ outside c c' ∧ (started c = true → started c' = true)
  ∧ ∀ k, keyOf c = Some k → keyOf c' = Some k.
Proof.
  intros [(errors & Hqueue & _) Hrunning Hfinal Hunstarted Hkey Hproofs].
  assert (Connection.flush c
          = Connection.forEach (errorEvents errors) Connection.take (set_queue [] c)) as ->.
  { rewrite <- Hqueue. reflexivity. }
  destruct (flush_loop errors (set_queue [] c)) as [(Hinv & Hstarted & Himmutable) Hout].
  { split; try done. by exists []. }
  split_and!; try done.
  etrans; [|exact Hout]. by split.
Qed.

(** An event sent to the machine by a method of the connection. *)
Lemma machine_send_Inv event c :
  Inv true c →
  let c' := (Connection.machine_send event c).2 in
  evolves c c' ∧ outside (set_machineEvents (machineEvents c ++ [event]) c) c'.
Proof.
  intros Hc.
  set (c0 := set_machineEvents (machineEvents c ++ [event]) c).
  assert (Inv true c0) as Hc0 by (by destruct Hc).
  assert (Connection.machine_send event c
          = match statusOf c with
            | Running => bind (Connection.process event) (λ _, Connection.flush) c0
            | _ => (Returned tt, c0)
            end) as ->.
  { unfold Connection.machine_send, bind, gets, modify, statusOf. simpl.
    by destruct (Interpreter.status (machine c)). }
  destruct (statusOf c) eqn:Hstatus; simpl.
  1, 3: by split; [apply (evolves_refl c0)|].
  destruct (process_Inv event c0 Hc0 Hstatus) as (Hinv & Hout & _ & Hkey).
  pose proof (process_throws event c0) as Hthrows.
  assert (started c = true → started (Connection.process event c0).2 = true) as Hstarted.
  { destruct Hout as [_ Hs _ _ _ _]. simpl in Hs. congruence. }
  unfold bind.
  destruct (Connection.process event c0) as [[[]|e] c1]; simpl in *.
  - destruct (flush_Inv c1) as (Hinv' & Hout' & Hstarted' & Hkey').
    { destruct (isError event); [|done]. destruct Hinv as [(errors & ? & Hnil) ? ? ? ? ?].
      split; try done. by exists errors. }
    split; [|by etrans]. split_and!; [done | by auto | by auto].
  - split; [|done]. split_and!; [|done | done].
    eapply Inv_strict; [done|]. by eapply Hthrows.
Qed.

End Process.

Section Calls.
Context `{Externals}.

Lemma sound_modify (f : Connection → Connection) :
  (∀ c, machine (f c) = machine c ∧ started (f c) = started c ∧ sent (f c) = sent c) →
  sound (modify f).
Proof.
  intros Hf c [? ? ? ? ? ?]. destruct (Hf c) as (Hm & Hs & Hsent).
  unfold evolves. simpl. split_and!.
  - split; fields; unfold machineState in *; rewrite ?Hm, ?Hs, ?Hsent; done.
  - congruence.
  - unfold keyOf, machineState. by rewrite Hm.
Qed.

Lemma sound_machine_send event : sound (Connection.machine_send event).
Proof. intros c Hc. by apply machine_send_Inv. Qed.

Lemma sound_running : sound Connection.running.
Proof.
  unfold Connection.running.
  repeat (apply sound_bind; [apply sound_gets|]; intros ?). apply sound_ret.
Qed.

Lemma sound_deliver incomingMessage : sound (Connection.deliver incomingMessage).
Proof.
  unfold Connection.deliver. apply sound_bind; [apply sound_gets|]. intros queue.
  apply sound_bind; [by apply sound_modify|]. intros _.
  apply sound_forEach. intros m. apply sound_bind; [apply sound_running|].
  intros []; [apply sound_machine_send | apply sound_ret].
Qed.

(** Sending a message that carries no proof of invitation, once started. *)
Lemma sendMessage_evolves m c :
  Inv true c → started c = true → carriesProof m = false →
  evolves c (Connection.sendMessage m c).2.
Proof.
  intros [? ? ? ? ? ?] Hstarted Hm. split_and!; try done.
  split; try done.
  - simpl. congruence.
  - rewrite proofsSent_sendMessage, Hm, app_nil_r. done.
Qed.

Lemma sound_send message : sound (Connection.send message).
Proof.
  intros c Hc.
  unfold Connection.send, Connection.context, Connection.assert, bind, gets, throw, ret. simpl.
  destruct (started c) eqn:Hstarted; simpl; [|by apply evolves_refl].
  destruct (Context.sessionKey _); simpl; [|by apply evolves_refl].
  by apply sendMessage_evolves.
Qed.

(** Stopping the interpreter and marking the state as done. *)
Lemma sound_halt : sound (bind Connection.machine_stop (λ _, modify (set_done true))).
Proof.
  intros c [? ? ? ? ? ?]. unfold Connection.machine_stop, bind, modify. simpl.
  split_and!; try done. split; try done. by exists [].
Qed.

Lemma sound_stop : sound Connection.stop.
Proof.
  intros c Hc. unfold Connection.stop.
  assert (sound (bind Connection.removeAllListeners
                   (λ _, bind Connection.machine_stop (λ _, modify (set_done true)))))
    as Htail.
  { apply sound_bind; [by apply sound_modify|]. intros _. apply sound_halt. }
  unfold bind at 1. unfold Connection.running at 1, bind at 1, gets. simpl.
  destruct (started c) eqn:Hstarted; simpl; [|by apply Htail].
  destruct (State.done (machineState c)); simpl; [by apply Htail|].
  pose proof (sendMessage_evolves DISCONNECT c Hc Hstarted eq_refl) as Hsent.
  unfold bind at 1. unfold bind at 1.
  destruct (Connection.sendMessage DISCONNECT c) as [[[]|e] c1] eqn:Hsend; simpl in *; [|done].
  pose proof (sound_machine_send (fromSelf DISCONNECT) c1 (proj1 Hsent)) as Hmachine.
  destruct (Connection.machine_send (fromSelf DISCONNECT) c1) as [[[]|e] c2]; simpl in *.
  - eapply evolves_trans; [done|]. eapply evolves_trans; [done|]. apply Htail, Hmachine.
  - by eapply evolves_trans.
Qed.

Lemma sound_start storedMessages : sound (Connection.start storedMessages).
Proof.
  intros c Hc. unfold Connection.start. unfold bind at 1. unfold gets at 1.
  destruct (started c) eqn:Hstarted; cbn [negb]; [by apply sound_machine_send|].
  assert (sound (Connection.forEach storedMessages (λ m,
            match JSON_parse m with
            | Some parsed => ignoreThrow (Connection.deliver parsed)
            | None => throw "SyntaxError"
            end))) as Hreplay.
  { apply sound_forEach. intros m.
    destruct (JSON_parse m); [apply sound_ignoreThrow, sound_deliver | apply sound_throw]. }
  set (c1 := (Connection.sendMessage READY
                (set_started true
                   (set_status Running
                      (set_state (Connection.initialState (State.context (machineState c)))
                         c)))).2).
  assert (evolves c c1) as Hc1.
  { destruct Hc as [(errors & Hqueue & Hnil) _ _ Hunstarted _ _].
    destruct (Hunstarted Hstarted) as (Hvalue & Hkey & Hsent).
    subst c1. split_and!; try done. split; try done.
    - by exists errors.
    - fields. simpl. rewrite Hsent. simpl. split; [lia|done]. }
  change ((bind Connection.machine_start _) c) with
    (Connection.forEach storedMessages (λ m,
       match JSON_parse m with
       | Some parsed => ignoreThrow (Connection.deliver parsed)
       | None => throw "SyntaxError"
       end) c1).
  eapply evolves_trans; [done|]. apply Hreplay, Hc1.
Qed.

Lemma sound_run call : sound (run call).
Proof.
  destruct call; simpl.
  - apply sound_start.
  - apply sound_stop.
  - apply sound_deliver.
  - apply sound_send.
  - by apply sound_modify.
  - apply sound_bind; [apply sound_gets|]. intros [|n]; [apply sound_ret|].
    unfold Connection.teamUpdated. apply sound_bind; [apply sound_gets|].
    intros []; [apply sound_ret | apply sound_machine_send].
  - apply sound_machine_send.
Qed.

Lemma new_Inv params c : Connection.new params = Returned c → Inv true c.
Proof.
  unfold Connection.new. destruct params as [[user device team invitee seed] peer]. simpl.
  intros Hnew.
  assert (∃ context, c = Connection.fresh peer context ∧ Context.sessionKey context = None)
    as (context & -> & Hkey).
  { repeat (case_match; simplify_eq; simpl in * ); by eexists. }
  split; try done; [by exists [] | simpl; split; [lia|done]].
Qed.

(** Every connection that exists is well-formed. *)
Lemma reachable_Inv c : reachable c → Inv true c.
Proof.
  induction 1 as [params c Hnew|c call _ IH]; [by eapply new_Inv|]. by apply sound_run.
Qed.

End Calls.

Section Quiet.
Context `{Externals}.

(** DISCONNECT and RECONNECT from the connection itself: no guard is
    evaluated and no assignment made. *)
Lemma resolve_disconnect s c :
  Connection.resolve s (fromSelf DISCONNECT) c
  = (Returned (match s with
               | connected => (disconnected true, [Action.onDisconnected])
               | _ => (s, [])
               end), c).
Proof. destruct s as [[]|[] [|[] []]| | | |]; reflexivity. Qed.

Lemma resolve_reconnect s c :
  Connection.resolve s (fromSelf RECONNECT) c = (Returned (s, []), c).
Proof. destruct s as [[]|[] [|[] []]| | | |]; reflexivity. Qed.

Lemma machine_send_reconnect c :
  queueOf c = [] → (statusOf c = Running → doneOf c = isFinal (valueOf c)) →
  let r := Connection.machine_send (fromSelf RECONNECT) c in
  r.1 = Returned tt
  ∧ sent r.2 = sent c ∧ incomingMessageQueue r.2 = incomingMessageQueue c
  ∧ started r.2 = started c ∧ emitted r.2 = emitted c
  ∧ machineEvents r.2 = machineEvents c ++ [fromSelf RECONNECT]
  ∧ machineState r.2 = machineState c.
Proof.
  intros Hqueue Hdone.
  unfold Connection.machine_send, Connection.process, Connection.flush, Connection.commit,
    Connection.machine_stop, bind, gets, modify, ret. simpl.
  destruct c as [peer [status [value context done] queue] incoming outgoing started sent
                   emitted listeners events teamListeners draws].
  unfold queueOf, statusOf, doneOf, valueOf, machineState in *. simpl in *. subst queue.
  destruct status; simpl; try done.
  rewrite resolve_reconnect. simpl. rewrite Hdone by done.
  destruct (isFinal value); simpl; done.
Qed.

Lemma machine_send_disconnect c :
  queueOf c = [] →
  let r := Connection.machine_send (fromSelf DISCONNECT) c in
  r.1 = Returned tt ∧ sent r.2 = sent c ∧ incomingMessageQueue r.2 = incomingMessageQueue c
  ∧ started r.2 = started c
  ∧ machineEvents r.2 = machineEvents c ++ [fromSelf DISCONNECT].
Proof.
  intros Hqueue.
  unfold Connection.machine_send, Connection.process, Connection.flush, Connection.commit,
    Connection.machine_stop, bind, gets, modify, ret. simpl.
  destruct c as [peer [status [value context done] queue] incoming outgoing started sent
                   emitted listeners events teamListeners draws].
  unfold queueOf in *. simpl in *. subst queue.
  destruct status; simpl; try done.
  rewrite resolve_disconnect. simpl.
  destruct value as [[]|? ?| | | |]; simpl; done.
Qed.

(** [stop()] returns, and leaves a stopped interpreter whose state is done. *)
Lemma stop_spec c :
  Inv true c →
  ∃ c1, Connection.stop c
        = (Returned tt, set_done true (set_queue [] (set_status Stopped (set_listeners 0%nat c1))))
        ∧ sent c `prefix_of` sent c1.
Proof.
  intros Hc. unfold Connection.stop, Connection.running.
  unfold bind at 1. unfold bind at 1. unfold bind at 1. unfold gets. simpl.
  destruct (started c && negb (State.done (machineState c))) eqn:Hrunning; simpl.
  - assert (Inv true (Connection.sendMessage DISCONNECT c).2) as Hc1.
    { apply sendMessage_evolves; [done | | done]. by destruct (started c). }
    destruct Hc1 as [(errors & Hqueue & Hnil) _ _ _ _ _]. rewrite (Hnil eq_refl) in Hqueue.
    destruct (machine_send_disconnect _ Hqueue) as (Hreturns & Hsent & _).
    unfold bind at 1. unfold bind at 1.
    change (Connection.sendMessage DISCONNECT c)
      with (Returned tt, (Connection.sendMessage DISCONNECT c).2).
    cbv iota beta.
    destruct (Connection.machine_send (fromSelf DISCONNECT) _) as [r c2].
    simpl in Hreturns, Hsent. subst r.
    exists c2. split; [done|]. rewrite Hsent. simpl. by apply prefix_app_r.
  - by exists c.
Qed.

End Quiet.

Section Forwarding.
Context `{Externals}.

Lemma process_outside event c : outside c (Connection.process event c).2.
Proof.
  unfold Connection.process.
  destruct (resolve_spec (State.value (machineState c)) event c) as (Ho1 & _).
  destruct (Connection.resolve _ event c) as [[[t later]|e] c1]; simpl in *.
  - set (cm := set_done (isFinal t) (set_value t c1)).
    change (bind (Connection.commit t)
              (λ _, Connection.forEach later (λ name, Connection.execute name event)) c1)
      with (Connection.forEach later (λ name, Connection.execute name event) cm).
    destruct (execute_keeps_rest later event cm) as (Ho2 & _).
    assert (outside c cm) as Ho by (by destruct Ho1).
    destruct (Connection.forEach later _ cm) as [[[]|e] c2]; simpl in *.
    + destruct (isFinal t); simpl; (etrans; [exact Ho|]); by destruct Ho2.
    + etrans; [exact Ho|]. by destruct Ho2.
  - by destruct Ho1.
Qed.

Lemma keeps_process event : keeps outside (Connection.process event).
Proof. intros c. apply process_outside. Qed.

Lemma keeps_take event : keeps outside (Connection.take event).
Proof.
  unfold Connection.take. apply keeps_bind; [exact _ | apply keeps_gets; exact _ |].
  intros []; [apply keeps_ret; exact _ | apply keeps_process | apply keeps_ret; exact _].
Qed.

Lemma keeps_flush : keeps outside Connection.flush.
Proof.
  unfold Connection.flush. apply keeps_bind; [exact _ | apply keeps_gets; exact _ |].
  intros scheduled. apply keeps_bind; [exact _ | by apply keeps_modify |]. intros _.
  apply keeps_forEach; [exact _|]. apply keeps_take.
Qed.

(** A message handed to the machine is forwarded, whatever the machine does
    with it. *)
Lemma machine_send_forwards m c :
  let c' := (Connection.machine_send (fromPeer m) c).2 in
  started c' = started c ∧ incomingMessageQueue c' = incomingMessageQueue c
  ∧ forwarded c' = forwarded c ++ [m].
Proof.
  set (c0 := set_machineEvents (machineEvents c ++ [fromPeer m]) c).
  assert (outside c0 (Connection.machine_send (fromPeer m) c).2) as [_ Hs Hq _ Hf _].
  { assert (Connection.machine_send (fromPeer m) c
            = match statusOf c with
              | Running => bind (Connection.process (fromPeer m)) (λ _, Connection.flush) c0
              | _ => (Returned tt, c0)
              end) as ->.
    { unfold Connection.machine_send, bind, gets, modify, statusOf. simpl.
      by destruct (Interpreter.status (machine c)). }
    destruct (statusOf c); [reflexivity | | reflexivity].
    exact (keeps_bind outside _ _ (keeps_process _) (λ _, keeps_flush) c0). }
  simpl. split_and!; [done | done |]. rewrite Hf. subst c0. by rewrite forwarded_app.
Qed.

Definition gate (m : NumberedConnectionMessage) : M unit :=
  bind Connection.running (λ running,
    if running then Connection.machine_send (fromPeer m) else ret tt).

Lemma gate_spec m c :
  let r := gate m c in
  started r.2 = started c ∧ incomingMessageQueue r.2 = incomingMessageQueue c
  ∧ (if runningOf c then forwarded r.2 = forwarded c ++ [m] else r = (Returned tt, c)).
Proof.
  unfold gate, Connection.running, bind, gets, ret, runningOf, doneOf. simpl.
  destruct (started c && negb (State.done (machineState c))); simpl; [|done].
  pose proof (machine_send_forwards m c) as Hsend.
  by destruct (Connection.machine_send (fromPeer m) c) as [[[]|e] c1].
Qed.

(** The loop of [deliver] over the messages the buffer has released. *)
Lemma forward_loop released c :
  let r := Connection.forEach released gate c in
  started r.2 = started c ∧ incomingMessageQueue r.2 = incomingMessageQueue c
  ∧ (runningOf c = false → r = (Returned tt, c))
  ∧ ∃ F, forwarded r.2 = forwarded c ++ F ∧ sublist F released
         ∧ (r.1 = Returned tt → runningOf r.2 = true → F = released).
Proof.
  revert c. induction released as [|m released IH]; intros c; simpl.
  { split_and!; try done. exists []. by rewrite app_nil_r. }
  destruct (gate_spec m c) as (Hs & Hq & Hgate). unfold bind.
  destruct (gate m c) as [[[]|e] c1]; simpl in *.
  - destruct (IH c1) as (Hs' & Hq' & Hidle & F & HF & Hsub & Hall).
    destruct (runningOf c) eqn:Hrunning.
    + split_and!; [congruence | congruence | done |].
      exists (m :: F). split_and!.
      * by rewrite HF, Hgate, <- (assoc_L (++)).
      * by constructor.
      * intros Hr Hrun. by rewrite Hall.
    + injection Hgate as ->. split_and!; [done | done | by auto |].
      exists []. rewrite app_nil_r. split_and!.
      * by rewrite (Hidle Hrunning).
      * apply sublist_nil_l.
      * intros _. rewrite (Hidle Hrunning). simpl. by rewrite Hrunning.
  - destruct (runningOf c) eqn:Hrunning; [|done].
    split_and!; [done | done | done |]. exists [m]. split_and!; [done | | done].
    apply sublist_skip, sublist_nil_l.
Qed.

Lemma deliver_spec m c :
  let r := Connection.deliver m c in
  let d := orderedDelivery (incomingMessageQueue c) m in
  started r.2 = started c ∧ incomingMessageQueue r.2 = d.1
  ∧ (runningOf c = false → runningOf r.2 = false)
  ∧ ∃ F, forwarded r.2 = forwarded c ++ F ∧ sublist F d.2
         ∧ (r.1 = Returned tt → runningOf r.2 = true → F = d.2).
Proof.
  intros r d.
  set (c0 := set_incomingMessageQueue d.1 c).
  assert (r = Connection.forEach d.2 gate c0) as -> by reflexivity.
  destruct (forward_loop d.2 c0) as (Hs & Hq & Hidle & F & HF & Hsub & Hall).
  split_and!; [done | done | | by exists F].
  intros Hrunning. by rewrite Hidle.
Qed.

Lemma after_cons call calls c : after (call :: calls) c = after calls (run call c).2.
Proof. reflexivity. Qed.

Lemma deliveries_spec ms c :
  let c' := after (call_deliver <$> ms) c in
  let d := deliverAll (incomingMessageQueue c) ms in
  started c' = started c ∧ incomingMessageQueue c' = d.1
  ∧ (runningOf c = false → runningOf c' = false)
  ∧ ∃ F, forwarded c' = forwarded c ++ F ∧ sublist F d.2
         ∧ (allReturn (call_deliver <$> ms) c → runningOf c' = true → F = d.2).
Proof.
  revert c. induction ms as [|m ms IH]; intros c.
  { simpl. split_and!; try done. exists []. by rewrite app_nil_r. }
  destruct (deliver_spec m c) as (Hs & Hq & Hidle & F & HF & Hsub & Hall).
  destruct (IH (Connection.deliver m c).2) as (Hs' & Hq' & Hidle' & F' & HF' & Hsub' & Hall').
  cbv zeta in *. rewrite fmap_cons, after_cons.
  change (run (call_deliver m) c) with (Connection.deliver m c).
  cbn [deliverAll fst snd allReturn]. rewrite Hq in *.
  split_and!; [congruence | done | by auto |].
  exists (F ++ F'). split_and!.
  - by rewrite HF', HF, (assoc_L (++)).
  - by apply sublist_app.
  - intros [Hr Hrest] Hrun. rewrite Hall', Hall; try done.
    destruct (runningOf (Connection.deliver m c).2) eqn:Hmid; [done|].
    by rewrite Hidle' in Hrun.
Qed.

End Forwarding.

(** ** The session key and the state of the machine *)

Section SessionKey.
Context `{Externals}.

Lemma reachable_after calls c : reachable c → reachable (after calls c).
Proof.
  revert c. induction calls as [|call calls IH]; intros c Hc; [done|].
  rewrite after_cons. by apply IH, reachable_call.
Qed.



End SessionKey.



(** ** The proof of invitation *)

Section ProofOfInvitation.
Context `{Externals}.


End ProofOfInvitation.


(** ** Terminal states and [stop()] *)

Section Terminal.
Context `{Externals}.

(** A connection that is not running takes the messages into its buffer
    and hands none to the machine. *)
Lemma idle_deliveries ms c :
  runningOf c = false →
  let c' := after (call_deliver <$> ms) c in
  machine c' = machine c ∧ machineEvents c' = machineEvents c
  ∧ sent c' = sent c ∧ emitted c' = emitted c
  ∧ allReturn (call_deliver <$> ms) c.
Proof.
  revert c. induction ms as [|m ms IH]; intros c Hidle; [done|].
  cbv zeta. rewrite fmap_cons, after_cons.
  change (run (call_deliver m) c) with (Connection.deliver m c). cbn [allReturn].
  change (run (call_deliver m) c) with (Connection.deliver m c).
  set (d := orderedDelivery (incomingMessageQueue c) m).
  assert (Connection.deliver m c = (Returned tt, set_incomingMessageQueue d.1 c)) as ->.
  { change (Connection.deliver m c)
      with (Connection.forEach d.2 gate (set_incomingMessageQueue d.1 c)).
    by apply forward_loop. }
  destruct (IH (set_incomingMessageQueue d.1 c) Hidle) as (? & ? & ? & ? & ?).
  by split_and!.
Qed.

(** C4.  Once the machine of a connection is in a final state ([failure] or
    the final [disconnected]), and likewise once [stop()] has been called,
    whatever is delivered afterwards: every [deliver] returns, no event is
    handed to the machine, and the interpreter with its state and context is
    what it was. *)
Theorem terminal_takes_no_event (c c1 : Connection) (ms : list NumberedConnectionMessage) :
  reachable c →
  c1 = c ∧ isFinal (valueOf c) = true ∨ c1 = (Connection.stop c).2 →
  let c' := after (call_deliver <$> ms) c1 in
  machine c' = machine c1 ∧ machineEvents c' = machineEvents c1
  ∧ allReturn (call_deliver <$> ms) c1.
Proof.
  intros Hc%reachable_Inv Hc1.
  assert (runningOf c1 = false) as Hidle.
  { unfold runningOf. destruct Hc1 as [[-> Hfinal]| ->].
    - rewrite (inv_final _ _ Hc Hfinal). apply andb_false_r.
    - destruct (stop_spec c Hc) as (c2 & -> & _). apply andb_false_r. }
  destruct (idle_deliveries ms c1 Hidle) as (? & ? & _ & _ & ?). by split_and!.
Qed.


End Terminal.

Lemma terminal_takes_no_event_witness :
  let c1 := (Connection.stop Toy.connectedAlice).2 in
  let c' := after [call_deliver (numbered 7 (UPDATE "root" "h2" ["h2"%string]))] c1 in
  reachable Toy.connectedAlice
  ∧ machine c' = machine c1 ∧ machineEvents c' = machineEvents c1.
Proof.
  intros c1 c'.
  assert (reachable Toy.connectedAlice) as Hreachable.
  { apply reachable_after, (reachable_new Toy.aliceParams). reflexivity. }
  split; [exact Hreachable|].
  destruct (terminal_takes_no_event Toy.connectedAlice c1
              [numbered 7 (UPDATE "root" "h2" ["h2"%string])] Hreachable
              (or_intror eq_refl)) as (Hmachine & Hevents & _).
  by split.
Defined.


(** ** Failure paths *)

Section Failure.
Context `{Externals}.






End Failure.



(** ** Ordered delivery to the machine *)

Section Delivery.
Context `{Externals}.

(** C3, amended.  From an empty buffer, whatever the arrival order of the
    messages delivered: the buffer releases messages that have arrived, with
    the indices 0, 1, ..., k-1 in this order, where k, the next expected
    index, is an index that has not arrived; the machine is handed a
    subsequence of the released messages, in release order; and it is handed
    all of them if every [deliver] has returned and the connection is still
    running (started, state not done) in the end. *)
Theorem deliver_in_order (c : Connection) (ms : list NumberedConnectionMessage) :
  incomingMessageQueue c = emptyQueue →
  let c' := after (call_deliver <$> ms) c in
  let d := deliverAll emptyQueue ms in
  incomingMessageQueue c' = d.1
  ∧ index <$> d.2 = seqZ 0 (nextExpected d.1)
  ∧ (∀ m, m ∈ d.2 → m ∈ ms)
  ∧ (∀ m, m ∈ ms → index m ≠ nextExpected d.1)
  ∧ ∃ F, forwarded c' = forwarded c ++ F ∧ sublist F d.2
         ∧ (allReturn (call_deliver <$> ms) c → runningOf c' = true → F = d.2).
Proof.
  intros Hempty.
  destruct (deliveries_spec ms c) as (_ & Hqueue & _ & F & HF & Hsub & Hall).
  destruct (deliverAll_fresh ms) as (Hindex & Harrived & _ & Hnext).
  rewrite Hempty in *. split_and!; try done. by exists F.
Qed.

End Delivery.

Lemma deliver_in_order_witness :
  let c := after [call_start []] Toy.aliceConnection in
  let hello := HELLO (HelloPayload.make (Some Toy.bobClaim) None) in
  let c' := after [call_deliver (numbered 1 hello); call_deliver (numbered 0 READY)] c in
  incomingMessageQueue c = emptyQueue
  ∧ forwarded c' = [numbered 0 READY; numbered 1 hello].
Proof.
  intros c hello c'. split; [reflexivity|].
  destruct (deliver_in_order c [numbered 1 hello; numbered 0 READY] eq_refl)
    as (_ & _ & _ & _ & F & HF & _ & Hall).
  transitivity (forwarded c ++ F); [exact HF|]. rewrite Hall.
  - vm_compute. reflexivity.
  - vm_compute. by split.
  - vm_compute. reflexivity.
Defined.

(** C3 as stated does not hold of every sequence of calls to [deliver]: a
    message delivered before [start()] is consumed by the buffer and never
    handed to the machine, which then sees index 1 without having seen index
    0. *)
Lemma deliver_before_start_leaves_gap :
  let hello := HELLO (HelloPayload.make (Some Toy.bobClaim) None) in
  let c := after [call_deliver (numbered 0 READY); call_start [];
                  call_deliver (numbered 1 hello)] Toy.aliceConnection in
  reachable c ∧ forwarded c = [numbered 1 hello].
Proof.
  split; [|vm_compute; reflexivity].
  apply reachable_after, (reachable_new Toy.aliceParams). reflexivity.
Qed.

(** ** [start()] *)

Section Start.
Context `{Externals}.

Lemma replay_spec stored parsed c :
  Forall2 (λ s m, JSON_parse s = Some m) stored parsed →
  Connection.forEach stored (λ m,
    match JSON_parse m with
    | Some parsed => ignoreThrow (Connection.deliver parsed)
    | None => throw "SyntaxError"
    end) c
  = (Returned tt, after (call_deliver <$> parsed) c).
Proof.
  intros Hparsed. revert c.
  induction Hparsed as [|s m stored parsed Hs _ IH]; intros c; [done|].
  cbn [Connection.forEach]. rewrite Hs. unfold bind, ignoreThrow.
  by rewrite IH, fmap_cons, after_cons.
Qed.

(** C7, amended.  [start(storedMessages)] on a connection that has not been
    started: starts the machine, sets [started], sends READY to the peer, and
    then, if the stored messages can be parsed, hands them to [deliver] one
    after the other in the order given, and returns.  On a connection that
    has been started it sends RECONNECT to the machine and nothing else: no
    READY goes to the peer, the stored messages are not looked at, and the
    machine's state is left as it was. *)
Theorem start_spec (c : Connection) (stored : list string)
    (parsed : list NumberedConnectionMessage) :
  reachable c →
  let r := Connection.start stored c in
  (started c = false → Forall2 (λ s m, JSON_parse s = Some m) stored parsed →
   let c1 := (Connection.sendMessage READY
                (set_started true (Connection.machine_start c).2)).2 in
   statusOf c1 = Running ∧ valueOf c1 = disconnected false ∧ started c1 = true
   ∧ sent c1 = sent c ++ [numbered (outgoingMessageIndex c) READY]
   ∧ r = (Returned tt, after (call_deliver <$> parsed) c1))
  ∧ (started c = true →
     r.1 = Returned tt ∧ sent r.2 = sent c
     ∧ incomingMessageQueue r.2 = incomingMessageQueue c
     ∧ machineEvents r.2 = machineEvents c ++ [fromSelf RECONNECT]
     ∧ machineState r.2 = machineState c).
Proof.
  intros Hc%reachable_Inv r. split.
  - intros Hstarted Hparsed c1. split_and!; try done.
    subst r. unfold Connection.start. unfold bind at 1. unfold gets at 1.
    rewrite Hstarted. cbn [negb]. by rewrite <- (replay_spec stored parsed).
  - intros Hstarted.
    assert (r = Connection.machine_send (fromSelf RECONNECT) c) as ->.
    { subst r. unfold Connection.start. unfold bind at 1. unfold gets at 1.
      by rewrite Hstarted. }
    destruct Hc as [(errors & Hqueue & Hnil) Hrunning _ _ _ _].
    rewrite (Hnil eq_refl) in Hqueue.
    destruct (machine_send_reconnect c Hqueue) as (? & ? & ? & _ & _ & ? & ?);
      [intros Hs; apply (Hrunning Hs) | by split_and!].
Qed.

End Start.

Lemma start_spec_witness :
  let r := Connection.start ["0READY"%string] Toy.aliceConnection in
  reachable Toy.aliceConnection ∧ started Toy.aliceConnection = false
  ∧ r.1 = Returned tt
  ∧ sent r.2 = [numbered 0 READY;
                numbered 1 (HELLO (HelloPayload.make (Some (Invitee.make DEVICE "alice")) None))]
  ∧ forwarded r.2 = [numbered 0 READY].
Proof.
  intros r.
  assert (reachable Toy.aliceConnection) as Hreachable.
  { apply (reachable_new Toy.aliceParams). reflexivity. }
  split; [exact Hreachable|]. split; [reflexivity|].
  destruct (start_spec Toy.aliceConnection ["0READY"%string] [numbered 0 READY] Hreachable)
    as [Hfresh _].
  destruct Hfresh as (_ & _ & _ & _ & Hr); [reflexivity | by repeat constructor |].
  fold r in Hr. rewrite Hr. split_and!; vm_compute; reflexivity.
Defined.

(** C7 as stated does not hold of a connection that has been started: a
    second [start()] sends no READY and replays none of the stored messages;
    it only sends RECONNECT to the machine. *)
Lemma start_again_sends_no_READY :
  let c := after [call_start []] Toy.aliceConnection in
  let r := Connection.start ["0READY"%string] c in
  reachable c ∧ started c = true ∧ Toy.parse "0READY" = Some (numbered 0 READY)
  ∧ r.1 = Returned tt ∧ sent r.2 = sent c
  ∧ incomingMessageQueue r.2 = incomingMessageQueue c
  ∧ machineEvents r.2 = [fromSelf RECONNECT].
Proof.
  split; [|split_and!; vm_compute; reflexivity].
  apply reachable_after, (reachable_new Toy.aliceParams). reflexivity.
Qed.

(** * Further properties of the connection *)

(** ** The numbering of outgoing messages *)

Section Numbering.
Context `{Externals}.

(** From [c] to [c'], messages have been appended to the ones sent, each
    under the next index. *)
Definition numbering (c c' : Connection) : Prop :=
  ∃ ms, sent c' = sent c ++ ms
        ∧ index <$> ms = seqZ (outgoingMessageIndex c) (Z.of_nat (length ms))
        ∧ outgoingMessageIndex c' = outgoingMessageIndex c + Z.of_nat (length ms).

#[global] Instance numbering_preorder : PreOrder numbering.
Proof.
  split.
  - intros c. exists []. simpl. rewrite app_nil_r. split_and!; [done | done | lia].
  - intros c1 c2 c3 (ms1 & Hs1 & Hi1 & Ho1) (ms2 & Hs2 & Hi2 & Ho2).
    exists (ms1 ++ ms2). split_and!.
    + by rewrite Hs2, Hs1, (assoc_L (++)).
    + rewrite fmap_app, Hi1, Hi2, Ho1, length_app, Nat2Z.inj_add.
      rewrite seqZ_app by lia. done.
    + rewrite Ho2, Ho1, length_app. lia.
Qed.

Lemma numbering_same c c' :
  sent c' = sent c → outgoingMessageIndex c' = outgoingMessageIndex c → numbering c c'.
Proof.
  intros Hs Ho. exists []. simpl. rewrite app_nil_r. split_and!; [done | done | lia].
Qed.

#[global] Instance numbering_frame : Frame numbering.
Proof.
  refine {| frame_context := λ _ _, True;
            frame_message := λ _, True |}.
  - intros f _ c. by apply numbering_same.
  - done.
  - intros m _ c. exists [numbered (outgoingMessageIndex c) m]. simpl. split_and!; try done.
  - intros payload c. by apply numbering_same.
  - intros e c. by apply numbering_same.
  - intros n c. by apply numbering_same.
  - intros n c. by apply numbering_same.
Defined.

Lemma actions_keep_numbering name event :
  keeps numbering (Connection.body (Connection.implementation name) event).
Proof. destruct name; cbn [Connection.implementation]; frame. Qed.

Lemma on_keeps_numbering s event :
  keeps numbering (Connection.protocolMachine.on s event).
Proof. frame. Qed.

Lemma perform_keeps_numbering acts event :
  keeps numbering (Connection.perform acts event).
Proof.
  apply perform_keeps; [exact _|]. apply Forall_forall. intros name _ _.
  apply actions_keep_numbering.
Qed.

Lemma settle_synchronizing_keeps_numbering event :
  keeps numbering (Connection.settle_synchronizing event).
Proof.
  unfold Connection.settle_synchronizing. apply keeps_bind; [exact _ | frame |].
  intros [[target acts]|]; [|apply keeps_ret; exact _].
  apply keeps_bind; [exact _ | apply perform_keeps_numbering |].
  intros later. apply keeps_ret; exact _.
Qed.

Lemma settle_keeps_numbering s event : keeps numbering (Connection.settle s event).
Proof.
  destruct s as [b|i a| | | |]; simpl; try (apply keeps_ret; exact _);
    [|apply settle_synchronizing_keeps_numbering].
  apply keeps_bind; [exact _ | frame |]. intros ri.
  assert (∀ acts (k : list Action.t → M (ProtocolState * list Action.t)),
            (∀ later, keeps numbering (k later)) →
            keeps numbering (bind (Connection.perform acts event) k)) as Hperform.
  { intros acts k Hk. apply keeps_bind; [exact _ | apply perform_keeps_numbering | done]. }
  assert (∀ later, keeps numbering
            match a with
            | challengingIdentity acceptedByPeer accepted =>
                bind (Connection.perform
                        (Connection.protocolMachine.entry synchronizing) event)
                  (λ later', bind (Connection.settle_synchronizing event)
                     (λ r, ret (r.1, later ++ later' ++ r.2)))
            | _ => ret (connecting
                          match ri with
                          | Connection.protocolMachine.goto i' _ => i'
                          | _ => i
                          end a, later)
            end) as Hexit.
  { intros later. destruct a as [|[] []]; try (apply keeps_ret; exact _).
    apply Hperform. intros later'.
    apply keeps_bind; [exact _ | apply settle_synchronizing_keeps_numbering |].
    intros r. apply keeps_ret; exact _. }
  destruct ri as [|i' acts|acts]; apply Hperform; try done.
  intros later. apply keeps_ret; exact _.
Qed.

Lemma resolve_keeps_numbering s event : keeps numbering (Connection.resolve s event).
Proof.
  unfold Connection.resolve. apply keeps_bind; [exact _ | apply on_keeps_numbering |].
  intros [[target acts]|]; [|apply keeps_ret; exact _].
  apply keeps_bind; [exact _ | apply perform_keeps_numbering |]. intros later.
  apply keeps_bind; [exact _ | apply settle_keeps_numbering |]. intros r.
  apply keeps_ret; exact _.
Qed.

Lemma execute_keeps_numbering later event :
  keeps numbering (Connection.forEach later (λ name, Connection.execute name event)).
Proof.
  apply keeps_forEach; [exact _|]. intros name. apply execute_keeps; [exact _|].
  intros _. apply actions_keep_numbering.
Qed.

Lemma process_keeps_numbering event : keeps numbering (Connection.process event).
Proof.
  intros c. unfold Connection.process.
  pose proof (resolve_keeps_numbering (State.value (machineState c)) event c) as H1.
  destruct (Connection.resolve _ event c) as [[[t later]|e] c1]; simpl in *.
  - set (cm := set_done (isFinal t) (set_value t c1)).
    change (bind (Connection.commit t)
              (λ _, Connection.forEach later (λ name, Connection.execute name event)) c1)
      with (Connection.forEach later (λ name, Connection.execute name event) cm).
    pose proof (execute_keeps_numbering later event cm) as H2.
    assert (numbering c cm) as Hcm by (etrans; [exact H1 | by apply numbering_same]).
    destruct (Connection.forEach later _ cm) as [[[]|e] c2]; simpl in *.
    + destruct (isFinal t); simpl; (etrans; [exact Hcm|]); (etrans; [exact H2|]);
        by apply numbering_same.
    + etrans; [exact Hcm|]. etrans; [exact H2|]. by apply numbering_same.
  - etrans; [exact H1|]. by apply numbering_same.
Qed.

Lemma take_keeps_numbering event : keeps numbering (Connection.take event).
Proof.
  unfold Connection.take. apply keeps_bind; [exact _ | apply keeps_gets; exact _ |].
  intros []; [apply keeps_ret; exact _ | apply process_keeps_numbering | apply keeps_ret; exact _].
Qed.

Lemma machine_send_keeps_numbering event : keeps numbering (Connection.machine_send event).
Proof.
  unfold Connection.machine_send.
  apply keeps_bind; [exact _ | apply keeps_modify; intros c; by apply numbering_same |].
  intros _. apply keeps_bind; [exact _ | apply keeps_gets; exact _ |].
  intros []; try (apply keeps_ret; exact _).
  apply keeps_bind; [exact _ | apply process_keeps_numbering |]. intros _.
  unfold Connection.flush. apply keeps_bind; [exact _ | apply keeps_gets; exact _ |].
  intros scheduled.
  apply keeps_bind; [exact _ | apply keeps_modify; intros c; by apply numbering_same |].
  intros _. apply keeps_forEach; [exact _|]. apply take_keeps_numbering.
Qed.

Lemma deliver_keeps_numbering m : keeps numbering (Connection.deliver m).
Proof.
  unfold Connection.deliver. apply keeps_bind; [exact _ | apply keeps_gets; exact _ |].
  intros queue.
  apply keeps_bind; [exact _ | apply keeps_modify; intros c; by apply numbering_same |].
  intros _. apply keeps_forEach; [exact _|]. intros x.
  apply keeps_bind; [exact _ | unfold Connection.running; frame |].
  intros []; [apply machine_send_keeps_numbering | apply keeps_ret; exact _].
Qed.

Lemma run_keeps_numbering call : keeps numbering (run call).
Proof.
  destruct call; simpl.
  - unfold Connection.start. apply keeps_bind; [exact _ | apply keeps_gets; exact _ |].
    intros []; cbn [negb]; [apply machine_send_keeps_numbering|].
    unfold Connection.machine_start.
    repeat (apply keeps_bind;
            [exact _ | first [ apply (frame_sendMessage READY); done
                             | apply keeps_modify; intros c; by apply numbering_same ]
            | intros _]).
    apply keeps_forEach; [exact _|]. intros m.
    destruct (JSON_parse m);
      [apply keeps_ignoreThrow, deliver_keeps_numbering | apply keeps_throw; exact _].
  - unfold Connection.stop, Connection.running, Connection.removeAllListeners,
      Connection.machine_stop.
    repeat first
      [ apply (frame_sendMessage DISCONNECT); done
      | apply machine_send_keeps_numbering
      | apply keeps_gets; exact _
      | apply keeps_ret; exact _
      | apply keeps_modify; intros c; by apply numbering_same
      | match goal with |- keeps _ (if ?b then _ else _) => destruct b end
      | apply keeps_bind; [exact _ | | intros ?] ].
  - apply deliver_keeps_numbering.
  - unfold Connection.send. frame.
  - apply keeps_modify. intros c. by apply numbering_same.
  - apply keeps_bind; [exact _ | apply keeps_gets; exact _ |].
    intros [|n]; [apply keeps_ret; exact _|]. unfold Connection.teamUpdated.
    apply keeps_bind; [exact _ | apply keeps_gets; exact _ |].
    intros []; [apply keeps_ret; exact _ | apply machine_send_keeps_numbering].
  - apply machine_send_keeps_numbering.
Qed.

(** The messages numbered from 0. *)
Definition numbered_from_0 (c : Connection) : Prop :=
  index <$> sent c = seqZ 0 (Z.of_nat (length (sent c)))
  ∧ outgoingMessageIndex c = Z.of_nat (length (sent c)).

Lemma numbering_numbered c c' : numbered_from_0 c → numbering c c' → numbered_from_0 c'.
Proof.
  intros [Hi Ho] (ms & Hs & Hms & Ho'). unfold numbered_from_0.
  rewrite Hs, Ho', fmap_app, length_app, Nat2Z.inj_add, Hi, Hms, Ho.
  split; [|done]. rewrite (seqZ_app 0) by lia. done.
Qed.

Lemma reachable_numbered c : reachable c → numbered_from_0 c.
Proof.
  induction 1 as [params c Hnew|c call _ IH].
  - unfold Connection.new in Hnew. repeat case_match; simplify_eq; by split.
  - eapply numbering_numbered; [exact IH | apply run_keeps_numbering].
Qed.

(** Whatever has been called on a connection, the messages it has handed
    to the host carry the indices 0, 1, 2, ... in the order sent, and
    [outgoingMessageIndex] is their number; a further call leaves the
    messages sent so far as they are and appends messages that continue the
    numbering. *)
Theorem messages_numbered (c : Connection) :
  reachable c →
  index <$> sent c = seqZ 0 (Z.of_nat (length (sent c)))
  ∧ outgoingMessageIndex c = Z.of_nat (length (sent c))
  ∧ ∀ call, ∃ ms,
      sent (run call c).2 = sent c ++ ms
      ∧ index <$> ms = seqZ (Z.of_nat (length (sent c))) (Z.of_nat (length ms)).
Proof.
  intros Hc. destruct (reachable_numbered c Hc) as [Hi Ho]. split_and!; try done.
  intros call. destruct (run_keeps_numbering call c) as (ms & Hs & Hms & _).
  exists ms. by rewrite <- Ho.
Qed.

End Numbering.

Lemma messages_numbered_witness :
  reachable Toy.connectedAlice
  ∧ index <$> sent Toy.connectedAlice = [0; 1; 2; 3; 4; 5; 6]
  ∧ outgoingMessageIndex Toy.connectedAlice = 7.
Proof.
  assert (reachable Toy.connectedAlice) as Hreachable.
  { apply reachable_after, (reachable_new Toy.aliceParams). reflexivity. }
  split; [exact Hreachable|].
  destruct (messages_numbered _ Hreachable) as (Hi & Ho & _).
  split; [rewrite Hi | rewrite Ho]; vm_compute; reflexivity.
Defined.

(** ** [send] *)

Section Send.
Context `{Externals}.

(** With a session key, [send] hands the host exactly one message, the
    encrypted payload under the next index, and changes nothing else; the
    peer's [receiveEncryptedMessage], holding the same key, emits 'message'
    with the payload that went in, provided [symmetric.decrypt] opens what
    [symmetric.encrypt] sealed. *)
Theorem send_round_trip (c c' : Connection) (payload key : string) :
  started c = true → keyOf c = Some key → keyOf c' = Some key →
  symmetric_decrypt (symmetric_encrypt payload key) key = Some payload →
  let m := numbered (outgoingMessageIndex c)
             (ENCRYPTED_MESSAGE (symmetric_encrypt payload key)) in
  Connection.send payload c
  = (Returned tt,
     set_sent (sent c ++ [m]) (set_outgoingMessageIndex (outgoingMessageIndex c + 1) c))
  ∧ Connection.body Connection.actions.receiveEncryptedMessage (fromPeer m) c'
    = (Returned tt, set_emitted (emitted c' ++ [emit_message payload]) c').
Proof.
  intros Hstarted Hkey Hkey' Hopen m. unfold keyOf in *. split.
  - cbv [Connection.send Connection.context Connection.assert bind gets ret throw].
    rewrite Hstarted. simpl. rewrite Hkey. reflexivity.
  - simpl. cbv [Connection.getContext Connection.assert bind gets ret throw].
    rewrite Hkey'. simpl. rewrite Hopen. reflexivity.
Qed.

(** Before [start()], and as long as the context has no session key,
    [send] throws and leaves the connection as it is: nothing goes to the
    peer. *)
Theorem send_needs_session_key (c : Connection) (payload : string) :
  (started c = false →
   Connection.send payload c = (Threw "Can't get context; machine not started", c))
  ∧ (started c = true → keyOf c = None →
     Connection.send payload c = (Threw "Assertion failed", c)).
Proof.
  unfold keyOf. split.
  - intros Hstarted.
    cbv [Connection.send Connection.context Connection.assert bind gets ret throw].
    by rewrite Hstarted.
  - intros Hstarted Hkey.
    cbv [Connection.send Connection.context Connection.assert bind gets ret throw].
    rewrite Hstarted. simpl. by rewrite Hkey.
Qed.

End Send.

Lemma send_round_trip_witness :
  let c := Toy.connectedAlice in
  let m := numbered 7 (ENCRYPTED_MESSAGE "box:hello") in
  (Connection.send "hello" c).1 = Returned tt
  ∧ sent (Connection.send "hello" c).2 = sent c ++ [m]
  ∧ emitted (Connection.body Connection.actions.receiveEncryptedMessage (fromPeer m) c).2
    = emitted c ++ [emit_message "hello"].
Proof.
  intros c m.
  assert (started c = true) as Hstarted by (vm_compute; reflexivity).
  assert (keyOf c = Some "BZ000000000000000000000000000000"%string) as Hkey
    by (vm_compute; reflexivity).
  destruct (send_round_trip c c "hello" "BZ000000000000000000000000000000"
              Hstarted Hkey Hkey eq_refl) as [Hsend Hreceive].
  split; [rewrite Hsend; reflexivity|]. split; [rewrite Hsend; vm_compute; reflexivity|].
  assert (outgoingMessageIndex c = 7) as Hindex by (vm_compute; reflexivity).
  rewrite Hindex in Hreceive. subst m.
  change (symmetric_encrypt "hello" "BZ000000000000000000000000000000")
    with "box:hello"%string in Hreceive.
  rewrite Hreceive. reflexivity.
Defined.

Lemma send_needs_session_key_witness :
  Connection.send "hello" Toy.aliceConnection
  = (Threw "Can't get context; machine not started", Toy.aliceConnection)
  ∧ Connection.send "hello" Toy.negotiatingAlice
    = (Threw "Assertion failed", Toy.negotiatingAlice).
Proof.
  split.
  - apply (send_needs_session_key Toy.aliceConnection "hello"). reflexivity.
  - apply (send_needs_session_key Toy.negotiatingAlice "hello"); vm_compute; reflexivity.
Defined.

(** ** Guards *)

Section Guards.
Context `{Externals}.

Ltac unfold_guard :=
  cbv [Connection.guards.iHaveInvitation Connection.guards.theyHaveInvitation
       Connection.guards.bothHaveInvitation Connection.guards.invitationProofIsValid
       Connection.guards.joinedTheRightTeam Connection.guards.peerWasRemoved
       Connection.guards.identityProofIsValid Connection.guards.headsAreEqual
       Connection.guards.headsAreDifferent Connection.guards.dontHaveSessionkey
       Connection.getContext Connection.context Connection.modifyContext
       Connection.rehydrateTeam Connection.chainOf Connection.myProofOfInvitation
       Connection.assert bind gets modify ret throw].

(** A guard answers without changing the connection, also when it throws;
    [invitationProofIsValid] alone writes, and only when it answers no: it
    then puts the error of the validation into [context.error] and changes
    nothing else.  (It answers no only on a started connection: it writes
    through [this.context].) *)
Theorem guards_leave_connection (event : Event) (c : Connection) :
  (Connection.guards.iHaveInvitation event c).2 = c
  ∧ (Connection.guards.theyHaveInvitation event c).2 = c
  ∧ (Connection.guards.bothHaveInvitation event c).2 = c
  ∧ (Connection.guards.joinedTheRightTeam event c).2 = c
  ∧ (Connection.guards.peerWasRemoved event c).2 = c
  ∧ (Connection.guards.identityProofIsValid event c).2 = c
  ∧ (Connection.guards.headsAreEqual event c).2 = c
  ∧ (Connection.guards.headsAreDifferent event c).2 = c
  ∧ (Connection.guards.dontHaveSessionkey event c).2 = c
  ∧ match Connection.guards.invitationProofIsValid event c with
    | (Returned false, c') =>
        started c = true
        ∧ ∃ team proof,
            Context.team (State.context (machineState c)) = Some team
            ∧ Context.theirProofOfInvitation (State.context (machineState c)) = Some proof
            ∧ ValidationResult.isValid (team_validateInvitation team proof) = false
            ∧ c' = set_context
                     (Context.with_error
                        (ValidationResult.error (team_validateInvitation team proof))
                        (State.context (machineState c))) c
    | (_, c') => c' = c
    end.
Proof.
  split_and!.
  1-9: unfold_guard; simpl; repeat (case_match; simpl in *; simplify_eq); done.
  unfold_guard. simpl.
  destruct (Context.team _) as [team|] eqn:Hteam; simpl; [|done].
  destruct (Context.theirProofOfInvitation _) as [proof|] eqn:Hproof; simpl; [|done].
  destruct (ValidationResult.isValid _) eqn:Hvalid; simpl; [done|].
  destruct (started c) eqn:Hstarted; simpl; [|done].
  split; [done|]. by exists team, proof.
Qed.

End Guards.

(** ** Actions of the handshake *)

Section Handshake.
Context `{Externals}.

(** What is left of a connection when [createError] has reported
    [payload] and the payload has been put into [context.error]. *)
Definition reported (payload : ErrorPayload.t) (c : Connection) : Connection :=
  set_context (Context.with_error (Some payload) (State.context (machineState c)))
    (set_sent (sent c ++ [numbered (outgoingMessageIndex c) (ERROR payload)])
       (set_outgoingMessageIndex (outgoingMessageIndex c + 1)
          (set_queue (Interpreter.queue (machine c) ++ [fromSelf (ERROR payload)])
             (set_machineEvents (machineEvents c ++ [fromSelf (ERROR payload)]) c)))).

(** [confirmIdentityExists] on a HELLO: without a team, without an
    identity claim, and when the team knows the claimed device as valid, it
    does nothing at all; for each of the four other answers of
    [team.lookupIdentity] it reports one error, whose message names the user
    (and the device) parsed from the claimed device id: one ERROR to the
    local machine, one to the peer, the payload in [context.error]. *)
Theorem confirmIdentityExists_reports (event : Event) (payload : HelloPayload.t)
    (c : Connection) :
  eventMessage event = Some (HELLO payload) →
  let run := Connection.body Connection.actions.confirmIdentityExists event c in
  match Context.team (State.context (machineState c)),
        HelloPayload.identityClaim payload with
  | Some team, Some claim =>
      let userName := (parseDeviceId (Invitee.name claim)).1 in
      let deviceName := (parseDeviceId (Invitee.name claim)).2 in
      let report text := run = (Returned tt, reported (ErrorPayload.make text None) c) in
      match team_lookupIdentity team claim with
      | VALID_DEVICE => run = (Returned tt, c)
      | MEMBER_UNKNOWN => report (userName +:+ " is not a member of this team.")
      | MEMBER_REMOVED => report (userName +:+ " was removed from this team.")
      | DEVICE_UNKNOWN =>
          report (userName +:+ " does not have a device '" +:+ deviceName +:+ "'.")
      | DEVICE_REMOVED =>
          report (userName +:+ "'s device '" +:+ deviceName +:+ "' was removed.")
      end
  | _, _ => run = (Returned tt, c)
  end.
Proof.
  intros Hevent. simpl.
  cbv [Connection.getContext Connection.helloPayload Connection.createError
       Connection.scheduleEvent Connection.sendMessage Connection.modifyContext
       bind gets modify ret throw].
  rewrite Hevent. simpl.
  destruct (Context.team _) as [team|]; simpl; [|done].
  destruct (HelloPayload.identityClaim payload) as [claim|]; simpl; [|done].
  destruct (parseDeviceId _) as [userName deviceName]. simpl.
  by destruct (team_lookupIdentity team claim).
Qed.

End Handshake.

Lemma confirmIdentityExists_reports_witness :
  let hello := HELLO (HelloPayload.make (Some (Invitee.make DEVICE "eve")) None) in
  let c := after [call_start []] Toy.aliceConnection in
  let r := Connection.body Connection.actions.confirmIdentityExists
             (fromPeer (numbered 1 hello)) c in
  r.1 = Returned tt
  ∧ Context.error (State.context (machineState r.2))
    = Some (ErrorPayload.make "eve was removed from this team." None)
  ∧ sent r.2
    = sent c ++ [numbered 1 (ERROR (ErrorPayload.make "eve was removed from this team." None))].
Proof.
  intros hello c r.
  pose proof (confirmIdentityExists_reports (fromPeer (numbered 1 hello))
                (HelloPayload.make (Some (Invitee.make DEVICE "eve")) None) c eq_refl)
    as Hreports.
  assert (Context.team (State.context (machineState c)) = Some Toy.theTeam) as Hteam
    by (vm_compute; reflexivity).
  cbv zeta in Hreports. rewrite Hteam in Hreports.
  cbn [HelloPayload.identityClaim] in Hreports.
  set (answer := team_lookupIdentity _ _) in Hreports. vm_compute in answer.
  subst answer. cbv iota in Hreports. subst r. rewrite Hreports.
  split_and!; vm_compute; reflexivity.
Defined.

Section Joining.
Context `{Externals}.

(** [joinTeam] on the ACCEPT_INVITATION of a started invitee: the team is
    rebuilt from the chain received, joined with the proof made from our
    invitation seed, and the context gets the user, the device and the team
    that [team.join] returns; nothing is sent.  From then on the guard
    [iHaveInvitation] answers no, and a HELLO sent by [sendHello] carries no
    proof of invitation. *)
Theorem joinTeam_ends_invitation (event : Event) (chain seed : string)
    (invitee : Invitee.t) (c : Connection) :
  eventMessage event = Some (ACCEPT_INVITATION chain) →
  started c = true →
  Context.invitationSeed (State.context (machineState c)) = Some seed →
  Context.invitee (State.context (machineState c)) = Some invitee →
  let context := State.context (machineState c) in
  let joined :=
    team_join (Team_new chain (Context.user context) (Context.device context))
      (generateProof seed invitee) (Some seed) in
  let context' :=
    Context.with_team (Some joined.1.1)
      (Context.with_device joined.2 (Context.with_user (Some joined.1.2) context)) in
  let c' := set_context context' c in
  Connection.body Connection.actions.joinTeam event c = (Returned tt, c')
  ∧ (∀ event', Connection.guards.iHaveInvitation event' c' = (Returned false, c'))
  ∧ ∀ event',
      Connection.execute Action.sendHello event' c'
      = (Returned tt,
         (Connection.sendMessage (HELLO {|
            HelloPayload.identityClaim := Some (Invitee.make DEVICE (getDeviceId joined.2));
            HelloPayload.proofOfInvitation := None |}) c').2).
Proof.
  intros Hevent Hstarted Hseed Hinvitee. cbv zeta. split_and!.
  - simpl.
    cbv [Connection.getContext Connection.rehydrateTeam Connection.chainOf
         Connection.myProofOfInvitation Connection.context Connection.assert
         Connection.modifyContext bind gets modify ret throw].
    rewrite Hevent. simpl. rewrite Hseed, Hinvitee. simpl.
    rewrite Hstarted. simpl. rewrite Hseed.
    by destruct (team_join _ _ _) as [[team user] device].
  - intros event'.
    cbv [Connection.guards.iHaveInvitation Connection.getContext bind gets ret].
    simpl. by rewrite andb_false_r.
  - intros event'. unfold Connection.execute. simpl.
    cbv [ignoreThrow Connection.getContext Connection.team Connection.context bind gets ret].
    simpl. destruct (hasInvitee _); simpl; [|done]. by rewrite Hstarted.
Qed.

End Joining.

Lemma joinTeam_ends_invitation_witness :
  let c := after [call_start []] Toy.bobConnection in
  let r := Connection.body Connection.actions.joinTeam
             (fromPeer (numbered 1 (ACCEPT_INVITATION "passw0rd"))) c in
  r.1 = Returned tt
  ∧ isMember (State.context (machineState r.2)) = true
  ∧ sent r.2 = sent c
  ∧ Connection.guards.iHaveInvitation delay r.2 = (Returned false, r.2).
Proof.
  intros c r.
  assert (started c = true) as Hstarted by (vm_compute; reflexivity).
  assert (Context.invitationSeed (State.context (machineState c)) = Some "passw0rd"%string)
    as Hseed by (vm_compute; reflexivity).
  assert (Context.invitee (State.context (machineState c)) = Some (Invitee.make MEMBER "bob"))
    as Hinvitee by (vm_compute; reflexivity).
  destruct (joinTeam_ends_invitation
              (fromPeer (numbered 1 (ACCEPT_INVITATION "passw0rd"))) "passw0rd" "passw0rd"
              (Invitee.make MEMBER "bob") c eq_refl Hstarted Hseed Hinvitee)
    as (Hjoin & Hguard & _).
  subst r. rewrite Hjoin. split_and!; [reflexivity | reflexivity | reflexivity |].
  apply Hguard.
Defined.

(** ** The summary of a state *)

Section StateSummary.

Lemma filter_all {A} (keep : A → bool) (l : list A) :
  (∀ x, In x l → keep x = true) → List.filter keep l = l.
Proof.
  induction l as [|x l IH]; intros Hall; simpl; [done|].
  rewrite (Hall x) by (by left). f_equal. apply IH. intros y Hy. apply Hall. by right.
Qed.

(** In the summary of an object every key has its entry, [key:summary], in
    the order of the keys: the filter on the length of the entries removes
    none, an entry being never empty.  So a region whose state is 'done',
    and whose own summary is therefore empty, still shows, as [key:].  The
    summary of no state at all is 'disconnected'. *)
Theorem stateSummary_keeps_every_key (children : list (string * StateTree)) :
  stateSummary (stateObject children)
  = join "," (List.map (λ child, String.append child.1
                                  (String.append ":" (stateSummary child.2))) children)
  ∧ (∀ key, stateSummary (stateObject [(key, stateName "done")]) = String.append key ":")
  ∧ stateSummaryOf None = "disconnected"%string.
Proof.
  split_and!; [|intros []; reflexivity|reflexivity].
  cbn [stateSummary]. f_equal. apply filter_all.
  intros entry [[key child] [<- _]]%in_map_iff. cbn [fst snd].
  by destruct key.
Qed.

End StateSummary.

(** ** Synchronizing and authenticating *)

Section Heads.
Context `{Externals}.

(** The head the peer reports is compared with the head of our chain.  For
    an UPDATE the guard [headsAreEqual] takes the head from the message;
    [recordTheirHead] stores it, and for a later LOCAL_UPDATE, whose own head
    is not looked at, the guard takes the stored head and so answers the
    same.  [headsAreDifferent] answers the opposite.  None of this changes the
    team. *)
Theorem heads_compared (c : Connection) (team : Team) (i : Z)
    (root head localHead : string) (hashes : list string) :
  Context.team (State.context (machineState c)) = Some team →
  let update := fromPeer (numbered i (UPDATE root head hashes)) in
  let local := fromSelf (LOCAL_UPDATE localHead) in
  let equal := bool_decide (team_chain_head team = head) in
  let c' := set_context (Context.with_theirHead (Some head)
                           (State.context (machineState c))) c in
  Connection.guards.headsAreEqual update c = (Returned equal, c)
  ∧ Connection.body Connection.actions.recordTheirHead update c = (Returned tt, c')
  ∧ Connection.guards.headsAreEqual local c' = (Returned equal, c')
  ∧ Connection.guards.headsAreDifferent local c' = (Returned (negb equal), c').
Proof.
  intros Hteam. cbv zeta.
  assert (∀ a b : string, bool_decide (Some a = Some b) = bool_decide (a = b)) as Hsome.
  { intros a b. apply bool_decide_ext. split; congruence. }
  split_and!.
  - cbv [Connection.guards.headsAreEqual Connection.getContext Connection.assert
         bind gets ret]. simpl. rewrite Hteam. simpl. by rewrite Hsome.
  - reflexivity.
  - cbv [Connection.guards.headsAreEqual Connection.getContext Connection.assert
         bind gets ret]. simpl. rewrite Hteam. simpl. by rewrite Hsome.
  - cbv [Connection.guards.headsAreDifferent Connection.guards.headsAreEqual
         Connection.getContext Connection.assert bind gets ret].
    simpl. rewrite Hteam. simpl. by rewrite Hsome.
Qed.

(** The proof of identity is checked against the challenge that comes back
    in the PROVE_IDENTITY message: [proveIdentity] answers a challenge with
    that challenge and [identity.prove] of it under the keys of its device,
    and [identityProofIsValid] hands the challenge and the proof of the
    message to [team.verifyIdentityProof]; the challenge that
    [challengeIdentity] has left in the verifier's context plays no part. *)
Theorem identity_proof_is_checked_against_the_message (prover verifier : Connection)
    (user : User.t) (team : Team) (challenge : Challenge.t) (i : Z) :
  Context.user (State.context (machineState prover)) = Some user →
  Context.team (State.context (machineState verifier)) = Some team →
  let proof :=
    identity_prove challenge (Device.keys (Context.device (State.context (machineState prover)))) in
  let reply := numbered (outgoingMessageIndex prover) (PROVE_IDENTITY challenge proof) in
  sent (Connection.body Connection.actions.proveIdentity
          (fromPeer (numbered i (CHALLENGE_IDENTITY challenge))) prover).2
  = sent prover ++ [reply]
  ∧ ∀ stored,
      let verifier' :=
        set_context (Context.with_challenge stored (State.context (machineState verifier)))
          verifier in
      Connection.guards.identityProofIsValid (fromPeer reply) verifier'
      = (Returned (team_verifyIdentityProof team challenge proof), verifier').
Proof.
  intros Huser Hteam. cbv zeta. split.
  - simpl. cbv [Connection.getContext Connection.assert bind gets ret]. simpl.
    by rewrite Huser.
  - intros stored.
    cbv [Connection.guards.identityProofIsValid Connection.getContext Connection.assert
         bind gets ret]. simpl. by rewrite Hteam.
Qed.

End Heads.

Lemma heads_compared_witness :
  let c := Toy.negotiatingAlice in
  let update := fromPeer (numbered 7 (UPDATE "root" "h2" ["h2"%string])) in
  (Connection.guards.headsAreEqual update c).1 = Returned false
  ∧ (Connection.guards.headsAreEqual (fromSelf (LOCAL_UPDATE "h1"))
       (Connection.body Connection.actions.recordTheirHead update c).2).1 = Returned false.
Proof.
  intros c update.
  assert (Context.team (State.context (machineState c)) = Some Toy.theTeam) as Hteam
    by (vm_compute; reflexivity).
  destruct (heads_compared c Toy.theTeam 7 "root" "h2" "h1" ["h2"%string] Hteam)
    as (Hupdate & Hrecord & Hlocal & _).
  subst update. rewrite Hupdate, Hrecord. cbn [fst snd]. rewrite Hlocal.
  split; reflexivity.
Defined.

Lemma identity_proof_is_checked_against_the_message_witness :
  let c := Toy.negotiatingAlice in
  let challenge := Challenge.make (Some (Invitee.make DEVICE "alice")) "n" in
  Connection.guards.identityProofIsValid
    (fromPeer (numbered 7 (PROVE_IDENTITY challenge "alice"))) c
  = (Returned true, c).
Proof.
  intros c challenge.
  assert (Context.user (State.context (machineState c)) = Some Toy.alice) as Huser
    by (vm_compute; reflexivity).
  assert (Context.team (State.context (machineState c)) = Some Toy.theTeam) as Hteam
    by (vm_compute; reflexivity).
  destruct (identity_proof_is_checked_against_the_message c c Toy.alice Toy.theTeam
              challenge 0 Huser Hteam) as [_ Hvalid].
  specialize (Hvalid (Context.challenge (State.context (machineState c)))).
  cbv zeta in Hvalid.
  assert (outgoingMessageIndex c = 7) as Hindex by (vm_compute; reflexivity).
  rewrite Hindex in Hvalid.
  etrans; [etrans; [|exact Hvalid]|]; vm_compute; reflexivity.
Defined.

(** ** Construction, the peer, and updates of the team *)

Section Peer.
Context `{Externals}.

(** The constructor throws exactly when the context has neither invitee
    nor user (it reads [context.user.userName]).  Otherwise it returns a
    connection that has not started and has sent, received and emitted
    nothing, which remembers the peer's name it was given; and the context is
    the supplied one unless it has an invitee, a user and no team. *)
Theorem constructor_outcome (params : Connection.ConnectionParams) :
  let supplied := Connection.params_context params in
  match Connection.new params with
  | Threw e =>
      e = "TypeError"%string
      ∧ InitialContext.invitee supplied = None ∧ InitialContext.user supplied = None
  | Returned c =>
      (is_Some (InitialContext.invitee supplied) ∨ is_Some (InitialContext.user supplied))
      ∧ c = Connection.fresh (Connection.params_peerUserName params)
              (State.context (machineState c))
      ∧ (is_Some (InitialContext.team supplied)
         ∨ InitialContext.invitee supplied = None
         ∨ InitialContext.user supplied = None →
         State.context (machineState c) = InitialContext.toContext supplied)
  end.
Proof.
  destruct params as [[user device team invitee seed] peer]. unfold Connection.new. simpl.
  destruct invitee as [invitee|], user as [user|], team as [team|]; simpl;
    split_and!; try done; eauto; intros [[? [=]]|[[=]|[=]]].
Qed.

(** [receiveHello] on a HELLO keeps the identity claim and the proof of
    invitation of the message and records whether there was a proof, so that
    the guard [theyHaveInvitation] answers yes exactly if the HELLO carried a
    proof; nothing is sent.  On a started connection that was given no peer
    name and has stored no peer, [peerName] is from then on the name claimed,
    else the name of the invitee of the proof, else '?'. *)
Theorem receiveHello_records_the_peer (c : Connection) (payload : HelloPayload.t) (i : Z) :
  let event := fromPeer (numbered i (HELLO payload)) in
  let proved :=
    match HelloPayload.proofOfInvitation payload with Some _ => true | None => false end in
  let c' :=
    set_context
      (Context.with_theirProofOfInvitation (HelloPayload.proofOfInvitation payload)
         (Context.with_theyHaveInvitation (Some proved)
            (Context.with_theirIdentityClaim (HelloPayload.identityClaim payload)
               (State.context (machineState c))))) c in
  Connection.body Connection.actions.receiveHello event c = (Returned tt, c')
  ∧ (∀ event', Connection.guards.theyHaveInvitation event' c' = (Returned proved, c'))
  ∧ (started c = true → peerUserName c = None →
     Context.peer (State.context (machineState c)) = None →
     Connection.peerName c'
     = (Returned match HelloPayload.identityClaim payload,
                       HelloPayload.proofOfInvitation payload with
                 | Some claim, _ => Invitee.name claim
                 | None, Some proof => Invitee.name (ProofOfInvitation.invitee proof)
                 | None, None => "?"%string
                 end, c')).
Proof.
  cbv zeta. split_and!.
  - reflexivity.
  - intros event'. cbv [Connection.guards.theyHaveInvitation Connection.getContext bind gets ret].
    simpl. by destruct (HelloPayload.proofOfInvitation payload).
  - intros Hstarted Hname Hpeer.
    cbv [Connection.peerName Connection.context bind gets ret]. simpl.
    rewrite Hstarted. simpl. rewrite Hname. simpl. rewrite Hstarted. simpl. rewrite Hpeer.
    by destruct (HelloPayload.identityClaim payload), (HelloPayload.proofOfInvitation payload).
Qed.

(** [storePeer] stores the member the claimed device belongs to if the team
    has that member, and nothing if it has not.  In the second case the
    guard [peerWasRemoved] cannot answer: its assertion on [context.peer]
    fails, and it throws.  In the first case, the team naming its members as
    asked, it answers no. *)
Theorem storePeer_then_peerWasRemoved (c : Connection) (team : Team) (claim : Invitee.t)
    (event event' : Event) :
  Context.team (State.context (machineState c)) = Some team →
  Context.theirIdentityClaim (State.context (machineState c)) = Some claim →
  let userName := (parseDeviceId (Invitee.name claim)).1 in
  let peer := if team_has team userName then Some (team_members team userName) else None in
  let c' := set_context (Context.with_peer peer (State.context (machineState c))) c in
  Connection.body Connection.actions.storePeer event c = (Returned tt, c')
  ∧ (team_has team userName = false →
     Connection.guards.peerWasRemoved event' c' = (Threw "Assertion failed", c'))
  ∧ (team_has team userName = true →
     Member.userName (team_members team userName) = userName →
     Connection.guards.peerWasRemoved event' c' = (Returned false, c')).
Proof.
  intros Hteam Hclaim. cbv zeta. split_and!.
  - simpl. cbv [Connection.getContext Connection.assert Connection.modifyContext
                bind gets modify ret]. simpl. by rewrite Hteam, Hclaim.
  - intros Hhas. rewrite Hhas.
    cbv [Connection.guards.peerWasRemoved Connection.getContext Connection.assert
         bind gets ret throw]. simpl. by rewrite Hteam.
  - intros Hhas Hname. rewrite Hhas.
    cbv [Connection.guards.peerWasRemoved Connection.getContext Connection.assert
         bind gets ret throw]. simpl. by rewrite Hteam, Hname, Hhas.
Qed.

(** Once [stop()] has been called, an update of the team no longer
    reaches the machine: the listener that [listenForTeamUpdates] has
    attached finds the state done and leaves the connection as it is. *)
Theorem team_update_after_stop (c : Connection) (head : string) :
  reachable c →
  let c1 := (Connection.stop c).2 in
  run (team_updated head) c1 = (Returned tt, c1).
Proof.
  intros Hc%reachable_Inv. destruct (stop_spec c Hc) as (c2 & -> & _). simpl.
  cbv [bind gets ret Connection.teamUpdated]. simpl. by destruct (teamListeners c2).
Qed.

End Peer.

Lemma receiveHello_records_the_peer_witness :
  let c := after [call_start []] Toy.aliceConnection in
  let payload := HelloPayload.make (Some Toy.bobClaim) None in
  let r := Connection.body Connection.actions.receiveHello
             (fromPeer (numbered 1 (HELLO payload))) c in
  r.1 = Returned tt
  ∧ (Connection.guards.theyHaveInvitation delay r.2).1 = Returned false
  ∧ (Connection.peerName r.2).1 = Returned "bob"%string.
Proof.
  intros c payload r.
  destruct (receiveHello_records_the_peer c payload 1) as (Hreceive & Hguard & Hname).
  subst r. rewrite Hreceive. cbn [fst snd].
  split; [reflexivity|]. split; [by rewrite Hguard|].
  rewrite Hname; [reflexivity | vm_compute; reflexivity ..].
Defined.

Lemma storePeer_then_peerWasRemoved_witness :
  let c := set_context
             (Context.with_theirIdentityClaim (Some (Invitee.make DEVICE "eve"))
                Toy.aliceContext) Toy.aliceConnection in
  let r := Connection.body Connection.actions.storePeer delay c in
  r.1 = Returned tt
  ∧ Context.peer (State.context (machineState r.2)) = None
  ∧ (Connection.guards.peerWasRemoved delay r.2).1 = Threw "Assertion failed".
Proof.
  intros c r.
  destruct (storePeer_then_peerWasRemoved c Toy.theTeam (Invitee.make DEVICE "eve")
              delay delay eq_refl eq_refl) as (Hstore & Hremoved & _).
  subst r. rewrite Hstore. cbn [fst snd].
  split; [reflexivity|]. split; [reflexivity|].
  rewrite Hremoved; reflexivity.
Defined.

Lemma team_update_after_stop_witness :
  reachable Toy.connectedAlice
  ∧ run (team_updated "h2") (Connection.stop Toy.connectedAlice).2
    = (Returned tt, (Connection.stop Toy.connectedAlice).2).
Proof.
  assert (reachable Toy.connectedAlice) as Hreachable.
  { apply reachable_after, (reachable_new Toy.aliceParams). reflexivity. }
  split; [exact Hreachable|]. apply (team_update_after_stop _ "h2" Hreachable).
Defined.

Section Rejection.
Context `{Externals}.


End Rejection.


(** ** Between two peers *)

Section TwoPeers.
Context `{Externals}.

(** The invitation, there and back.  An invitee without a team sends, with
    [sendHello], a HELLO that carries the proof made from its seed.  The
    member that takes this HELLO with [receiveHello] and admits the proof
    with [acceptInvitation] answers with the chain of its team as saved after
    the admission.  On that answer the invitee's guard [joinedTheRightTeam]
    rebuilds the team from the chain and asks it for the same proof: it
    answers yes if the team so rebuilt has the invitation. *)
Theorem invitation_round_trip (invitee member : Connection) (who : Invitee.t)
    (seed : string) (team admitted : Team) (event : Event) :
  let mine := State.context (machineState invitee) in
  let proof := generateProof seed who in
  started invitee = true →
  Context.invitee mine = Some who → Context.invitationSeed mine = Some seed →
  Context.team mine = None →
  Context.team (State.context (machineState member)) = Some team →
  team_admit team proof = Some admitted →
  let hello :=
    numbered (outgoingMessageIndex invitee)
      (HELLO {| HelloPayload.identityClaim :=
                  Some (Invitee.make DEVICE (getDeviceId (Context.device mine)));
                HelloPayload.proofOfInvitation := Some proof |}) in
  let accept :=
    numbered (outgoingMessageIndex member) (ACCEPT_INVITATION (team_save admitted)) in
  let invitee' := (Connection.execute Action.sendHello event invitee).2 in
  let member' :=
    (Connection.body Connection.actions.receiveHello (fromPeer hello) member).2 in
  sent invitee' = sent invitee ++ [hello]
  ∧ sent (Connection.body Connection.actions.acceptInvitation event member').2
    = sent member ++ [accept]
  ∧ Connection.guards.joinedTheRightTeam (fromPeer accept) invitee'
    = (Returned (team_hasInvitation
                   (Team_new (team_save admitted) (Context.user mine) (Context.device mine))
                   proof), invitee').
Proof.
  intros mine proof Hstarted Hwho Hseed Hnone Hteam Hadmit. subst mine proof. cbv zeta.
  assert (Connection.execute Action.sendHello event invitee
          = (Returned tt,
             (Connection.sendMessage (HELLO {|
                HelloPayload.identityClaim :=
                  Some (Invitee.make DEVICE
                          (getDeviceId (Context.device (State.context (machineState invitee)))));
                HelloPayload.proofOfInvitation := Some (generateProof seed who) |})
                invitee).2)) as ->.
  { unfold Connection.execute. simpl.
    cbv [ignoreThrow Connection.getContext Connection.team Connection.context
         Connection.myProofOfInvitation Connection.assert bind gets ret throw].
    simpl. unfold hasInvitee. rewrite Hwho. simpl. rewrite Hstarted. simpl.
    rewrite Hnone, Hseed. reflexivity. }
  split_and!.
  - reflexivity.
  - simpl. cbv [Connection.getContext Connection.assert Connection.modifyContext
                bind gets modify ret throw]. simpl. rewrite Hteam. simpl.
    rewrite Hadmit. reflexivity.
  - cbv [Connection.guards.joinedTheRightTeam Connection.getContext Connection.rehydrateTeam
         Connection.chainOf Connection.myProofOfInvitation Connection.assert
         bind gets ret throw]. unfold machineState in *. simpl. by rewrite Hseed, Hwho.
Qed.

(** An update, there and back.  [sendUpdate] tells the peer the root, the
    head and the hashes of our chain.  On this UPDATE the peer's guard
    [headsAreEqual] compares the head of its own chain with ours, and its
    [sendMissingLinks] answers with the links its team finds missing, under
    the head of its chain, or with nothing at all if there are none.  Our
    [receiveMissingLinks] hands that answer to [team.receiveMissingLinks] and
    keeps the team that comes back. *)
Theorem update_round_trip (a b : Connection) (teamA teamB : Team) (event : Event) :
  Context.team (State.context (machineState a)) = Some teamA →
  Context.team (State.context (machineState b)) = Some teamB →
  let update :=
    numbered (outgoingMessageIndex a)
      (UPDATE (team_chain_root teamA) (team_chain_head teamA) (team_chain_hashes teamA)) in
  let links :=
    team_getMissingLinks teamB (team_chain_root teamA) (team_chain_head teamA)
      (team_chain_hashes teamA) in
  let answer := numbered (outgoingMessageIndex b) (MISSING_LINKS (team_chain_head teamB) links) in
  let a' := (Connection.body Connection.actions.sendUpdate event a).2 in
  sent a' = sent a ++ [update]
  ∧ Connection.guards.headsAreEqual (fromPeer update) b
    = (Returned (bool_decide (team_chain_head teamB = team_chain_head teamA)), b)
  ∧ Connection.body Connection.actions.sendMissingLinks (fromPeer update) b
    = (Returned tt,
       match links with
       | [] => b
       | _ :: _ => (Connection.sendMessage (MISSING_LINKS (team_chain_head teamB) links) b).2
       end)
  ∧ Connection.body Connection.actions.receiveMissingLinks (fromPeer answer) a'
    = (Returned tt,
       set_context
         (Context.with_team
            (Some (team_receiveMissingLinks teamA (team_chain_head teamB) links))
            (State.context (machineState a'))) a').
Proof.
  intros HteamA HteamB. cbv zeta.
  assert (Connection.body Connection.actions.sendUpdate event a
          = (Returned tt,
             (Connection.sendMessage
                (UPDATE (team_chain_root teamA) (team_chain_head teamA)
                   (team_chain_hashes teamA)) a).2)) as ->.
  { simpl. cbv [Connection.getContext Connection.assert bind gets ret throw]. simpl.
    by rewrite HteamA. }
  split_and!.
  - reflexivity.
  - cbv [Connection.guards.headsAreEqual Connection.getContext Connection.assert
         bind gets ret]. simpl. rewrite HteamB. simpl. f_equal. f_equal.
    apply bool_decide_ext. split; congruence.
  - simpl. cbv [Connection.getContext Connection.assert bind gets ret throw]. simpl.
    rewrite HteamB. simpl. by destruct (team_getMissingLinks _ _ _ _).
  - simpl. cbv [Connection.getContext Connection.assert Connection.modifyContext
                bind gets modify ret throw]. unfold machineState in *. simpl.
    by rewrite HteamA.
Qed.


End TwoPeers.

Lemma invitation_round_trip_witness :
  let invitee := after [call_start []] Toy.bobConnection in
  let team : @Team Toy.externals := {| Toy.head := "passw0rd"; Toy.removed := [];
                                      Toy.invitations := ["passw0rd"%string] |} in
  let member := set_context (Context.with_team (Some team) Toy.aliceContext)
                  Toy.aliceConnection in
  (Connection.guards.joinedTheRightTeam
     (fromPeer (numbered (outgoingMessageIndex member) (ACCEPT_INVITATION "passw0rd")))
     (Connection.execute Action.sendHello delay invitee).2).1
  = Returned true.
Proof.
  intros invitee team member.
  assert (started invitee = true) as Hstarted by (vm_compute; reflexivity).
  pose proof (invitation_round_trip invitee member (Invitee.make MEMBER "bob") "passw0rd"
                team team delay Hstarted) as Hround.
  destruct Hround as (_ & _ & Hjoined); [vm_compute; reflexivity ..|].
  cbv zeta in Hjoined.
  change (team_save team) with "passw0rd"%string in Hjoined.
  rewrite Hjoined. vm_compute. reflexivity.
Defined.

Lemma update_round_trip_witness :
  let a := Toy.negotiatingAlice in
  let update := numbered 7 (UPDATE "root" "h1" ["h1"%string]) in
  sent (Connection.body Connection.actions.sendUpdate delay a).2 = sent a ++ [update]
  ∧ (Connection.guards.headsAreEqual (fromPeer update) a).1 = Returned true.
Proof.
  intros a update.
  assert (Context.team (State.context (machineState a)) = Some Toy.theTeam) as Hteam
    by (vm_compute; reflexivity).
  pose proof (update_round_trip a a Toy.theTeam Toy.theTeam delay Hteam Hteam) as Hround.
  cbv zeta in Hround. destruct Hround as (Hsent & Hequal & _).
  assert (outgoingMessageIndex a = 7) as Hindex by (vm_compute; reflexivity).
  rewrite Hindex in Hsent, Hequal.
  split; [exact Hsent|]. subst update.
  change (@team_chain_root Toy.externals Toy.theTeam) with "root"%string in Hequal.
  change (@team_chain_head Toy.externals Toy.theTeam) with "h1"%string in Hequal.
  change (@team_chain_hashes Toy.externals Toy.theTeam) with ["h1"%string] in Hequal.
  rewrite Hequal. reflexivity.
Defined.


Lemma constructor_outcome_witness :
  Connection.new Toy.aliceParams = Returned Toy.aliceConnection
  ∧ State.context (machineState Toy.aliceConnection)
    = InitialContext.toContext (Connection.params_context Toy.aliceParams).
Proof.
  split; [reflexivity|].
  pose proof (constructor_outcome Toy.aliceParams) as Houtcome.
  change (Connection.new Toy.aliceParams) with (Returned Toy.aliceConnection) in Houtcome.
  destruct Houtcome as (_ & _ & Hcontext). apply Hcontext. left. by eexists.
Defined.
